(** * MEF-Analyzer: the comparison endpoint of [server.ts]

    A shallow embedding of [removeAccents], [scrapeMefData] and the
    [POST /api/comparar] handler, with the JavaScript values they compute on:

    - strings are sequences of UTF-16 code units;
    - numbers are IEEE-754 binary64 values (Rocq's primitive [float]); the
      year and the HTTP status, which are small integers, are in [Z];
    - the dataset is an ordinary object created by the literal [{}]: own
      properties in creation order, [Object.prototype] behind them;
    - [Promise.all] is a join parameterised by which pipeline settles first.

    What lies outside [server.ts] is a parameter of the development: the
    Unicode decomposition behind [String.prototype.normalize("NFD")], and the
    outcome of [axios.get] followed by cheerio's selection of the first
    [table.Data] with the text of its cells. *)

From Stdlib Require Import String Ascii DecimalString.
From Stdlib Require Import ZArith NArith Bool List Lia Floats.
From Stdlib Require Import Permutation Sorted.
From Stdlib Require DecimalFacts DecimalPos.
Import ListNotations.
Open Scope list_scope.

(** ** Strings *)

Definition jsstring := list N.

(** Source literals are written as UTF-8 text and decoded to code units
    (every character used by [server.ts] is in the Basic Multilingual
    Plane). *)
Fixpoint utf8_decode (bs : list N) : jsstring :=
  match bs with
  | [] => []
  | b :: rest =>
      if (b <? 128)%N then b :: utf8_decode rest
      else if (b <? 224)%N then
        match rest with
        | c :: rest' => ((b - 192) * 64 + (c - 128))%N :: utf8_decode rest'
        | [] => [b]
        end
      else
        match rest with
        | c :: d :: rest' =>
            ((b - 224) * 4096 + (c - 128) * 64 + (d - 128))%N :: utf8_decode rest'
        | _ => [b]
        end
  end.

Definition js (s : string) : jsstring :=
  utf8_decode (map N_of_ascii (list_ascii_of_string s)).

Definition jsstring_eqb (a b : jsstring) : bool :=
  if list_eq_dec N.eq_dec a b then true else false.

(** [WhiteSpace] and [LineTerminator] code points, as [String.prototype.trim]
    and [parseFloat] strip them. *)
Definition is_white_space (c : N) : bool :=
  ((9 <=? c) && (c <=? 13) || (c =? 32) || (c =? 160) || (c =? 5760)
   || (8192 <=? c) && (c <=? 8202) || (c =? 8232) || (c =? 8233)
   || (c =? 8239) || (c =? 8287) || (c =? 12288) || (c =? 65279))%N.

Fixpoint trimStart (s : jsstring) : jsstring :=
  match s with
  | c :: rest => if is_white_space c then trimStart rest else s
  | [] => []
  end.

Definition trim (s : jsstring) : jsstring :=
  rev (trimStart (rev (trimStart s))).

(** [s.replace(/,/g, '')] *)
Definition remove_commas (s : jsstring) : jsstring :=
  filter (fun c => negb (c =? 44)%N) s.

Fixpoint starts_with (p s : jsstring) : bool :=
  match p, s with
  | [], _ => true
  | a :: p', b :: s' => (a =? b)%N && starts_with p' s'
  | _ :: _, [] => false
  end.

(** [s.includes(p)] *)
Fixpoint includes (s p : jsstring) : bool :=
  starts_with p s ||
  match s with
  | [] => false
  | _ :: s' => includes s' p
  end.

Definition is_digit (c : N) : bool := ((48 <=? c) && (c <=? 57))%N.

Definition digit_value (c : N) : Z := Z.of_N c - 48.

(** The integer denoted by a run of decimal digits, most significant first. *)
Definition digits_value (ds : jsstring) : Z :=
  fold_left (fun acc c => 10 * acc + digit_value c)%Z ds 0%Z.

(** Template interpolation [`${n}`] of an integer-valued number. *)
Definition integer_to_string (n : Z) : jsstring :=
  js (NilZero.string_of_int (Z.to_int n)).

(** *** The year pattern

    [exec_year s] runs [/y=(\d{4})/] on [s]: the text before the leftmost
    match, the four captured digits and the text after the match. *)
Definition year_here (s : jsstring) : option (jsstring * jsstring) :=
  match s with
  | y :: eq :: d1 :: d2 :: d3 :: d4 :: rest =>
      if (y =? 121)%N && (eq =? 61)%N
         && is_digit d1 && is_digit d2 && is_digit d3 && is_digit d4
      then Some ([d1; d2; d3; d4], rest) else None
  | _ => None
  end.

Fixpoint exec_year (s : jsstring) : option (jsstring * jsstring * jsstring) :=
  match year_here s with
  | Some (ds, rest) => Some ([], ds, rest)
  | None =>
      match s with
      | [] => None
      | c :: s' =>
          match exec_year s' with
          | Some (before, ds, rest) => Some (c :: before, ds, rest)
          | None => None
          end
      end
  end.

(** [url.match(/y=(\d{4})/)], reduced to its capture group [yearMatch[1]]. *)
Definition match_year (url : jsstring) : option jsstring :=
  match exec_year url with
  | Some (_, ds, _) => Some ds
  | None => None
  end.

(** [url.replace(/y=\d{4}/, replacement)]: the pattern has no [g] flag, so
    only the leftmost match is replaced. *)
Definition replace_year (url replacement : jsstring) : jsstring :=
  match exec_year url with
  | Some (before, _, rest) => before ++ replacement ++ rest
  | None => url
  end.

(** ** Numbers *)

Definition is_NaN (x : float) : bool := negb (x =? x)%float.

(** Exactly rounded quotient of two positive integers. *)
Definition float_of_ratio (n d : positive) : float :=
  SF2Prim (SFdiv prec emax (S754_finite false n 0) (S754_finite false d 0)).

(** The number nearest to [m * 10 ^ e] (round to nearest, ties to even). *)
Definition float_of_decimal (m : positive) (e : Z) : float :=
  if (0 <=? e)%Z
  then SF2Prim (binary_normalize prec emax (Zpos m * 10 ^ e) 0 false)
  else float_of_ratio m (Z.to_pos (10 ^ (- e))).

(** *** [parseFloat]

    The longest prefix of the input, after leading white space, that is a
    [StrDecimalLiteral]: an optional sign, then [Infinity] or decimal digits
    with an optional fraction and an optional exponent. *)
Fixpoint span_digits (s : jsstring) : jsstring * jsstring :=
  match s with
  | c :: rest =>
      if is_digit c
      then let (ds, tl) := span_digits rest in (c :: ds, tl)
      else ([], s)
  | [] => ([], [])
  end.

(** The exponent part is taken only when it is complete: [e] or [E], an
    optional sign and at least one digit. *)
Definition is_sign (c : N) : bool := ((c =? 43) || (c =? 45))%N.

Definition signed_digits (s : jsstring) : jsstring * jsstring :=
  match s with
  | c :: rest => if is_sign c then span_digits rest else span_digits s
  | [] => ([], [])
  end.

Definition exponent_sign (s : jsstring) : Z :=
  match s with
  | c :: _ => if (c =? 45)%N then (-1)%Z else 1%Z
  | [] => 1%Z
  end.

Definition is_exponent_char (c : N) : bool := ((c =? 101) || (c =? 69))%N.

Definition scan_exponent (s : jsstring) : Z :=
  match s with
  | c :: rest =>
      if is_exponent_char c
      then (exponent_sign rest * digits_value (fst (signed_digits rest)))%Z
      else 0%Z
  | [] => 0%Z
  end.

(** Mantissa digits and decimal exponent of the unsigned literal at the
    head of [s], when there is one: digits with an optional fraction, or a
    point followed by digits. *)
Definition scan_fraction (s : jsstring) : jsstring * jsstring :=
  match s with
  | c :: after_dot => if (c =? 46)%N then span_digits after_dot else ([], s)
  | [] => ([], [])
  end.

Definition scan_unsigned (s : jsstring) : option (Z * Z) :=
  let (int_part, after_int) := span_digits s in
  let (frac_part, after_frac) := scan_fraction after_int in
  match int_part ++ frac_part with
  | [] => None
  | mantissa =>
      Some (digits_value mantissa,
            (scan_exponent after_frac - Z.of_nat (length frac_part))%Z)
  end.

Definition str_Infinity : jsstring := js "Infinity".

Definition parse_unsigned (s : jsstring) : float :=
  if starts_with str_Infinity s then infinity
  else
    match scan_unsigned s with
    | None => nan
    | Some (Zpos m, e) => float_of_decimal m e
    | Some (_, _) => zero
    end.

Definition parseFloat (input : jsstring) : float :=
  match trimStart input with
  | c :: s =>
      if (c =? 43)%N then parse_unsigned s
      else if (c =? 45)%N then (- parse_unsigned s)%float
      else parse_unsigned (c :: s)
  | [] => nan
  end.

(** *** [Math.trunc] *)
Definition Math_trunc (x : float) : float :=
  match Prim2SF x with
  | S754_finite s m e =>
      if (0 <=? e)%Z then x
      else
        let q := of_uint63 (Uint63.of_Z (Z.shiftr (Zpos m) (- e))) in
        if s then (- q)%float else q
  | _ => x
  end.

(** *** [Number(x.toFixed(1))]

    [tenths m e] is the integer [n] for which [n / 10] is nearest to
    [m * 2 ^ e], the larger one when two are equally near. *)
Definition tenths (m : positive) (e : Z) : Z :=
  (if (0 <=? e) then 10 * Zpos m * 2 ^ e
   else (20 * Zpos m + 2 ^ (- e)) / 2 ^ (1 - e))%Z.

Definition fixed1_digits (n : Z) : jsstring :=
  integer_to_string (n / 10)%Z ++ [46%N] ++ integer_to_string (n mod 10)%Z.

(** The string [x.toFixed(1)] for a finite [x] below [1e21] in magnitude. *)
Definition toFixed1 (s : bool) (m : positive) (e : Z) : jsstring :=
  (if s then [45%N] else []) ++ fixed1_digits (tenths m e).

(** Beyond [1e21], and for [NaN] and the infinities, [toFixed] yields
    [ToString(x)], which [Number] reads back as [x]. *)
Definition Number_toFixed1 (x : float) : float :=
  match Prim2SF x with
  | S754_finite s m e =>
      if (1e21 <=? abs x)%float then x else parseFloat (toFixed1 s m e)
  | S754_zero _ => zero
  | _ => x
  end.

(** ** Objects used as dictionaries

    [data] in [scrapeMefData] starts as [{}], so it inherits from
    [Object.prototype].  Own properties are kept in creation order; reading
    a missing key falls through to the prototype. *)

Inductive jsval : Type :=
| JUndefined
| JNumber (x : float)
| JObject.

Definition dataset := list (jsstring * float).

(** The property names of [Object.prototype]; the value behind each of them
    is a function, or for [__proto__] the prototype object itself. *)
Definition Object_prototype_names : list jsstring :=
  map js ["constructor"; "hasOwnProperty"; "isPrototypeOf";
          "propertyIsEnumerable"; "toLocaleString"; "toString"; "valueOf";
          "__defineGetter__"; "__defineSetter__"; "__lookupGetter__";
          "__lookupSetter__"; "__proto__"]%string.

Definition str_proto : jsstring := js "__proto__".

Fixpoint own_get (o : dataset) (k : jsstring) : option float :=
  match o with
  | [] => None
  | (k', v) :: o' => if jsstring_eqb k' k then Some v else own_get o' k
  end.

(** [o[k]] *)
Definition get (o : dataset) (k : jsstring) : jsval :=
  match own_get o k with
  | Some v => JNumber v
  | None =>
      if existsb (jsstring_eqb k) Object_prototype_names
      then JObject else JUndefined
  end.

Fixpoint own_set (o : dataset) (k : jsstring) (v : float) : dataset :=
  match o with
  | [] => [(k, v)]
  | (k', v') :: o' =>
      if jsstring_eqb k' k then (k', v) :: o' else (k', v') :: own_set o' k v
  end.

(** [o[k] = v] for a number [v].  Assigning to [__proto__] runs the
    prototype's setter, which ignores a value that is not an object: no own
    property is created. *)
Definition set (o : dataset) (k : jsstring) (v : float) : dataset :=
  if jsstring_eqb k str_proto then o else own_set o k v.

(** A key is an array index when it is the canonical decimal form of an
    integer below [2^32 - 1]. *)
Definition array_index (k : jsstring) : option Z :=
  match k with
  | [] => None
  | c :: rest =>
      if forallb is_digit k
         && (negb (c =? 48)%N || (length rest =? 0)%nat)
         && (digits_value k <=? 4294967294)%Z
      then Some (digits_value k) else None
  end.

Definition is_array_index (k : jsstring) : bool :=
  match array_index k with Some _ => true | None => false end.

Fixpoint insert_index (k : jsstring) (i : Z) (l : list (jsstring * Z))
  : list (jsstring * Z) :=
  match l with
  | [] => [(k, i)]
  | (k', i') :: l' =>
      if (i <? i')%Z then (k, i) :: l else (k', i') :: insert_index k i l'
  end.

Fixpoint index_keys (ks : list jsstring) : list (jsstring * Z) :=
  match ks with
  | [] => []
  | k :: ks' =>
      match array_index k with
      | Some i => insert_index k i (index_keys ks')
      | None => index_keys ks'
      end
  end.

(** [Object.keys(o)]: array indices in ascending numeric order, then the
    other keys in creation order. *)
Definition Object_keys (o : dataset) : list jsstring :=
  map fst (index_keys (map fst o))
  ++ filter (fun k => negb (is_array_index k)) (map fst o).

(** [new Set(items)] followed by [Array.from]: each item is added unless it
    is already a member. *)
Definition Set_add (s : list jsstring) (k : jsstring) : list jsstring :=
  if existsb (jsstring_eqb k) s then s else s ++ [k].

Definition Set_from (items : list jsstring) : list jsstring :=
  fold_left Set_add items [].

Definition truthy (v : jsval) : bool :=
  match v with
  | JUndefined => false
  | JNumber x => negb ((x =? 0)%float || is_NaN x)
  | JObject => true
  end.

(** [v || 0] *)
Definition or_zero (v : jsval) : jsval :=
  if truthy v then v else JNumber zero.

(** [ToNumber], as the division applies it to its left operand.  An object
    of [Object.prototype] converts through its string form to [NaN]. *)
Definition ToNumber (v : jsval) : float :=
  match v with
  | JNumber x => x
  | JUndefined => nan
  | JObject => nan
  end.

(** ** The comparison rows *)

Record ComparisonRow : Type := {
  concepto : jsstring;
  montoAnterior : float;
  montoActual : float;
  variacionS : float;
  variacionPorcentaje : float
}.

(** The callback of [Array.from(conceptos).map]. *)
Definition compare_concepto (dataActual dataAnterior : dataset)
    (concepto : jsstring) : ComparisonRow :=
  let montoAnteriorRaw := or_zero (get dataAnterior concepto) in
  let montoActualRaw := or_zero (get dataActual concepto) in
  let montoAnterior := Math_trunc (ToNumber montoAnteriorRaw / 1000000) in
  let montoActual := Math_trunc (ToNumber montoActualRaw / 1000000) in
  let variacionS := (montoActual - montoAnterior)%float in
  let variacionPorcentaje :=
    if negb (montoAnterior =? 0)%float
    then Number_toFixed1 (((montoActual / montoAnterior) * 100) - 100)
    else zero in
  {| concepto := concepto;
     montoAnterior := montoAnterior;
     montoActual := montoActual;
     variacionS := variacionS;
     variacionPorcentaje := variacionPorcentaje |}.

(** *** [Array.prototype.sort]

    The sort is stable.  [comparefn a b > 0] puts [a] after [b]; any other
    value, [NaN] included, leaves the pair as it stands.  It is modelled as
    the stable insertion sort, which yields the order every conforming
    engine yields when the comparator is consistent.  When the comparator
    is not consistent the language leaves the order to the engine, and the
    model then stands for no engine in particular.  The comparator
    [(a, b) => key(b) - key(a)] is consistent as long as no key is NaN:
    what is stated below about the order of its result is stated for such
    keys only. *)
Section ArraySort.
Variable A : Type.
Variable comparefn : A -> A -> float.

Definition sorts_after (a b : A) : bool := (0 <? comparefn a b)%float.

Fixpoint sort_insert (x : A) (l : list A) : list A :=
  match l with
  | [] => [x]
  | y :: l' => if sorts_after x y then y :: sort_insert x l' else x :: l
  end.

Definition Array_sort (l : list A) : list A := fold_right sort_insert [] l.
End ArraySort.

Arguments sorts_after {A} comparefn a b.
Arguments sort_insert {A} comparefn x l.
Arguments Array_sort {A} comparefn l.

(** [(a, b) => b.variacionS - a.variacionS] *)
Definition by_variacionS_desc (a b : ComparisonRow) : float :=
  (variacionS b - variacionS a)%float.

Definition conceptos (dataActual dataAnterior : dataset) : list jsstring :=
  Set_from (Object_keys dataActual ++ Object_keys dataAnterior).

(** The rows before the sort. *)
Definition comparison_rows (dataActual dataAnterior : dataset)
  : list ComparisonRow :=
  map (compare_concepto dataActual dataAnterior)
      (conceptos dataActual dataAnterior).

(** The [data] of the response: lines 86 to 113 of [server.ts]. *)
Definition comparar (dataActual dataAnterior : dataset) : list ComparisonRow :=
  Array_sort by_variacionS_desc (comparison_rows dataActual dataAnterior).

(** ** Errors and outcomes *)

(** The fields of a thrown object that [server.ts] reads.  An axios error
    carries [response] when the server answered, [request] when it did
    not. *)
Record jserror : Type := {
  message : jsstring;
  response : option Z;
  request : bool
}.

(** [new Error(msg)] *)
Definition Error (msg : jsstring) : jserror :=
  {| message := msg; response := None; request := false |}.

Inductive outcome (A : Type) : Type :=
| Returned (a : A)
| Thrown (e : jserror).

Arguments Returned {A} a.
Arguments Thrown {A} e.

(** The rows found by [table.find("tr")], each with the text of the cells
    found by [$(row).find("td")]. *)
Definition table := list (list jsstring).

Definition msg_no_table : jsstring :=
  js "No se encontró la tabla de datos en la URL proporcionada. Verifique que el enlace sea de Consulta Amigable.".

Definition msg_no_numeric : jsstring :=
  js "La tabla se encontró pero no contiene datos numéricos válidos en las columnas esperadas.".

Definition msg_status (status : Z) : jsstring :=
  js "Error al acceder a la URL: El servidor respondió con estado "
  ++ integer_to_string status ++ js ".".

Definition msg_network : jsstring :=
  js "Error de red: No se pudo conectar a la URL proporcionada.".

Definition msg_url_required : jsstring := js "La URL es requerida.".

Definition msg_no_year : jsstring :=
  js "La URL no contiene el parámetro de año 'y='. Asegúrese de copiar el enlace correcto.".

Definition msg_internal : jsstring := js "Error interno del servidor".

Definition msg_not_a_function : jsstring := js "url.match is not a function".

(** [`Error en datos de ${year}: ${e.message}`] *)
Definition msg_year (year : Z) (msg : jsstring) : jsstring :=
  js "Error en datos de " ++ integer_to_string year ++ js ": " ++ msg.

(** ** The request and the response *)

(** [req.body.url]: absent, a string, or another JSON value, which is
    either falsy ([null], [false], [0]) or not. *)
Inductive body_url : Type :=
| UrlMissing
| UrlString (s : jsstring)
| UrlFalsy
| UrlTruthy.

Inductive http_response : Type :=
| ErrorResponse (status : Z) (error : jsstring)
| ComparisonResult (yearActual yearAnterior : Z) (data : list ComparisonRow).

Definition status_of (r : http_response) : Z :=
  match r with
  | ErrorResponse status _ => status
  | ComparisonResult _ _ _ => 200
  end.

(** The two pipelines started by the handler. *)
Inductive pipeline : Type := Actual | Anterior.

(** [Promise.all] over the two pipelines: fulfilled with both values, or
    rejected with the reason of the pipeline that rejects first. *)
Definition Promise_all (first : pipeline) (a b : outcome dataset)
  : outcome (dataset * dataset) :=
  match a, b with
  | Returned x, Returned y => Returned (x, y)
  | Thrown e, Returned _ => Thrown e
  | Returned _, Thrown e => Thrown e
  | Thrown ea, Thrown eb =>
      match first with
      | Actual => Thrown ea
      | Anterior => Thrown eb
      end
  end.

(** [p.catch(e => { throw new Error(`Error en datos de ${year}: ...`) })] *)
Definition catch_with_year (year : Z) (p : outcome dataset) : outcome dataset :=
  match p with
  | Returned d => Returned d
  | Thrown e => Thrown (Error (msg_year year (message e)))
  end.

(** [error.message || "Error interno del servidor"] *)
Definition message_or_internal (e : jserror) : jsstring :=
  match message e with
  | [] => msg_internal
  | m => m
  end.

Section Server.

(** [str.normalize("NFD")] *)
Variable normalize_NFD : jsstring -> jsstring.

(** [axios.get(url, ...)], the decoding of the body and
    [$("table.Data").first()]: the request fails with a thrown object, or
    the page has no such table, or it has one. *)
Variable axios_get : jsstring -> outcome (option table).

Definition is_combining_mark (c : N) : bool :=
  ((768 <=? c) && (c <=? 879))%N.

Definition removeAccents (str : jsstring) : jsstring :=
  filter (fun c => negb (is_combining_mark c)) (normalize_NFD str).

(** The callback of [table.find("tr").each], on the pair of [data] and
    [hasData]. *)
Definition each_row (st : dataset * bool) (cols : list jsstring)
  : dataset * bool :=
  if (8 <=? length cols)%nat then
    let conceptoRaw := trim (nth 1 cols []) in
    let montoRaw := remove_commas (trim (nth 7 cols [])) in
    let monto := parseFloat montoRaw in
    if negb (is_NaN monto)
    then (set (fst st) (removeAccents conceptoRaw) monto, true)
    else st
  else st.

(** The [try] block of [scrapeMefData]. *)
Definition scrape_try (url : jsstring) : outcome dataset :=
  match axios_get url with
  | Thrown e => Thrown e
  | Returned None => Thrown (Error msg_no_table)
  | Returned (Some rows) =>
      let (data, hasData) := fold_left each_row rows ([], false) in
      if hasData then Returned data else Thrown (Error msg_no_numeric)
  end.

(** The [catch] block of [scrapeMefData]: what it throws for [error]. *)
Definition scrape_catch (error : jserror) : jserror :=
  match response error with
  | Some status => Error (msg_status status)
  | None =>
      if request error && negb (includes (message error) (js "No se encontró"))
      then Error msg_network
      else error
  end.

Definition scrapeMefData (url : jsstring) : outcome dataset :=
  match scrape_try url with
  | Returned data => Returned data
  | Thrown error => Thrown (scrape_catch error)
  end.

(** Lines 72 to 79 of the handler: [yearActual], [yearAnterior] and
    [urlAnterior], when the URL carries a year. *)
Definition resolve_year (url : jsstring) : option (Z * Z * jsstring) :=
  match match_year url with
  | None => None
  | Some yearMatch =>
      let yearActual := digits_value yearMatch in
      let yearAnterior := (yearActual - 1)%Z in
      let urlAnterior :=
        replace_year url (js "y=" ++ integer_to_string yearAnterior) in
      Some (yearActual, yearAnterior, urlAnterior)
  end.

(** Lines 81 to 124: the join of the two pipelines, the comparison and
    the [catch] of the handler. *)
Definition respond (first : pipeline) (yearActual yearAnterior : Z)
    (actual anterior : outcome dataset) : http_response :=
  match Promise_all first
          (catch_with_year yearActual actual)
          (catch_with_year yearAnterior anterior) with
  | Returned (dataActual, dataAnterior) =>
      ComparisonResult yearActual yearAnterior
        (comparar dataActual dataAnterior)
  | Thrown error => ErrorResponse 500 (message_or_internal error)
  end.

(** The handler of [POST /api/comparar]: its response and the URLs it
    requested, in order.  [first] tells which pipeline settles first. *)
Definition comparar_handler (first : pipeline) (url : body_url)
  : http_response * list jsstring :=
  match url with
  | UrlMissing | UrlFalsy => (ErrorResponse 400 msg_url_required, [])
  | UrlTruthy => (ErrorResponse 500 msg_not_a_function, [])
  | UrlString [] => (ErrorResponse 400 msg_url_required, [])
  | UrlString url =>
      match resolve_year url with
      | None => (ErrorResponse 400 msg_no_year, [])
      | Some (yearActual, yearAnterior, urlAnterior) =>
          (respond first yearActual yearAnterior
             (scrapeMefData url) (scrapeMefData urlAnterior),
           [url; urlAnterior])
      end
  end.

End Server.

(** ** Sample parameters

    A decomposition and a portal to run the model on.  [nfd_latin1] is the
    canonical decomposition of the letters of the Latin-1 Supplement, which
    is all of NFD on text made of Basic Latin and Latin-1 characters. *)

Definition latin1_letters : list (option (N * N)) :=
  [ Some (65, 768); Some (65, 769); Some (65, 770); Some (65, 771);
    Some (65, 776); Some (65, 778); None; Some (67, 807);
    Some (69, 768); Some (69, 769); Some (69, 770); Some (69, 776);
    Some (73, 768); Some (73, 769); Some (73, 770); Some (73, 776);
    None; Some (78, 771);
    Some (79, 768); Some (79, 769); Some (79, 770); Some (79, 771);
    Some (79, 776); None; None;
    Some (85, 768); Some (85, 769); Some (85, 770); Some (85, 776);
    Some (89, 769) ]%N.

Definition latin1_decompose (c : N) : list N :=
  if ((192 <=? c) && (c <=? 221))%N then
    match nth (N.to_nat (c - 192)) latin1_letters None with
    | Some (base, mark) => [base; mark]
    | None => [c]
    end
  else if ((224 <=? c) && (c <=? 253))%N then
    match nth (N.to_nat (c - 224)) latin1_letters None with
    | Some (base, mark) => [(base + 32)%N; mark]
    | None => [c]
    end
  else if (c =? 255)%N then [121%N; 776%N]
  else [c].

Definition nfd_latin1 (s : jsstring) : jsstring := flat_map latin1_decompose s.

(** A row of eight cells with a label in the second and an amount in the
    eighth. *)
Definition sample_row (label amount : string) : list jsstring :=
  [[]; js label; []; []; []; []; []; js amount].

(** A portal that serves a table for 2024 and for 2023, a page without a
    table for 2022, an answer with status 404 for 2021, and does not answer
    for any other address. *)
Definition sample_portal (url : jsstring) : outcome (option table) :=
  if includes url (js "y=2024") then
    Returned (Some [ sample_row " Educación " " 7,500,000.75 ";
                     [js "Total"];
                     sample_row "Salud" "n.d.";
                     sample_row "Educacion" "8,000,000 (p)" ])
  else if includes url (js "y=2023") then
    Returned (Some [ sample_row "Salud" "3,000,000";
                     sample_row "Educación" "6,000,000" ])
  else if includes url (js "y=2022") then Returned None
  else if includes url (js "y=2021") then
    Thrown {| message := js "Request failed with status code 404";
              response := Some 404%Z; request := true |}
  else
    Thrown {| message := js "connect ETIMEDOUT";
              response := None; request := true |}.

(** * The client: the [App] component

    The state of the component and the functions that compute on it.  What
    the browser supplies is a parameter: [String.prototype.toLowerCase],
    the number format of [Intl.NumberFormat], and the outcome of [fetch]
    followed by [response.json()]. *)

(** [keyof ConceptoData] *)
Inductive column : Type :=
| Col_concepto
| Col_montoAnterior
| Col_montoActual
| Col_variacionS
| Col_variacionPorcentaje.

Inductive direction : Type := Asc | Desc.

(** [sortConfig]: [null] or a key with a direction. *)
Definition sort_config := option (column * direction).

Definition column_eqb (a b : column) : bool :=
  match a, b with
  | Col_concepto, Col_concepto
  | Col_montoAnterior, Col_montoAnterior
  | Col_montoActual, Col_montoActual
  | Col_variacionS, Col_variacionS
  | Col_variacionPorcentaje, Col_variacionPorcentaje => true
  | _, _ => false
  end.

(** The initial [sortConfig]. *)
Definition initial_sortConfig : sort_config := Some (Col_variacionS, Desc).

(** [handleSort(key)]: the new [sortConfig]. *)
Definition handleSort (sortConfig : sort_config) (key : column) : sort_config :=
  let direction :=
    match sortConfig with
    | Some (k, Desc) => if column_eqb k key then Asc else Desc
    | _ => Desc
    end in
  Some (key, direction).

(** [a < b] on two strings: the order of their code units, a proper prefix
    first. *)
Fixpoint string_ltb (a b : jsstring) : bool :=
  match a, b with
  | _, [] => false
  | [], _ :: _ => true
  | x :: a', y :: b' => (x <? y)%N || ((x =? y)%N && string_ltb a' b')
  end.

(** A number of the parsed body.  JSON has no text for NaN or for an
    infinity: [res.json] writes [null] in their place, and a number that
    [response.json()] reads is never NaN. *)
Inductive json_number : Type :=
| JsonNull
| JsonNumber (x : float) (is_number : is_NaN x = false).

(** [ToNumber], as [<], [>] and [+] apply it to such a value: [null]
    reads as 0. *)
Definition json_ToNumber (v : json_number) : float :=
  match v with
  | JsonNull => zero
  | JsonNumber x _ => x
  end.

(** [ConceptoData]: a row of the parsed body. *)
Record ConceptoData : Type := {
  item_concepto : jsstring;
  item_montoAnterior : json_number;
  item_montoActual : json_number;
  item_variacionS : json_number;
  item_variacionPorcentaje : json_number
}.

(** [a[key] < b[key]]: two strings in the column of the labels, and in the
    other columns two values that are numbers or [null]. *)
Definition field_ltb (key : column) (a b : ConceptoData) : bool :=
  match key with
  | Col_concepto => string_ltb (item_concepto a) (item_concepto b)
  | Col_montoAnterior =>
      (json_ToNumber (item_montoAnterior a)
       <? json_ToNumber (item_montoAnterior b))%float
  | Col_montoActual =>
      (json_ToNumber (item_montoActual a)
       <? json_ToNumber (item_montoActual b))%float
  | Col_variacionS =>
      (json_ToNumber (item_variacionS a)
       <? json_ToNumber (item_variacionS b))%float
  | Col_variacionPorcentaje =>
      (json_ToNumber (item_variacionPorcentaje a)
       <? json_ToNumber (item_variacionPorcentaje b))%float
  end.

(** The comparator of [filteredAndSortedData]; [a > b] is [b < a]. *)
Definition compare_by (config : column * direction) (a b : ConceptoData)
  : float :=
  let (key, dir) := config in
  if field_ltb key a b then
    match dir with Asc => (-1)%float | Desc => 1%float end
  else if field_ltb key b a then
    match dir with Asc => 1%float | Desc => (-1)%float end
  else 0%float.

(** [ApiResponse] *)
Record ApiResponse : Type := {
  api_yearActual : Z;
  api_yearAnterior : Z;
  api_data : list ConceptoData
}.

Section Client.

Variable toLowerCase : jsstring -> jsstring.

(** The body of the [useMemo] behind [filteredAndSortedData]. *)
Definition filteredAndSortedData (apiData : option ApiResponse)
    (searchTerm : jsstring) (sortConfig : sort_config) : list ConceptoData :=
  match apiData with
  | None => []
  | Some api =>
      let result := api_data api in
      let result :=
        match searchTerm with
        | [] => result
        | _ =>
            let lowerSearch := toLowerCase searchTerm in
            filter (fun item =>
                      includes (toLowerCase (item_concepto item)) lowerSearch)
                   result
        end in
      match sortConfig with
      | Some config => Array_sort (compare_by config) result
      | None => result
      end
  end.

End Client.

(** [apiData?.data.reduce((sum, item) => sum + item.field, 0) || 0] *)
Definition total_of (field : ConceptoData -> json_number)
    (apiData : option ApiResponse) : float :=
  match apiData with
  | None => zero
  | Some api =>
      ToNumber
        (or_zero
           (JNumber
              (fold_left
                 (fun sum item => (sum + json_ToNumber (field item))%float)
                 (api_data api) zero)))
  end.

Definition totalAnterior (apiData : option ApiResponse) : float :=
  total_of item_montoAnterior apiData.

Definition totalActual (apiData : option ApiResponse) : float :=
  total_of item_montoActual apiData.

Definition totalVariacionS (apiData : option ApiResponse) : float :=
  (totalActual apiData - totalAnterior apiData)%float.

Definition totalVariacionPorcentaje (apiData : option ApiResponse) : float :=
  if negb (totalAnterior apiData =? 0)%float
  then Number_toFixed1
         (((totalActual apiData / totalAnterior apiData) * 100) - 100)
  else zero.

(** The part of the component state that [handleEjecutar] writes. *)
Record ui_state (P : Type) : Type := {
  ui_loading : bool;
  ui_error : option jsstring;
  ui_apiData : option P
}.

Arguments ui_loading {P} u.
Arguments ui_error {P} u.
Arguments ui_apiData {P} u.

(** What [fetch] and [response.json()] give: a thrown error with its
    message, or [response.ok] with the parsed body. *)
Inductive fetched (P : Type) : Type :=
| FetchThrown (message : jsstring)
| FetchReply (ok : bool) (data : P).

Arguments FetchThrown {P} message.
Arguments FetchReply {P} ok data.

Definition msg_request_failed : jsstring := js "Error al procesar la solicitud".

Section HandleEjecutar.

(** The parsed body, and its [error] field when it has one. *)
Variable P : Type.
Variable error_field : P -> option jsstring.

(** [fetch('/api/comparar', ...)] with the body [{ url }]. *)
Variable post_comparar : jsstring -> fetched P.

(** [data.error || 'Error al procesar la solicitud'] *)
Definition error_or_default (data : P) : jsstring :=
  match error_field data with
  | Some (c :: m) => c :: m
  | _ => msg_request_failed
  end.

(** [handleEjecutar] with [url] in the input field: the state once the
    handler has run to its end, and the URLs it posted. *)
Definition handleEjecutar (url : jsstring) (st : ui_state P)
  : ui_state P * list jsstring :=
  match url with
  | [] => (st, [])
  | _ =>
      (match post_comparar url with
       | FetchThrown m =>
           {| ui_loading := false; ui_error := Some m;
              ui_apiData := ui_apiData st |}
       | FetchReply false data =>
           {| ui_loading := false; ui_error := Some (error_or_default data);
              ui_apiData := ui_apiData st |}
       | FetchReply true data =>
           {| ui_loading := false; ui_error := None;
              ui_apiData := Some data |}
       end,
       [url])
  end.

End HandleEjecutar.

(** [response.ok]: a status from 200 to 299. *)
Definition response_ok (status : Z) : bool :=
  ((200 <=? status) && (status <=? 299))%Z.

(** The [error] field of the body the server sends. *)
Definition reply_error (r : http_response) : option jsstring :=
  match r with
  | ErrorResponse _ m => Some m
  | ComparisonResult _ _ _ => None
  end.

Section Format.

(** [formatNumber]:
    [new Intl.NumberFormat('es-PE').format(num).replace(/,/g, ' ')] *)
Variable formatNumber : float -> jsstring.

Definition formatVariacion (num : float) : jsstring :=
  let formatted := formatNumber (abs num) in
  if (0 <? num)%float then 43%N :: formatted
  else if (num <? 0)%float then 45%N :: formatted
  else js "0".

End Format.

(** ** The client in front of the handler *)

(** What [JSON.parse] reads back from what [JSON.stringify] writes for a
    number: [null] for NaN and for the infinities, 0 for -0, and the number
    itself otherwise. *)
Definition JSON_number (x : float) : json_number :=
  (if is_NaN x as b return is_NaN x = b -> json_number
   then fun _ => JsonNull
   else fun is_number =>
     if is_infinity x then JsonNull
     else if (x =? 0)%float then JsonNumber zero eq_refl
     else JsonNumber x is_number) eq_refl.

(** A row of the handler as the component receives it. *)
Definition JSON_row (row : ComparisonRow) : ConceptoData :=
  {| item_concepto := concepto row;
     item_montoAnterior := JSON_number (montoAnterior row);
     item_montoActual := JSON_number (montoActual row);
     item_variacionS := JSON_number (variacionS row);
     item_variacionPorcentaje := JSON_number (variacionPorcentaje row) |}.

Section Served.

Variable normalize_NFD : jsstring -> jsstring.
Variable axios_get : jsstring -> outcome (option table).
Variable first : pipeline.

(** The body of a reply as [response.json()] parses it. *)
Variable P : Type.
Variable parsed : http_response -> P.

(** [fetch('/api/comparar', ...)] with the body [{ url }], answered by the
    handler. *)
Definition post_to_handler (url : jsstring) : fetched P :=
  let reply :=
    fst (comparar_handler normalize_NFD axios_get first (UrlString url)) in
  FetchReply (response_ok (status_of reply)) (parsed reply).

End Served.

(** * The vocabulary of the statements

    Predicates and functions in which the properties below are worded.
    None of them is part of [server.ts]. *)

(** ** Order and ties under a key *)

(** The comparator [(a, b) => key(b) - key(a)]. *)
Definition key_desc {A : Type} (key : A -> float) (a b : A) : float :=
  (key b - key a)%float.

(** [b] does not exceed [a]. *)
Definition not_below {A : Type} (key : A -> float) (a b : A) : Prop :=
  (key a <? key b)%float = false.

(** The elements whose key equals [v] are those that pass [has_key key v]. *)
Definition has_key {A : Type} (key : A -> float) (v : float) (a : A) : bool :=
  (key a =? v)%float.

(** [b] is at most [a].  This fails when either key is NaN. *)
Definition at_most {A : Type} (key : A -> float) (a b : A) : Prop :=
  (key b <=? key a)%float = true.

(** The variation of every row is at most that of each row before it. *)
Definition descending (rows : list ComparisonRow) : Prop :=
  StronglySorted (at_most variacionS) rows.

(** No row has a variation that is NaN. *)
Definition no_NaN_variation (rows : list ComparisonRow) : Prop :=
  forallb (fun row => negb (is_NaN (variacionS row))) rows = true.

(** The rows whose variation equals [v], in order. *)
Definition ties (v : float) (rows : list ComparisonRow) : list ComparisonRow :=
  filter (has_key variacionS v) rows.

(** ** The percentage *)

(** [(montoActual / montoAnterior) * 100 - 100] *)
Definition percent_change (montoActual montoAnterior : float) : float :=
  (((montoActual / montoAnterior) * 100) - 100)%float.

(** ** Labels *)

(** The labels of [b] that [a] does not have. *)
Definition unique_to (a b : list jsstring) : list jsstring :=
  filter (fun k => negb (existsb (jsstring_eqb k) a)) b.

(** The labels in the order the datasets list them: those of the current
    dataset, then those only the prior dataset has. *)
Definition labels_in_creation_order (dataActual dataAnterior : dataset)
  : list jsstring :=
  map fst dataActual ++ unique_to (map fst dataActual) (map fst dataAnterior).

(** The labels in the order of [Object.keys]. *)
Definition labels_in_keys_order (dataActual dataAnterior : dataset)
  : list jsstring :=
  Object_keys dataActual
  ++ unique_to (Object_keys dataActual) (Object_keys dataAnterior).

(** ** Rows of the table *)

(** A row is a candidate when it has at least eight cells. *)
Definition candidate (cols : list jsstring) : bool := (8 <=? length cols)%nat.

(** The label and the amount read off a row. *)
Definition row_label (cols : list jsstring) : jsstring := trim (nth 1 cols []).

Definition row_amount (cols : list jsstring) : float :=
  parseFloat (remove_commas (trim (nth 7 cols []))).

(** A row yields an amount when it is a candidate whose amount parses. *)
Definition yields_amount (cols : list jsstring) : bool :=
  candidate cols && negb (is_NaN (row_amount cols)).

(** The label and amount pairs of the rows that yield an amount, in the
    order of the rows. *)
Definition entries (normalize_NFD : jsstring -> jsstring) (rows : table)
  : list (jsstring * float) :=
  map (fun cols => (removeAccents normalize_NFD (row_label cols), row_amount cols))
      (filter yields_amount rows).

(** Storing label and amount pairs one after the other. *)
Definition store (entries : list (jsstring * float)) (data : dataset) : dataset :=
  fold_left (fun o e => set o (fst e) (snd e)) entries data.

(** The last amount stored under [k], if any. *)
Definition last_amount (k : jsstring) (entries : list (jsstring * float))
  : option float :=
  fold_left (fun acc e => if jsstring_eqb (fst e) k then Some (snd e) else acc)
            entries None.

(** A dataset built by assignments is an object: its keys are distinct, and
    [__proto__] is not among them. *)
Definition is_object (o : dataset) : Prop :=
  NoDup (map fst o) /\ ~ In str_proto (map fst o).

(** ** Decimal literals *)

Definition all_digits (ds : jsstring) : Prop := forallb is_digit ds = true.

(** [ExponentPart]: an exponent indicator, an optional sign, digits. *)
Inductive ExponentPart : jsstring -> Prop :=
| Exponent_unsigned (c : N) (ds : jsstring) :
    is_exponent_char c = true -> ds <> [] -> all_digits ds ->
    ExponentPart (c :: ds)
| Exponent_signed (c sg : N) (ds : jsstring) :
    is_exponent_char c = true -> is_sign sg = true ->
    ds <> [] -> all_digits ds ->
    ExponentPart (c :: sg :: ds).

Definition OptionalExponent (ex : jsstring) : Prop :=
  ex = [] \/ ExponentPart ex.

(** [StrUnsignedDecimalLiteral] and [StrDecimalLiteral] of the language
    specification. *)
Inductive StrUnsignedDecimalLiteral : jsstring -> Prop :=
| Unsigned_Infinity : StrUnsignedDecimalLiteral str_Infinity
| Unsigned_integer (ds ex : jsstring) :
    ds <> [] -> all_digits ds -> OptionalExponent ex ->
    StrUnsignedDecimalLiteral (ds ++ ex)
| Unsigned_fraction (ds fs ex : jsstring) :
    ds ++ fs <> [] -> all_digits ds -> all_digits fs -> OptionalExponent ex ->
    StrUnsignedDecimalLiteral (ds ++ 46%N :: fs ++ ex).

Inductive StrDecimalLiteral : jsstring -> Prop :=
| Literal_unsigned (u : jsstring) :
    StrUnsignedDecimalLiteral u -> StrDecimalLiteral u
| Literal_signed (sg : N) (u : jsstring) :
    is_sign sg = true -> StrUnsignedDecimalLiteral u ->
    StrDecimalLiteral (sg :: u).

(** What may follow a literal without extending it: nothing, or a
    character that is no digit, no point and no exponent indicator. *)
Definition ends_number (tl : jsstring) : Prop :=
  match tl with
  | [] => True
  | c :: _ => is_digit c = false /\ (c =? 46)%N = false
              /\ is_exponent_char c = false
  end.

Definition no_digit_ahead (tl : jsstring) : Prop :=
  match tl with
  | [] => True
  | c :: _ => is_digit c = false
  end.

(** *** What a literal denotes

    A literal denotes infinity, or the number [m * 10 ^ e] for the integer
    [m] that its digits spell, the point left out, and for the exponent
    [e] that its exponent part spells, less the number of digits after the
    point; a minus sign in front makes it negative. *)

(** The integer that a run of digits spells. *)
Fixpoint spelled (ds : jsstring) : Z :=
  match ds with
  | [] => 0
  | c :: r => (Z.of_N c - 48) * 10 ^ Z.of_nat (length r) + spelled r
  end%Z.

Inductive exponent_denotes : jsstring -> Z -> Prop :=
| Denotes_no_exponent : exponent_denotes [] 0%Z
| Denotes_exponent (c : N) (ds : jsstring) :
    is_exponent_char c = true -> ds <> [] -> all_digits ds ->
    exponent_denotes (c :: ds) (spelled ds)
| Denotes_exponent_plus (c : N) (ds : jsstring) :
    is_exponent_char c = true -> ds <> [] -> all_digits ds ->
    exponent_denotes (c :: 43%N :: ds) (spelled ds)
| Denotes_exponent_minus (c : N) (ds : jsstring) :
    is_exponent_char c = true -> ds <> [] -> all_digits ds ->
    exponent_denotes (c :: 45%N :: ds) (- spelled ds)%Z.

Inductive decimal : Type :=
| Dec_infinity
| Dec_number (m e : Z).

Inductive unsigned_denotes : jsstring -> decimal -> Prop :=
| Denotes_Infinity : unsigned_denotes str_Infinity Dec_infinity
| Denotes_integer (ds ex : jsstring) (x : Z) :
    ds <> [] -> all_digits ds -> exponent_denotes ex x ->
    unsigned_denotes (ds ++ ex) (Dec_number (spelled ds) x)
| Denotes_fraction (ds fs ex : jsstring) (x : Z) :
    ds ++ fs <> [] -> all_digits ds -> all_digits fs ->
    exponent_denotes ex x ->
    unsigned_denotes (ds ++ 46%N :: fs ++ ex)
                     (Dec_number (spelled (ds ++ fs))
                                 (x - Z.of_nat (length fs))%Z).

(** The literal, whether it is negative, and what its unsigned part
    denotes. *)
Inductive literal_denotes : jsstring -> bool -> decimal -> Prop :=
| Denotes_unsigned (u : jsstring) (d : decimal) :
    unsigned_denotes u d -> literal_denotes u false d
| Denotes_plus (u : jsstring) (d : decimal) :
    unsigned_denotes u d -> literal_denotes (43%N :: u) false d
| Denotes_minus (u : jsstring) (d : decimal) :
    unsigned_denotes u d -> literal_denotes (45%N :: u) true d.

(** The number nearest to [m * 10 ^ e], for [m] that is not negative: the
    library's rounding to nearest, ties to even, of the exact product when
    [e] is not negative and of the exact quotient [m / 10 ^ (- e)]
    otherwise. *)
Definition nearest_decimal (m e : Z) : float :=
  match m with
  | Zpos p =>
      if (0 <=? e)%Z
      then SF2Prim (binary_normalize prec emax (Zpos p * 10 ^ e) 0 false)
      else SF2Prim (SFdiv prec emax (S754_finite false p 0)
                          (S754_finite false (Z.to_pos (10 ^ (- e))) 0))
  | _ => zero
  end.

(** The number a literal stands for. *)
Definition denoted (negative : bool) (d : decimal) : float :=
  let x := match d with
           | Dec_infinity => infinity
           | Dec_number m e => nearest_decimal m e
           end in
  if negative then (- x)%float else x.

(** ** The year in the URL *)

(** [y=], four digits, at the position after [before]. *)
Definition year_at (url before ds rest : jsstring) : Prop :=
  url = before ++ 121%N :: 61%N :: ds ++ rest
  /\ length ds = 4%nat /\ all_digits ds.

Definition has_year (url : jsstring) : Prop :=
  exists before ds rest, year_at url before ds rest.

(** The first such position. *)
Definition leftmost_year (url before ds rest : jsstring) : Prop :=
  year_at url before ds rest
  /\ forall before' ds' rest',
       year_at url before' ds' rest' -> (length before <= length before')%nat.

(** ** The order of binary64 values

    [order_key] sends the values other than NaN to triples of integers
    whose lexicographic order is the order [<] and [<=] decide. *)

Definition order_key (x : spec_float) : Z * Z * Z :=
  match x with
  | S754_zero _ => (0, 0, 0)
  | S754_infinity s => (if s then -2 else 2, 0, 0)
  | S754_nan => (0, 0, 0)
  | S754_finite s m e => if s then (-1, - e, - Zpos m) else (1, e, Zpos m)
  end%Z.

Definition lex_lt (a b : Z * Z * Z) : Prop :=
  let '(a1, a2, a3) := a in
  let '(b1, b2, b3) := b in
  (a1 < b1 \/ (a1 = b1 /\ (a2 < b2 \/ (a2 = b2 /\ a3 < b3))))%Z.

Definition lex_le (a b : Z * Z * Z) : Prop :=
  let '(a1, a2, a3) := a in
  let '(b1, b2, b3) := b in
  (a1 < b1 \/ (a1 = b1 /\ (a2 < b2 \/ (a2 = b2 /\ a3 <= b3))))%Z.

(** ** Signs of rounded results *)

(** A positive finite value or positive infinity. *)
Definition positive_result (x : spec_float) : bool :=
  match x with
  | S754_finite false _ _ | S754_infinity false => true
  | _ => false
  end.

(** ** Integers as text *)

(** The code units of the digits of a decimal numeral. *)
Fixpoint uint_codes (d : Decimal.uint) : jsstring :=
  match d with
  | Decimal.Nil => []
  | Decimal.D0 d => 48%N :: uint_codes d
  | Decimal.D1 d => 49%N :: uint_codes d
  | Decimal.D2 d => 50%N :: uint_codes d
  | Decimal.D3 d => 51%N :: uint_codes d
  | Decimal.D4 d => 52%N :: uint_codes d
  | Decimal.D5 d => 53%N :: uint_codes d
  | Decimal.D6 d => 54%N :: uint_codes d
  | Decimal.D7 d => 55%N :: uint_codes d
  | Decimal.D8 d => 56%N :: uint_codes d
  | Decimal.D9 d => 57%N :: uint_codes d
  end.

(** ** Amounts as text *)

(** The number nearest to the integer [n], for [n] that is not negative. *)
Definition nearest_integer (n : Z) : float :=
  match n with
  | Zpos m => SF2Prim (binary_normalize prec emax (Zpos m) 0 false)
  | _ => zero
  end.

Definition digits_and_commas (s : jsstring) : Prop :=
  forallb (fun c => is_digit c || (c =? 44)%N) s = true.

Definition white_space (s : jsstring) : Prop :=
  forallb is_white_space s = true.

(** A text that does not start with white space. *)
Definition no_space_ahead (t : jsstring) : Prop :=
  match t with
  | [] => True
  | c :: _ => is_white_space c = false
  end.

(** [t] is [s] without the white space at its two ends. *)
Definition trimmed (s t : jsstring) : Prop :=
  exists w1 w2,
    s = w1 ++ t ++ w2 /\ white_space w1 /\ white_space w2
    /\ no_space_ahead t /\ no_space_ahead (rev t).

(** [t] is [s] without its commas. *)
Inductive without_commas : jsstring -> jsstring -> Prop :=
| Commas_nil : without_commas [] []
| Commas_drop (s t : jsstring) :
    without_commas s t -> without_commas (44%N :: s) t
| Commas_keep (c : N) (s t : jsstring) :
    c <> 44%N -> without_commas s t -> without_commas (c :: s) (c :: t).

(** ** The table on display *)

(** Two rows that follow one another under a sort configuration: the
    second is not above the first when descending, not below it when
    ascending. *)
Definition in_order (config : column * direction) (a b : ConceptoData) : Prop :=
  let (key, dir) := config in
  match dir with
  | Desc => field_ltb key a b = false
  | Asc => field_ltb key b a = false
  end.

(** A row passes the search: there is no search term, or its label holds
    the term, both in lower case. *)
Definition matches_search (toLowerCase : jsstring -> jsstring)
    (searchTerm : jsstring) (item : ConceptoData) : bool :=
  match searchTerm with
  | [] => true
  | _ => includes (toLowerCase (item_concepto item)) (toLowerCase searchTerm)
  end.

(** * Properties *)

Local Open Scope Z_scope.

(** ** Binary64 arithmetic

    The comparator of the sort subtracts two numbers and looks at the sign
    of the difference.  The facts below relate that sign to the order of
    the operands, through the specification of the primitive operations. *)

Lemma digits2_pos_bounds (m : positive) :
  2 ^ (Zpos (digits2_pos m) - 1) <= Zpos m < 2 ^ Zpos (digits2_pos m).
Proof.
  induction m as [m IH | m IH |]; simpl digits2_pos.
  - rewrite Pos2Z.inj_succ, Z.pow_succ_r by lia.
    replace (Z.succ (Zpos (digits2_pos m)) - 1) with (Z.succ (Zpos (digits2_pos m) - 1)) by lia.
    rewrite Z.pow_succ_r by lia. lia.
  - rewrite Pos2Z.inj_succ, Z.pow_succ_r by lia.
    replace (Z.succ (Zpos (digits2_pos m)) - 1) with (Z.succ (Zpos (digits2_pos m) - 1)) by lia.
    rewrite Z.pow_succ_r by lia. lia.
  - simpl. lia.
Qed.

Lemma shr_1_m (mrs : shr_record) :
  0 <= shr_m mrs -> shr_m (shr_1 mrs) = shr_m mrs / 2.
Proof.
  destruct mrs as [m r s]; simpl.
  destruct m as [|[p|p|]|p]; cbn [shr_m]; intros H; try lia.
  - reflexivity.
  - apply Z.div_unique with (r := 1); lia.
  - apply Z.div_unique with (r := 0); lia.
  - reflexivity.
Qed.

Lemma pow2_xO (p : positive) : 2 ^ Zpos p~0 = 2 ^ Zpos p * 2 ^ Zpos p.
Proof. rewrite <- Z.pow_add_r by lia. f_equal. lia. Qed.

Lemma pow2_xI (p : positive) : 2 ^ Zpos p~1 = 2 * (2 ^ Zpos p * 2 ^ Zpos p).
Proof.
  rewrite <- Z.pow_add_r, <- Z.pow_succ_r by lia. f_equal. lia.
Qed.

Lemma iter_pos_shr_m (p : positive) :
  forall mrs, 0 <= shr_m mrs ->
    shr_m (iter_pos shr_1 p mrs) = shr_m mrs / 2 ^ Zpos p.
Proof.
  induction p as [p IH | p IH |]; intros mrs H; simpl iter_pos.
  - assert (H1 : 0 <= shr_m (shr_1 mrs))
      by (rewrite shr_1_m by assumption; apply Z.div_pos; lia).
    assert (H2 : 0 <= shr_m (iter_pos shr_1 p (shr_1 mrs)))
      by (rewrite IH by assumption; apply Z.div_pos; lia).
    rewrite IH, IH, shr_1_m by assumption.
    rewrite !Z.div_div by lia. now rewrite pow2_xI.
  - assert (H2 : 0 <= shr_m (iter_pos shr_1 p mrs))
      by (rewrite IH by assumption; apply Z.div_pos; lia).
    rewrite IH, IH by assumption.
    rewrite !Z.div_div by lia. now rewrite pow2_xO.
  - rewrite shr_1_m by assumption. reflexivity.
Qed.

Lemma shr_record_of_loc_m (m : Z) (l : location) : shr_m (shr_record_of_loc m l) = m.
Proof. destruct l as [|[| |]]; reflexivity. Qed.

(** Rounding a positive mantissa whose exponent is not below [emin] keeps
    it positive. *)
Lemma shr_fexp_pos (m e : Z) (l : location) :
  0 < m -> emin <= e ->
  0 < shr_m (fst (shr_fexp prec emax m e l)) /\ emin <= snd (shr_fexp prec emax m e l).
Proof.
  intros Hm He. unfold shr_fexp, shr.
  destruct m as [|m|m]; try lia.
  pose proof (digits2_pos_bounds m) as Hd.
  simpl Zdigits2.
  destruct (fexp prec emax (Zpos (digits2_pos m) + e) - e) as [|n|n] eqn:En; simpl fst; simpl snd;
    rewrite ?shr_record_of_loc_m; try (split; [lia | assumption]).
  unfold fexp in En. fold emin in En.
  rewrite iter_pos_shr_m by (rewrite shr_record_of_loc_m; lia).
  rewrite shr_record_of_loc_m.
  assert (Hn : Zpos n = Zpos (digits2_pos m) - prec) by (unfold prec in *; lia).
  split; [| lia].
  apply Z.div_str_pos. split; [apply Z.pow_pos_nonneg; lia|].
  apply Z.le_trans with (2 ^ (Zpos (digits2_pos m) - 1)); [| lia].
  apply Z.pow_le_mono_r; unfold prec in *; lia.
Qed.

Lemma round_nearest_even_ge (m : Z) (l : location) : m <= round_nearest_even m l.
Proof. destruct l as [|[| |]]; simpl; try lia. destruct (Z.even m); lia. Qed.

Lemma binary_round_aux_pos (m e : Z) (l : location) :
  0 < m -> emin <= e ->
  positive_result (binary_round_aux prec emax false m e l) = true.
Proof.
  intros Hm He. unfold binary_round_aux.
  pose proof (shr_fexp_pos m e l Hm He) as [H1 H2].
  destruct (shr_fexp prec emax m e l) as [mrs' e'] eqn:E1. simpl fst in *; simpl snd in *.
  pose proof (round_nearest_even_ge (shr_m mrs') (loc_of_shr_record mrs')) as Hr.
  assert (H3 : 0 < round_nearest_even (shr_m mrs') (loc_of_shr_record mrs')) by lia.
  pose proof (shr_fexp_pos _ _ loc_Exact H3 H2) as [H4 H5].
  destruct (shr_fexp prec emax _ e' loc_Exact) as [mrs'' e''] eqn:E2. simpl fst in *; simpl snd in *.
  destruct (shr_m mrs''); try lia.
  destruct (e'' <=? emax - prec); reflexivity.
Qed.

Lemma binary_round_aux_neg (m e : Z) (l : location) :
  positive_result (binary_round_aux prec emax true m e l) = false.
Proof.
  unfold binary_round_aux.
  destruct (shr_fexp prec emax m e l) as [mrs' e'].
  destruct (shr_fexp prec emax _ e' loc_Exact) as [mrs'' e''].
  destruct (shr_m mrs''); try reflexivity.
  destruct (e'' <=? emax - prec); reflexivity.
Qed.

Lemma iter_xO_value (m d : positive) :
  Zpos (Pos.iter xO m d) = Zpos m * 2 ^ Zpos d.
Proof.
  induction d as [|d IH] using Pos.peano_ind.
  - simpl. lia.
  - rewrite Pos.iter_succ, Pos2Z.inj_xO, IH, Pos2Z.inj_succ, Z.pow_succ_r by lia. lia.
Qed.

Lemma shl_align_value (m : positive) (e e' : Z) :
  e' <= e -> Zpos (fst (shl_align m e e')) = Zpos m * 2 ^ (e - e').
Proof.
  intros H. unfold shl_align.
  destruct (e' - e) as [|d|d] eqn:E; try lia; simpl fst.
  - replace (e - e') with 0 by lia. lia.
  - rewrite iter_xO_value. f_equal. f_equal. lia.
Qed.

Lemma shl_align_fexp_exp (m : positive) (e : Z) :
  emin <= e ->
  emin <= snd (shl_align m e (fexp prec emax (Zpos (digits2_pos m) + e))).
Proof.
  intros H. unfold shl_align.
  destruct (fexp prec emax (Zpos (digits2_pos m) + e) - e) eqn:E; simpl snd; try assumption.
  unfold fexp. fold emin. lia.
Qed.

Lemma binary_normalize_pos (d : positive) (e : Z) :
  emin <= e -> positive_result (binary_normalize prec emax (Zpos d) e false) = true.
Proof.
  intros H. unfold binary_normalize, binary_round.
  pose proof (shl_align_fexp_exp d e H) as H1.
  destruct (shl_align d e _) as [mz ez]. simpl snd in H1.
  apply binary_round_aux_pos; [lia | assumption].
Qed.

Lemma binary_normalize_neg (d : positive) (e : Z) :
  positive_result (binary_normalize prec emax (Zneg d) e false) = false.
Proof.
  unfold binary_normalize, binary_round.
  destruct (shl_align d e _) as [mz ez]. apply binary_round_aux_neg.
Qed.

(** What validity says of a finite value: the exponent is at least [emin],
    the mantissa has at most [prec] digits, and exactly [prec] above
    [emin]. *)
Lemma valid_finite (s : bool) (m : positive) (e : Z) :
  valid_binary (S754_finite s m e) = true ->
  emin <= e /\ Zpos (digits2_pos m) <= prec /\
  (emin < e -> Zpos (digits2_pos m) = prec).
Proof.
  unfold valid_binary, bounded, canonical_mantissa, fexp. fold emin.
  intros H. apply andb_prop in H as [H _]. apply Z.eqb_eq in H.
  unfold prec in *. lia.
Qed.

Lemma pos_compare_cont_Eq (a b : positive) :
  Pos.compare_cont Eq a b = Pos.compare a b.
Proof. reflexivity. Qed.

(** A valid value with the larger exponent is the larger in magnitude. *)
Lemma valid_exp_lt_mag (s s' : bool) (m m' : positive) (e e' : Z) :
  valid_binary (S754_finite s m e) = true ->
  valid_binary (S754_finite s' m' e') = true ->
  e < e' -> Zpos m < Zpos m' * 2 ^ (e' - e).
Proof.
  intros V V' H.
  apply valid_finite in V as (He & Hd & _).
  apply valid_finite in V' as (He' & Hd' & Hn').
  pose proof (digits2_pos_bounds m) as B.
  pose proof (digits2_pos_bounds m') as B'.
  rewrite Hn' in B' by lia.
  assert (P : 2 ^ Zpos (digits2_pos m) <= 2 ^ prec)
    by (apply Z.pow_le_mono_r; lia).
  assert (Q : 2 ^ 1 <= 2 ^ (e' - e)) by (apply Z.pow_le_mono_r; lia).
  change (2 ^ 1) with 2 in Q.
  assert (R : 2 ^ prec = 2 * 2 ^ (prec - 1)) by reflexivity.
  nia.
Qed.

Lemma SFsub_pos (x y : spec_float) :
  valid_binary x = true -> valid_binary y = true ->
  SFltb y x = true -> positive_result (SFsub prec emax x y) = true.
Proof.
  intros Vx Vy. unfold SFltb. intros H.
  destruct x as [sx|sx| |sx mx ex], y as [sy|sy| |sy my ey];
    try discriminate H;
    try (destruct sx, sy; simpl in *; congruence);
    try (destruct sx; simpl in *; congruence);
    try (destruct sy; simpl in *; congruence).
  cbn [SFsub].
  pose proof (valid_finite _ _ _ Vx) as (Hex & _).
  pose proof (valid_finite _ _ _ Vy) as (Hey & _).
  rewrite !shl_align_value by lia.
  set (D := cond_Zopp sx _ - cond_Zopp sy _).
  assert (HD : 0 < D).
  { subst D. cbn [SFcompare] in H.
    assert (Px : 0 < 2 ^ (ex - Z.min ex ey)) by (apply Z.pow_pos_nonneg; lia).
    assert (Py : 0 < 2 ^ (ey - Z.min ex ey)) by (apply Z.pow_pos_nonneg; lia).
    destruct sx, sy; cbn [cond_Zopp]; try discriminate; try nia.
    - (* both negative: |x| < |y| *)
      destruct (Z.compare_spec ey ex) as [E|E|E]; try discriminate.
      + subst ey. rewrite pos_compare_cont_Eq in H.
        destruct (Pos.compare_spec my mx); simpl in H; try discriminate.
        rewrite Z.min_id, Z.sub_diag, Z.pow_0_r in *. lia.
      + pose proof (valid_exp_lt_mag _ _ _ _ _ _ Vx Vy ltac:(lia)) as M.
        rewrite Z.min_l in * by lia. rewrite Z.sub_diag, Z.pow_0_r. lia.
    - (* both positive: |y| < |x| *)
      destruct (Z.compare_spec ey ex) as [E|E|E]; try discriminate.
      + subst ey. rewrite pos_compare_cont_Eq in H.
        destruct (Pos.compare_spec my mx); simpl in H; try discriminate.
        rewrite Z.min_id, Z.sub_diag, Z.pow_0_r in *. lia.
      + pose proof (valid_exp_lt_mag _ _ _ _ _ _ Vy Vx ltac:(lia)) as M.
        rewrite Z.min_r in * by lia. rewrite Z.sub_diag, Z.pow_0_r. lia. }
  destruct D as [|d|d]; try lia.
  apply binary_normalize_pos. lia.
Qed.

Lemma SFsub_antisym (x y : spec_float) :
  positive_result (SFsub prec emax x y) = true ->
  positive_result (SFsub prec emax y x) = false.
Proof.
  destruct x as [sx|sx| |sx mx ex], y as [sy|sy| |sy my ey];
    try (destruct sx, sy; simpl; congruence);
    try (destruct sx; simpl; congruence);
    try (destruct sy; simpl; congruence);
    try (simpl; congruence).
  cbn [SFsub]. rewrite (Z.min_comm ey ex).
  set (X := cond_Zopp sx _). set (Y := cond_Zopp sy _).
  replace (Y - X) with (- (X - Y)) by lia.
  destruct (X - Y) as [|d|d]; cbn [Z.opp]; intros H.
  - reflexivity.
  - apply binary_normalize_neg.
  - rewrite binary_normalize_neg in H. discriminate.
Qed.

Lemma SFcompare_refl (x : spec_float) :
  x <> S754_nan -> SFcompare x x = Some Eq.
Proof.
  destruct x as [s|s| |s m e]; intros H; try congruence; try (destruct s; reflexivity).
  simpl. rewrite Z.compare_refl, pos_compare_cont_Eq, Pos.compare_refl.
  destruct s; reflexivity.
Qed.

Lemma SFeqb_inv (x y : spec_float) :
  SFeqb x y = true ->
  (exists s s', x = S754_zero s /\ y = S754_zero s') \/ (x = y /\ x <> S754_nan).
Proof.
  unfold SFeqb.
  destruct x as [sx|sx| |sx mx ex], y as [sy|sy| |sy my ey]; simpl;
    try discriminate; try (destruct sx; discriminate); try (destruct sy; discriminate).
  - intros _. left. eauto.
  - destruct sx, sy; try discriminate; intros _; right; split; congruence.
  - intros H. right. split; [| discriminate].
    destruct sx, sy; try discriminate;
      destruct (Z.compare_spec ex ey); try discriminate; subst;
      rewrite pos_compare_cont_Eq in H;
      destruct (Pos.compare_spec mx my); try discriminate; subst; reflexivity.
Qed.

Lemma SFeqb_join (a b c : spec_float) :
  SFeqb a c = true -> SFeqb b c = true -> SFeqb a b = true.
Proof.
  intros Ha Hb.
  apply SFeqb_inv in Ha as [(s & s' & -> & ->) | [-> Na]];
    apply SFeqb_inv in Hb as [(t & t' & -> & E) | [-> Nb]]; try reflexivity.
  - rewrite E. reflexivity.
  - unfold SFeqb. now rewrite SFcompare_refl.
Qed.

Lemma SFsub_eq (x y : spec_float) :
  SFeqb x y = true -> positive_result (SFsub prec emax x y) = false.
Proof.
  intros H. apply SFeqb_inv in H as [(s & s' & -> & ->) | [<- N]].
  - destruct s, s'; reflexivity.
  - destruct x as [s|s| |s m e]; try congruence; try (destruct s; reflexivity).
    cbn [SFsub]. rewrite Z.sub_diag. reflexivity.
Qed.

Lemma SFltb_zero (r : spec_float) :
  SFltb (S754_zero false) r = positive_result r.
Proof. destruct r as [s|s| |s m e]; try reflexivity; destruct s; reflexivity. Qed.

(** *** The same facts on primitive floats *)

Lemma zero_lt_sub (x y : float) :
  (0 <? x - y)%float = positive_result (SFsub prec emax (Prim2SF x) (Prim2SF y)).
Proof.
  rewrite ltb_spec, sub_spec. change (Prim2SF 0) with (S754_zero false).
  apply SFltb_zero.
Qed.

Lemma sub_pos_of_lt (x y : float) :
  (y <? x)%float = true -> (0 <? x - y)%float = true.
Proof.
  rewrite ltb_spec, zero_lt_sub. apply SFsub_pos; apply Prim2SF_valid.
Qed.

Lemma sub_pos_antisym (x y : float) :
  (0 <? x - y)%float = true -> (0 <? y - x)%float = false.
Proof. rewrite !zero_lt_sub. apply SFsub_antisym. Qed.

Lemma sub_pos_not_eq (x y : float) :
  (x =? y)%float = true -> (0 <? x - y)%float = false.
Proof. rewrite eqb_spec, zero_lt_sub. apply SFsub_eq. Qed.

Lemma eqb_join (x y v : float) :
  (x =? v)%float = true -> (y =? v)%float = true -> (x =? y)%float = true.
Proof. rewrite !eqb_spec. apply SFeqb_join. Qed.

(** *** Results that are never [NaN] *)

Lemma shr_fexp_nonneg (m e : Z) (l : location) :
  0 <= m -> 0 <= shr_m (fst (shr_fexp prec emax m e l)).
Proof.
  intros Hm. unfold shr_fexp, shr.
  destruct (fexp prec emax (Zdigits2 m + e) - e) as [|n|n]; simpl fst;
    rewrite ?iter_pos_shr_m; rewrite ?shr_record_of_loc_m; try lia.
  apply Z.div_pos; lia.
Qed.

Lemma binary_round_aux_not_nan (s : bool) (m e : Z) (l : location) :
  0 <= m -> binary_round_aux prec emax s m e l <> S754_nan.
Proof.
  intros Hm. unfold binary_round_aux.
  pose proof (shr_fexp_nonneg m e l Hm) as H1.
  destruct (shr_fexp prec emax m e l) as [mrs' e']. simpl fst in H1.
  pose proof (round_nearest_even_ge (shr_m mrs') (loc_of_shr_record mrs')) as Hr.
  pose proof (shr_fexp_nonneg _ e' loc_Exact (Z.le_trans _ _ _ H1 Hr)) as H2.
  destruct (shr_fexp prec emax _ e' loc_Exact) as [mrs'' e'']. simpl fst in H2.
  destruct (shr_m mrs''); try lia; try discriminate.
  destruct (e'' <=? emax - prec); discriminate.
Qed.

Lemma binary_round_not_nan (s : bool) (m : positive) (e : Z) :
  binary_round prec emax s m e <> S754_nan.
Proof.
  unfold binary_round. destruct (shl_align m e _) as [mz ez].
  apply binary_round_aux_not_nan. lia.
Qed.

Lemma binary_normalize_not_nan (m e : Z) (szero : bool) :
  binary_normalize prec emax m e szero <> S754_nan.
Proof.
  destruct m; simpl; try discriminate; apply binary_round_not_nan.
Qed.

Lemma SFdiv_finite_not_nan (s s' : bool) (m m' : positive) (e e' : Z) :
  SFdiv prec emax (S754_finite s m e) (S754_finite s' m' e') <> S754_nan.
Proof.
  cbn [SFdiv]. unfold SFdiv_core_binary.
  set (sh := _ - _ - Z.min _ _).
  set (n := match sh with Z0 => Zpos m | Zpos _ => Z.shiftl (Zpos m) sh | Zneg _ => 0 end).
  assert (Hn : 0 <= n).
  { subst n. destruct sh; try lia. apply Z.shiftl_nonneg. lia. }
  pose proof (Z.div_pos n (Zpos m') Hn ltac:(lia)) as Hq.
  unfold Z.div in Hq. destruct (Z.div_eucl n (Zpos m')) as [q r]. simpl fst in Hq.
  apply binary_round_aux_not_nan. assumption.
Qed.

Lemma is_NaN_spec (x : float) : is_NaN x = true <-> Prim2SF x = S754_nan.
Proof.
  unfold is_NaN. rewrite negb_true_iff. rewrite eqb_spec. unfold SFeqb. split.
  - intros H. destruct (Prim2SF x) eqn:E; try reflexivity;
      rewrite SFcompare_refl in H by discriminate; discriminate.
  - intros ->. reflexivity.
Qed.

Lemma SF2Prim_not_nan (r : spec_float) :
  r <> S754_nan -> Prim2SF (SF2Prim r) <> S754_nan.
Proof.
  destruct r as [s|s| |s m e]; intros H; try congruence.
  - destruct s; discriminate.
  - destruct s; discriminate.
  - unfold SF2Prim.
    assert (L : Prim2SF (Z.ldexp (of_uint63 (Uint63.of_Z (Zpos m))) e) <> S754_nan).
    { unfold Z.ldexp. rewrite ldshiftexp_spec, of_uint63_spec.
      pose proof (binary_normalize_not_nan
                    (Uint63.to_Z (Uint63.of_Z (Zpos m))) 0 false) as Hn.
      destruct (binary_normalize _ _ _ _ _); cbn [SFldexp]; try congruence.
      apply binary_round_not_nan. }
    destruct s; [| exact L].
    rewrite opp_spec. destruct (Prim2SF _); cbn [SFopp]; congruence.
Qed.

(** *** Rounding to one decimal

    [tenths m e] is the integer nearest to ten times [m * 2 ^ e], the
    larger one at a tie: with [p = 2 ^ (- e)] for a negative [e],
    [n - 1/2 <= 10 * m / p < n + 1/2]. *)
Lemma tenths_nearest (m : positive) (e : Z) :
  (0 <= e -> tenths m e = 10 * Zpos m * 2 ^ e)
  /\ (e < 0 ->
      2 * tenths m e * 2 ^ (- e) - 2 ^ (- e) <= 20 * Zpos m
      /\ 20 * Zpos m < 2 * tenths m e * 2 ^ (- e) + 2 ^ (- e)).
Proof.
  unfold tenths. split; intros H.
  - apply Z.leb_le in H. now rewrite H.
  - assert (L : (0 <=? e) = false) by (apply Z.leb_gt; lia). rewrite L.
    assert (P : 0 < 2 ^ (- e)) by (apply Z.pow_pos_nonneg; lia).
    replace (1 - e) with (Z.succ (- e)) by lia.
    rewrite Z.pow_succ_r by lia.
    pose proof (Z.div_mod (20 * Zpos m + 2 ^ (- e)) (2 * 2 ^ (- e))
                  ltac:(lia)) as D.
    pose proof (Z.mod_pos_bound (20 * Zpos m + 2 ^ (- e)) (2 * 2 ^ (- e))
                  ltac:(lia)) as B.
    nia.
Qed.

(** *** The order of the values that are not NaN *)

Lemma SFcompare_key (x y : spec_float) :
  x <> S754_nan -> y <> S754_nan ->
  exists c,
    SFcompare x y = Some c
    /\ (c = Lt <-> lex_lt (order_key x) (order_key y))
    /\ (c = Gt <-> lex_lt (order_key y) (order_key x)).
Proof.
  intros Hx Hy.
  destruct x as [sx|sx| |sx mx ex]; try congruence;
    destruct y as [sy|sy| |sy my ey]; try congruence;
    cbn [SFcompare order_key];
    try (destruct sx); try (destruct sy);
    try (eexists; split; [reflexivity|]; unfold lex_lt;
         split; split; intros H; try discriminate H; try reflexivity; lia).
  - rewrite Pos.compare_cont_spec. cbn [Pos.switch_Eq].
    eexists. split; [reflexivity|]. unfold lex_lt.
    destruct (Z.compare_spec ex ey) as [E|E|E];
      destruct (Pos.compare_spec mx my) as [M|M|M];
      cbn [CompOpp]; split; split; intros H; try discriminate H;
      try reflexivity; lia.
  - rewrite Pos.compare_cont_spec. cbn [Pos.switch_Eq].
    eexists. split; [reflexivity|]. unfold lex_lt.
    destruct (Z.compare_spec ex ey) as [E|E|E];
      destruct (Pos.compare_spec mx my) as [M|M|M];
      cbn [CompOpp]; split; split; intros H; try discriminate H;
      try reflexivity; lia.
Qed.

Lemma lex_total (a b : Z * Z * Z) : lex_le a b <-> ~ lex_lt b a.
Proof.
  destruct a as [[a1 a2] a3], b as [[b1 b2] b3]. unfold lex_le, lex_lt. lia.
Qed.

Lemma lex_le_trans (a b c : Z * Z * Z) : lex_le a b -> lex_le b c -> lex_le a c.
Proof.
  destruct a as [[a1 a2] a3], b as [[b1 b2] b3], c as [[c1 c2] c3].
  unfold lex_le. lia.
Qed.

Lemma not_NaN_spec (x : float) : is_NaN x = false <-> Prim2SF x <> S754_nan.
Proof.
  rewrite <- is_NaN_spec. destruct (is_NaN x); split; congruence.
Qed.

Lemma leb_key (x y : float) :
  (x <=? y)%float = true <->
  is_NaN x = false /\ is_NaN y = false
  /\ lex_le (order_key (Prim2SF x)) (order_key (Prim2SF y)).
Proof.
  rewrite leb_spec, !not_NaN_spec, lex_total. unfold SFleb. split.
  - intros H.
    assert (Nx : Prim2SF x <> S754_nan).
    { intros E. rewrite E in H. discriminate H. }
    assert (Ny : Prim2SF y <> S754_nan).
    { intros E. rewrite E in H. destruct (Prim2SF x); discriminate H. }
    split; [exact Nx|]. split; [exact Ny|].
    destruct (SFcompare_key _ _ Nx Ny) as (c & E & _ & G).
    rewrite E in H. intros L. apply G in L. subst c. discriminate H.
  - intros (Nx & Ny & L).
    destruct (SFcompare_key _ _ Nx Ny) as (c & E & _ & G).
    rewrite E. destruct c; try reflexivity.
    exfalso. apply L, G. reflexivity.
Qed.

Lemma ltb_key (x y : float) :
  (x <? y)%float = true <->
  is_NaN x = false /\ is_NaN y = false
  /\ lex_lt (order_key (Prim2SF x)) (order_key (Prim2SF y)).
Proof.
  rewrite ltb_spec, !not_NaN_spec. unfold SFltb. split.
  - intros H.
    assert (Nx : Prim2SF x <> S754_nan).
    { intros E. rewrite E in H. discriminate H. }
    assert (Ny : Prim2SF y <> S754_nan).
    { intros E. rewrite E in H. destruct (Prim2SF x); discriminate H. }
    split; [exact Nx|]. split; [exact Ny|].
    destruct (SFcompare_key _ _ Nx Ny) as (c & E & G & _).
    rewrite E in H. apply G. destruct c; try discriminate H. reflexivity.
  - intros (Nx & Ny & L).
    destruct (SFcompare_key _ _ Nx Ny) as (c & E & G & _).
    rewrite E. apply G in L. subst c. reflexivity.
Qed.

Lemma leb_trans (x y z : float) :
  (x <=? y)%float = true -> (y <=? z)%float = true -> (x <=? z)%float = true.
Proof.
  rewrite !leb_key. intros (Nx & _ & A) (_ & Nz & B).
  split; [exact Nx|]. split; [exact Nz|]. exact (lex_le_trans _ _ _ A B).
Qed.

Lemma not_ltb_leb (x y : float) :
  is_NaN x = false -> is_NaN y = false ->
  (x <? y)%float = false -> (y <=? x)%float = true.
Proof.
  intros Nx Ny H. apply leb_key. split; [exact Ny|]. split; [exact Nx|].
  apply lex_total. intros L.
  assert (T : (x <? y)%float = true) by (apply ltb_key; auto).
  congruence.
Qed.

(** ** The stable sort under a comparator [(a, b) => key(b) - key(a)] *)

Section SortFacts.

Variable A : Type.
Variable key : A -> float.

Lemma sort_insert_perm (x : A) (l : list A) :
  Permutation (sort_insert (key_desc key) x l) (x :: l).
Proof.
  induction l as [|y l IH]; simpl.
  - apply Permutation_refl.
  - destruct (sorts_after (key_desc key) x y).
    + apply Permutation_trans with (y :: x :: l).
      * now apply perm_skip.
      * apply perm_swap.
    + apply Permutation_refl.
Qed.

Lemma Array_sort_perm (l : list A) :
  Permutation (Array_sort (key_desc key) l) l.
Proof.
  induction l as [|x l IH]; simpl.
  - apply perm_nil.
  - apply Permutation_trans with (x :: Array_sort (key_desc key) l).
    + apply sort_insert_perm.
    + now apply perm_skip.
Qed.

Lemma not_sorts_after_not_below (x y : A) :
  sorts_after (key_desc key) x y = false -> not_below key x y.
Proof.
  unfold sorts_after, key_desc, not_below. intros H.
  destruct (key x <? key y)%float eqn:E; [| reflexivity].
  apply sub_pos_of_lt in E. congruence.
Qed.

Lemma sorts_after_not_below (x y : A) :
  sorts_after (key_desc key) x y = true -> not_below key y x.
Proof.
  unfold sorts_after, key_desc, not_below. intros H.
  destruct (key y <? key x)%float eqn:E; [| reflexivity].
  apply sub_pos_of_lt in E. apply sub_pos_antisym in E. congruence.
Qed.

Lemma sort_insert_HdRel (y x : A) (l : list A) :
  not_below key y x -> HdRel (not_below key) y l ->
  HdRel (not_below key) y (sort_insert (key_desc key) x l).
Proof.
  intros Hyx Hl. destruct l as [|z l]; simpl.
  - now constructor.
  - destruct (sorts_after (key_desc key) x z).
    + constructor. now inversion Hl.
    + now constructor.
Qed.

Lemma sort_insert_sorted (x : A) (l : list A) :
  Sorted (not_below key) l ->
  Sorted (not_below key) (sort_insert (key_desc key) x l).
Proof.
  induction l as [|y l IH]; intros Hs; simpl.
  - repeat constructor.
  - inversion Hs as [|y' l' Hsl Hhd]; subst.
    destruct (sorts_after (key_desc key) x y) eqn:E.
    + constructor; [now apply IH|].
      apply sort_insert_HdRel; [| assumption].
      now apply sorts_after_not_below.
    + constructor; [assumption|].
      constructor. now apply not_sorts_after_not_below.
Qed.

Lemma Array_sort_sorted (l : list A) :
  Sorted (not_below key) (Array_sort (key_desc key) l).
Proof.
  induction l as [|x l IH]; simpl.
  - constructor.
  - now apply sort_insert_sorted.
Qed.

Lemma sort_insert_ties (v : float) (x : A) (l : list A) :
  filter (has_key key v) (sort_insert (key_desc key) x l)
  = filter (has_key key v) (x :: l).
Proof.
  induction l as [|y l IH]; [reflexivity|].
  simpl sort_insert. destruct (sorts_after (key_desc key) x y) eqn:E; [| reflexivity].
  simpl filter in *. rewrite IH.
  destruct (has_key key v x) eqn:Hx, (has_key key v y) eqn:Hy; try reflexivity.
  exfalso. unfold has_key in Hx, Hy.
  pose proof (eqb_join _ _ _ Hy Hx) as Hyx.
  apply sub_pos_not_eq in Hyx.
  unfold sorts_after, key_desc in E. congruence.
Qed.

Lemma Array_sort_ties (v : float) (l : list A) :
  filter (has_key key v) (Array_sort (key_desc key) l)
  = filter (has_key key v) l.
Proof.
  induction l as [|x l IH]; [reflexivity|].
  simpl Array_sort. rewrite sort_insert_ties. simpl. now rewrite IH.
Qed.

End SortFacts.

(** With no key that is NaN the result is in descending order throughout. *)
Lemma Sorted_strengthen (A : Type) (P R : A -> A -> Prop) (Q : A -> Prop)
    (l : list A) :
  (forall a b, Q a -> Q b -> P a b -> R a b) ->
  Forall Q l -> Sorted P l -> Sorted R l.
Proof.
  intros PR F S. induction S as [|a l S IH H]; constructor.
  - apply IH. inversion F; assumption.
  - inversion F as [|a' l' Qa Ql]; subst.
    destruct H as [|b l H]; constructor.
    apply PR; [exact Qa | | exact H]. inversion Ql; assumption.
Qed.

Lemma at_most_trans (A : Type) (key : A -> float) :
  RelationClasses.Transitive (at_most key).
Proof.
  intros a b c H G. unfold at_most in *. exact (leb_trans _ _ _ G H).
Qed.

Lemma Array_sort_descending (A : Type) (key : A -> float) (l : list A) :
  (forall a, In a l -> is_NaN (key a) = false) ->
  StronglySorted (at_most key) (Array_sort (key_desc key) l).
Proof.
  intros N. apply Sorted_StronglySorted; [apply at_most_trans|].
  apply (Sorted_strengthen A (not_below key) (at_most key)
           (fun a => is_NaN (key a) = false)).
  - intros a b Na Nb H. apply not_ltb_leb; assumption.
  - apply Forall_forall. intros a I. apply N.
    apply (Permutation_in _ (Array_sort_perm A key l)). exact I.
  - apply Array_sort_sorted.
Qed.


(** ** Keys, sets of labels and datasets *)

Lemma jsstring_eqb_eq (a b : jsstring) : jsstring_eqb a b = true <-> a = b.
Proof.
  unfold jsstring_eqb. destruct (list_eq_dec N.eq_dec a b); split; congruence.
Qed.

Lemma jsstring_eqb_refl (a : jsstring) : jsstring_eqb a a = true.
Proof. now apply jsstring_eqb_eq. Qed.

Lemma jsstring_eqb_neq (a b : jsstring) : jsstring_eqb a b = false <-> a <> b.
Proof.
  unfold jsstring_eqb. destruct (list_eq_dec N.eq_dec a b); split; congruence.
Qed.

Lemma jsstring_eqb_sym (a b : jsstring) : jsstring_eqb a b = jsstring_eqb b a.
Proof.
  unfold jsstring_eqb.
  destruct (list_eq_dec N.eq_dec a b), (list_eq_dec N.eq_dec b a); congruence.
Qed.

Lemma member_In (k : jsstring) (l : list jsstring) :
  existsb (jsstring_eqb k) l = true <-> In k l.
Proof.
  rewrite existsb_exists. split.
  - intros (x & Hx & E). apply jsstring_eqb_eq in E. now subst.
  - intros H. exists k. split; [assumption | apply jsstring_eqb_refl].
Qed.

Lemma not_member_In (k : jsstring) (l : list jsstring) :
  existsb (jsstring_eqb k) l = false <-> ~ In k l.
Proof.
  rewrite <- member_In. destruct (existsb (jsstring_eqb k) l); split; congruence.
Qed.

Lemma fold_Set_add (l : list jsstring) :
  forall acc, NoDup l -> fold_left Set_add l acc = acc ++ unique_to acc l.
Proof.
  induction l as [|x l IH]; intros acc Hl; simpl.
  - now rewrite app_nil_r.
  - inversion Hl as [|x' l' Hx Hl']; subst.
    unfold Set_add at 2. destruct (existsb (jsstring_eqb x) acc) eqn:E; simpl.
    + now apply IH.
    + rewrite IH by assumption. rewrite <- app_assoc. simpl. do 2 f_equal.
      apply filter_ext_in. intros k Hk. f_equal.
      rewrite existsb_app. simpl. rewrite orb_false_r.
      destruct (jsstring_eqb k x) eqn:Ek; [| now rewrite orb_false_r].
      apply jsstring_eqb_eq in Ek. now subst.
Qed.

Lemma Set_from_app (a b : list jsstring) :
  NoDup a -> NoDup b -> Set_from (a ++ b) = a ++ unique_to a b.
Proof.
  intros Ha Hb. unfold Set_from. rewrite fold_left_app.
  rewrite (fold_Set_add a [] Ha). simpl.
  replace (unique_to [] a) with a.
  - now apply fold_Set_add.
  - unfold unique_to. simpl. induction a as [|x a IH]; simpl; [reflexivity|].
    inversion Ha; subst. f_equal. now apply IH.
Qed.

Lemma unique_to_In (a b : list jsstring) (k : jsstring) :
  In k (unique_to a b) <-> In k b /\ ~ In k a.
Proof.
  unfold unique_to. rewrite filter_In, negb_true_iff, not_member_In. tauto.
Qed.

Lemma union_NoDup (a b : list jsstring) :
  NoDup a -> NoDup b -> NoDup (a ++ unique_to a b).
Proof.
  intros Ha Hb. apply NoDup_app; [assumption | now apply NoDup_filter |].
  intros k Hk Hk'. apply unique_to_In in Hk'. tauto.
Qed.

Lemma insert_index_perm (k : jsstring) (i : Z) (l : list (jsstring * Z)) :
  Permutation (insert_index k i l) ((k, i) :: l).
Proof.
  induction l as [|[k' i'] l IH]; simpl.
  - apply Permutation_refl.
  - destruct (i <? i').
    + apply Permutation_refl.
    + apply Permutation_trans with ((k', i') :: (k, i) :: l).
      * now apply perm_skip.
      * apply perm_swap.
Qed.

Lemma index_keys_perm (ks : list jsstring) :
  Permutation (map fst (index_keys ks)) (filter is_array_index ks).
Proof.
  induction ks as [|k ks IH]; simpl.
  - apply perm_nil.
  - unfold is_array_index. destruct (array_index k) as [i|]; [| assumption].
    apply Permutation_trans with (map fst ((k, i) :: index_keys ks)).
    + apply Permutation_map, insert_index_perm.
    + simpl. now apply perm_skip.
Qed.

Lemma filter_split_perm (f : jsstring -> bool) (l : list jsstring) :
  Permutation (filter f l ++ filter (fun k => negb (f k)) l) l.
Proof.
  induction l as [|x l IH]; simpl.
  - apply perm_nil.
  - destruct (f x); simpl.
    + now apply perm_skip.
    + apply Permutation_sym, Permutation_cons_app. now apply Permutation_sym.
Qed.

Lemma Object_keys_perm (o : dataset) : Permutation (Object_keys o) (map fst o).
Proof.
  unfold Object_keys.
  apply Permutation_trans
    with (filter is_array_index (map fst o)
          ++ filter (fun k => negb (is_array_index k)) (map fst o)).
  - apply Permutation_app_tail, index_keys_perm.
  - apply filter_split_perm.
Qed.

Lemma Object_keys_In (o : dataset) (k : jsstring) :
  In k (Object_keys o) <-> In k (map fst o).
Proof.
  split; apply Permutation_in;
    [| apply Permutation_sym]; apply Object_keys_perm.
Qed.

Lemma Object_keys_NoDup (o : dataset) :
  NoDup (map fst o) -> NoDup (Object_keys o).
Proof.
  apply Permutation_NoDup, Permutation_sym, Object_keys_perm.
Qed.

Lemma index_keys_none (ks : list jsstring) :
  (forall k, In k ks -> is_array_index k = false) -> index_keys ks = [].
Proof.
  induction ks as [|k ks IH]; intros H; simpl; [reflexivity|].
  assert (Hk : is_array_index k = false) by (apply H; now left).
  unfold is_array_index in Hk. destruct (array_index k); [discriminate|].
  apply IH. intros k' Hk'. apply H. now right.
Qed.

(** Without array indices among the keys, [Object.keys] is the creation
    order. *)
Lemma Object_keys_creation_order (o : dataset) :
  (forall k, In k (map fst o) -> is_array_index k = false) ->
  Object_keys o = map fst o.
Proof.
  intros H. unfold Object_keys. rewrite index_keys_none by assumption. simpl.
  induction (map fst o) as [|k ks IH]; simpl; [reflexivity|].
  rewrite (H k) by now left. simpl. f_equal.
  apply IH. intros k' Hk'. apply H. now right.
Qed.

Lemma fold_Set_add_In (l : list jsstring) :
  forall acc k, In k (fold_left Set_add l acc) <-> In k acc \/ In k l.
Proof.
  induction l as [|x l IH]; intros acc k; simpl.
  - tauto.
  - rewrite IH. unfold Set_add.
    destruct (existsb (jsstring_eqb x) acc) eqn:E.
    + apply member_In in E. split; [tauto|].
      intros [H | [-> | H]]; tauto.
    + rewrite in_app_iff. simpl. tauto.
Qed.

Lemma fold_Set_add_NoDup (l : list jsstring) :
  forall acc, NoDup acc -> NoDup (fold_left Set_add l acc).
Proof.
  induction l as [|x l IH]; intros acc H; simpl; [assumption|].
  apply IH. unfold Set_add.
  destruct (existsb (jsstring_eqb x) acc) eqn:E; [assumption|].
  apply not_member_In in E.
  apply NoDup_app; [assumption | repeat constructor; tauto |].
  intros k Hk [<- | []]. tauto.
Qed.

(** The labels compared are the union of the two key sets, each once. *)
Lemma conceptos_union (dataActual dataAnterior : dataset) :
  NoDup (conceptos dataActual dataAnterior) /\
  forall k, In k (conceptos dataActual dataAnterior) <->
            In k (map fst dataActual) \/ In k (map fst dataAnterior).
Proof.
  unfold conceptos, Set_from. split.
  - apply fold_Set_add_NoDup. constructor.
  - intros k. rewrite fold_Set_add_In, in_app_iff, !Object_keys_In. simpl. tauto.
Qed.

(** With distinct keys in each dataset, the labels come in the order of
    [Object.keys] of the current dataset, then the labels only the prior
    dataset has, in the order of its [Object.keys]. *)
Lemma conceptos_order (dataActual dataAnterior : dataset) :
  NoDup (map fst dataActual) -> NoDup (map fst dataAnterior) ->
  conceptos dataActual dataAnterior
  = Object_keys dataActual
    ++ unique_to (Object_keys dataActual) (Object_keys dataAnterior).
Proof.
  intros Ha Hb. unfold conceptos.
  apply Set_from_app; now apply Object_keys_NoDup.
Qed.

(** ** The comparison *)

Lemma comparar_perm (dataActual dataAnterior : dataset) :
  Permutation (comparar dataActual dataAnterior)
              (comparison_rows dataActual dataAnterior).
Proof. apply (Array_sort_perm _ variacionS). Qed.

Lemma comparar_In (dataActual dataAnterior : dataset) (row : ComparisonRow) :
  In row (comparar dataActual dataAnterior) <->
  exists k, In k (conceptos dataActual dataAnterior)
            /\ row = compare_concepto dataActual dataAnterior k.
Proof.
  split.
  - intros H. apply (Permutation_in _ (comparar_perm _ _)) in H.
    unfold comparison_rows in H. apply in_map_iff in H as (k & <- & Hk). eauto.
  - intros (k & Hk & ->).
    apply (Permutation_in _ (Permutation_sym (comparar_perm _ _))).
    unfold comparison_rows. now apply in_map.
Qed.

(** One row per label of the union of the two key sets. *)
Lemma comparar_length (dataActual dataAnterior : dataset) :
  length (comparar dataActual dataAnterior)
  = length (conceptos dataActual dataAnterior).
Proof.
  rewrite (Permutation_length (comparar_perm _ _)).
  unfold comparison_rows. apply length_map.
Qed.

(** A label that a dataset lacks, and that [Object.prototype] does not
    define, counts as amount zero. *)
Lemma missing_defaults_to_zero (o : dataset) (k : jsstring) :
  own_get o k = None ->
  existsb (jsstring_eqb k) Object_prototype_names = false ->
  or_zero (get o k) = JNumber zero.
Proof. intros H P. unfold get. rewrite H, P. reflexivity. Qed.

Lemma present_amount (o : dataset) (k : jsstring) (v : float) :
  own_get o k = Some v -> truthy (JNumber v) = true ->
  or_zero (get o k) = JNumber v.
Proof. intros H T. unfold get, or_zero. rewrite H, T. reflexivity. Qed.





(** C3, as the code has it.  When no row has a [variacionS] that is NaN,
    the rows are those of the labels before the sort, rearranged so that
    the [variacionS] of every row is at most that of each row before it,
    and rows with equal [variacionS] keep the order of the labels before
    the sort: the labels of the current dataset in the order of
    [Object.keys] (labels that are array indices first, ascending, then the
    others in creation order), followed by the labels only the prior
    dataset has, in the order of its [Object.keys].  When no label is an
    array index this is the creation order of the two datasets.  A
    [variacionS] that is NaN makes the comparator inconsistent, and the
    order is then the engine's own. *)
Theorem C3_sorted_stable :
  forall dataActual dataAnterior : dataset,
    NoDup (map fst dataActual) -> NoDup (map fst dataAnterior) ->
    no_NaN_variation (comparison_rows dataActual dataAnterior) ->
    descending (comparar dataActual dataAnterior)
    /\ Permutation (comparar dataActual dataAnterior)
                   (map (compare_concepto dataActual dataAnterior)
                        (labels_in_keys_order dataActual dataAnterior))
    /\ (forall v,
          ties v (comparar dataActual dataAnterior)
          = ties v (map (compare_concepto dataActual dataAnterior)
                        (labels_in_keys_order dataActual dataAnterior)))
    /\ ((forall k, In k (map fst dataActual ++ map fst dataAnterior) ->
                   is_array_index k = false) ->
        forall v,
          ties v (comparar dataActual dataAnterior)
          = ties v (map (compare_concepto dataActual dataAnterior)
                        (labels_in_creation_order dataActual dataAnterior))).
Proof.
  intros dataActual dataAnterior Ha Hb Hn.
  assert (T : forall v,
             ties v (comparar dataActual dataAnterior)
             = ties v (map (compare_concepto dataActual dataAnterior)
                           (labels_in_keys_order dataActual dataAnterior))).
  { intros v. unfold ties, comparar, comparison_rows.
    rewrite (Array_sort_ties _ variacionS).
    now rewrite (conceptos_order dataActual dataAnterior Ha Hb). }
  split.
  { apply Array_sort_descending. intros row I.
    unfold no_NaN_variation in Hn. rewrite forallb_forall in Hn.
    apply negb_true_iff. exact (Hn row I). }
  split.
  { unfold labels_in_keys_order.
    rewrite <- (conceptos_order dataActual dataAnterior Ha Hb).
    apply comparar_perm. }
  split; [exact T|].
  intros Hidx v. rewrite T. do 2 f_equal.
  unfold labels_in_keys_order, labels_in_creation_order.
  rewrite !Object_keys_creation_order;
    [reflexivity | intros k Hk; apply Hidx, in_or_app; tauto ..].
Qed.

Lemma C3_sorted_stable_witness :
  let dataActual :=
    [(js "Bienes", 2000000%float); (js "Personal", 9000000%float);
     (js "Obras", 2000000%float)] in
  let dataAnterior :=
    [(js "Personal", 1000000%float); (js "Deuda", 1000000%float)] in
  (NoDup (map fst dataActual) /\ NoDup (map fst dataAnterior)
   /\ no_NaN_variation (comparison_rows dataActual dataAnterior))
  /\ descending (comparar dataActual dataAnterior)
  /\ map concepto (ties 2 (comparar dataActual dataAnterior))
     = [js "Bienes"; js "Obras"]
  /\ map concepto (comparar dataActual dataAnterior)
     = [js "Personal"; js "Bienes"; js "Obras"; js "Deuda"]
  /\ map variacionS (comparar dataActual dataAnterior)
     = [8%float; 2%float; 2%float; (-1)%float].
Proof.
  intros dataActual dataAnterior.
  assert (Ha : NoDup (map fst dataActual)).
  { repeat constructor; vm_compute; intuition discriminate. }
  assert (Hb : NoDup (map fst dataAnterior)).
  { repeat constructor; vm_compute; intuition discriminate. }
  assert (Hn : no_NaN_variation (comparison_rows dataActual dataAnterior))
    by (vm_compute; reflexivity).
  split; [split; [|split]; assumption|].
  destruct (C3_sorted_stable dataActual dataAnterior Ha Hb Hn)
    as (Hs & _ & Ht & _).
  split; [exact Hs|].
  split; [rewrite Ht; reflexivity|].
  split; vm_compute; reflexivity.
Defined.

(** Creation order is not the order before the sort when a label is an
    array index: [Object.keys] lists ["7"] before ["B"] although ["B"] was
    created first, and the two rows tie. *)
Lemma C3_creation_order_counterexample :
  let dataActual := [(js "B", 2000000%float); (js "7", 2000000%float)] in
  let dataAnterior := [(js "B", 1000000%float); (js "7", 1000000%float)] in
  exists v,
    map concepto (ties v (comparar dataActual dataAnterior))
    <> map concepto
         (ties v (map (compare_concepto dataActual dataAnterior)
                      (labels_in_creation_order dataActual dataAnterior))).
Proof.
  intros dataActual dataAnterior. exists 1%float.
  vm_compute. discriminate.
Qed.

(** C4, at a label that [Object.prototype] defines.  The current dataset
    has the label ["constructor"], the prior one does not; the row is
    there, but its prior amount is not zero: the lookup finds the inherited
    function, and the scaled amount is [NaN].  The datasets are those of a
    portal whose page for 2024 has the row and whose page for 2023 has
    another. *)
Theorem C4_inherited_key_not_defaulted :
  let dataActual := [(js "constructor", 5000000%float)] in
  let dataAnterior := [(js "Personal", 1000000%float)] in
  let portal := fun url : jsstring =>
    if includes url (js "y=2024")
    then Returned (Some [sample_row "constructor" "5,000,000"])
    else Returned (Some [sample_row "Personal" "1,000,000"]) in
  scrapeMefData nfd_latin1 portal (js "https://portal/?y=2024")
  = Returned dataActual
  /\ scrapeMefData nfd_latin1 portal (js "https://portal/?y=2023")
     = Returned dataAnterior
  /\ own_get dataAnterior (js "constructor") = None
  /\ length (comparar dataActual dataAnterior) = 2%nat
  /\ exists row,
       In row (comparar dataActual dataAnterior)
       /\ concepto row = js "constructor"
       /\ is_NaN (montoAnterior row) = true
       /\ (montoAnterior row =? 0)%float = false
       /\ is_NaN (variacionS row) = true.
Proof.
  intros dataActual dataAnterior portal.
  split; [vm_compute; reflexivity|].
  split; [vm_compute; reflexivity|].
  split; [reflexivity|]. split; [reflexivity|].
  eexists. split; [vm_compute; left; reflexivity|].
  repeat split.
Qed.

(** ** The table parser *)

Lemma own_get_own_set (o : dataset) (k k' : jsstring) (v : float) :
  own_get (own_set o k' v) k
  = if jsstring_eqb k' k then Some v else own_get o k.
Proof.
  induction o as [|[k0 v0] o IH]; simpl.
  - reflexivity.
  - destruct (jsstring_eqb k0 k') eqn:E0; simpl.
    + apply jsstring_eqb_eq in E0. subst k0.
      now destruct (jsstring_eqb k' k).
    + destruct (jsstring_eqb k0 k) eqn:E1; [| exact IH].
      apply jsstring_eqb_eq in E1. subst k0.
      now rewrite jsstring_eqb_sym, E0.
Qed.

Lemma own_set_keys (o : dataset) (k : jsstring) (v : float) :
  map fst (own_set o k v)
  = if existsb (jsstring_eqb k) (map fst o) then map fst o
    else map fst o ++ [k].
Proof.
  induction o as [|[k0 v0] o IH]; simpl; [reflexivity|].
  destruct (jsstring_eqb k0 k) eqn:E0; simpl.
  - apply jsstring_eqb_eq in E0. subst. now rewrite jsstring_eqb_refl.
  - rewrite (jsstring_eqb_sym k k0), E0. simpl. rewrite IH.
    now destruct (existsb _ _).
Qed.

Lemma set_is_object (o : dataset) (k : jsstring) (v : float) :
  is_object o -> is_object (set o k v).
Proof.
  intros [Hn Hp]. unfold set.
  destruct (jsstring_eqb k str_proto) eqn:E; [now split|].
  apply jsstring_eqb_neq in E.
  unfold is_object. rewrite own_set_keys.
  destruct (existsb (jsstring_eqb k) (map fst o)) eqn:M; [now split|].
  apply not_member_In in M. split.
  - apply NoDup_app; [assumption | repeat constructor; tauto |].
    intros x Hx [<- | []]. tauto.
  - rewrite in_app_iff. simpl. intuition congruence.
Qed.

Lemma store_is_object (entries : list (jsstring * float)) :
  forall data, is_object data -> is_object (store entries data).
Proof.
  induction entries as [|e es IH]; intros data H; simpl; [assumption|].
  apply IH, set_is_object, H.
Qed.

(** The keys of the dataset are the labels stored, [__proto__] left out,
    each at the place of its first occurrence. *)
Lemma store_keys (entries : list (jsstring * float)) :
  forall data,
    map fst (store entries data)
    = fold_left Set_add
        (filter (fun k => negb (jsstring_eqb k str_proto)) (map fst entries))
        (map fst data).
Proof.
  induction entries as [|[k v] es IH]; intros data; [reflexivity|].
  cbn [store fold_left map fst snd filter]. fold (store es (set data k v)).
  rewrite IH. unfold set.
  destruct (jsstring_eqb k str_proto); cbn [negb]; [reflexivity|].
  cbn [fold_left]. now rewrite own_set_keys.
Qed.

Lemma store_snoc (entries : list (jsstring * float)) (e : jsstring * float)
    (data : dataset) :
  store (entries ++ [e]) data = set (store entries data) (fst e) (snd e).
Proof. unfold store. now rewrite fold_left_app. Qed.

Lemma last_amount_snoc (k : jsstring) (entries : list (jsstring * float))
    (e : jsstring * float) :
  last_amount k (entries ++ [e])
  = if jsstring_eqb (fst e) k then Some (snd e) else last_amount k entries.
Proof. unfold last_amount. now rewrite fold_left_app. Qed.

(** Except under [__proto__], a key holds the last amount stored under
    it. *)
Lemma store_last_amount (k : jsstring) (entries : list (jsstring * float))
    (data : dataset) :
  k <> str_proto ->
  own_get (store entries data) k
  = match last_amount k entries with
    | Some v => Some v
    | None => own_get data k
    end.
Proof.
  intros Hk. induction entries as [|[k' v'] es IH] using rev_ind.
  - reflexivity.
  - rewrite store_snoc, last_amount_snoc. cbn [fst snd]. unfold set.
    destruct (jsstring_eqb k' str_proto) eqn:P.
    + apply jsstring_eqb_eq in P. subst k'.
      apply jsstring_eqb_neq in Hk.
      now rewrite jsstring_eqb_sym, Hk.
    + rewrite own_get_own_set.
      destruct (jsstring_eqb k' k); [reflexivity | exact IH].
Qed.

Section ScraperFacts.

Variable normalize_NFD : jsstring -> jsstring.
Variable axios_get : jsstring -> outcome (option table).

Lemma each_row_skips (st : dataset * bool) (cols : list jsstring) :
  yields_amount cols = false -> each_row normalize_NFD st cols = st.
Proof.
  unfold yields_amount, each_row, candidate, row_amount. intros H.
  destruct (8 <=? length cols)%nat; [| reflexivity].
  simpl in H. now rewrite H.
Qed.

Lemma each_row_stores (st : dataset * bool) (cols : list jsstring) :
  yields_amount cols = true ->
  each_row normalize_NFD st cols
  = (set (fst st) (removeAccents normalize_NFD (row_label cols)) (row_amount cols),
     true).
Proof.
  unfold yields_amount, each_row, candidate, row_amount, row_label. intros H.
  apply andb_prop in H as [H1 H2]. now rewrite H1, H2.
Qed.

Lemma each_row_fold (rows : table) :
  forall data hasData,
    fold_left (each_row normalize_NFD) rows (data, hasData)
    = (store (entries normalize_NFD rows) data, hasData || existsb yields_amount rows).
Proof.
  unfold entries.
  induction rows as [|cols rows IH]; intros data hasData; simpl.
  - now rewrite orb_false_r.
  - destruct (yields_amount cols) eqn:Y.
    + rewrite each_row_stores by assumption. simpl. rewrite IH.
      now rewrite orb_true_r.
    + rewrite each_row_skips by assumption. rewrite IH. reflexivity.
Qed.

Lemma scrape_catch_Error (msg : jsstring) :
  scrape_catch (Error msg) = Error msg.
Proof. reflexivity. Qed.

(** What [scrapeMefData] does with a page that has a data table. *)
Lemma scrape_table (url : jsstring) (rows : table) :
  axios_get url = Returned (Some rows) ->
  scrapeMefData normalize_NFD axios_get url
  = if existsb yields_amount rows
    then Returned (store (entries normalize_NFD rows) [])
    else Thrown (Error msg_no_numeric).
Proof.
  intros H. unfold scrapeMefData, scrape_try. rewrite H, each_row_fold. simpl.
  now destruct (existsb yields_amount rows).
Qed.

(** The dataset a page yields is an object. *)
Lemma scrape_is_object (url : jsstring) (data : dataset) :
  scrapeMefData normalize_NFD axios_get url = Returned data -> is_object data.
Proof.
  unfold scrapeMefData, scrape_try.
  destruct (axios_get url) as [[rows|]|e]; try discriminate.
  rewrite each_row_fold. simpl.
  destruct (existsb yields_amount rows); [| discriminate].
  intros H. injection H as <-. apply store_is_object.
  split; [constructor | intros []].
Qed.

Lemma no_row_yields (rows : table) :
  existsb yields_amount rows = false
  <-> forall cols, In cols rows -> yields_amount cols = false.
Proof.
  split.
  - intros E cols Hc. destruct (yields_amount cols) eqn:Y; [| reflexivity].
    assert (X : existsb yields_amount rows = true)
      by (apply existsb_exists; eauto).
    congruence.
  - intros A. destruct (existsb yields_amount rows) eqn:E; [| reflexivity].
    apply existsb_exists in E as (cols & Hc & Y). rewrite (A cols Hc) in Y.
    discriminate.
Qed.

Lemma scrape_no_numeric (url : jsstring) (rows : table) :
  axios_get url = Returned (Some rows) ->
  (forall cols, In cols rows -> yields_amount cols = false) ->
  scrapeMefData normalize_NFD axios_get url = Thrown (Error msg_no_numeric).
Proof.
  intros H A. rewrite (scrape_table url rows H).
  apply no_row_yields in A. now rewrite A.
Qed.

(** *** Trimming and removing commas *)

Lemma trimStart_white (w s : jsstring) :
  white_space w -> trimStart (w ++ s) = trimStart s.
Proof.
  unfold white_space. induction w as [|c w IH]; intros H; [reflexivity|].
  cbn [forallb] in H. apply andb_true_iff in H. destruct H as [C H].
  cbn [app trimStart]. rewrite C. exact (IH H).
Qed.

Lemma trimStart_app (s t : jsstring) :
  trimStart s <> [] -> trimStart (s ++ t) = trimStart s ++ t.
Proof.
  induction s as [|c s IH]; intros H; [contradiction|].
  cbn [app trimStart] in *. destruct (is_white_space c).
  - exact (IH H).
  - reflexivity.
Qed.

Lemma trimStart_nil (s : jsstring) : trimStart s = [] -> white_space s.
Proof.
  unfold white_space. induction s as [|c s IH]; intros H; [reflexivity|].
  cbn [trimStart forallb] in *. destruct (is_white_space c); [|discriminate H].
  exact (IH H).
Qed.

Lemma white_space_rev (w : jsstring) : white_space w -> white_space (rev w).
Proof.
  unfold white_space. rewrite !forallb_forall. intros H c I.
  apply H. apply in_rev. exact I.
Qed.

Lemma trim_padded (w1 s w2 : jsstring) :
  white_space w1 -> white_space w2 -> trim (w1 ++ s ++ w2) = trim s.
Proof.
  intros W1 W2. unfold trim. rewrite (trimStart_white w1 _ W1).
  destruct (trimStart s) as [|c x] eqn:E.
  - rewrite (trimStart_white s w2 (trimStart_nil s E)).
    pose proof (trimStart_white w2 [] W2) as T. rewrite app_nil_r in T.
    rewrite T. reflexivity.
  - rewrite trimStart_app by (rewrite E; discriminate). rewrite E.
    rewrite rev_app_distr. rewrite (trimStart_white _ _ (white_space_rev _ W2)).
    reflexivity.
Qed.

Lemma trimStart_split (s : jsstring) :
  exists w, s = w ++ trimStart s /\ white_space w
            /\ no_space_ahead (trimStart s).
Proof.
  unfold white_space. induction s as [|c s IH].
  - exists []. repeat split.
  - cbn [trimStart]. destruct (is_white_space c) eqn:C.
    + destruct IH as (w & E & W & N). exists (c :: w). split; [|split].
      * cbn [app]. rewrite <- E. reflexivity.
      * cbn [forallb]. rewrite C, W. reflexivity.
      * exact N.
    + exists []. split; [reflexivity|]. split; [reflexivity|]. exact C.
Qed.

Lemma trimStart_fixed (t : jsstring) : no_space_ahead t -> trimStart t = t.
Proof.
  destruct t as [|c t]; [reflexivity|]. cbn [no_space_ahead trimStart].
  intros ->. reflexivity.
Qed.

Lemma trim_fixed (t : jsstring) :
  no_space_ahead t -> no_space_ahead (rev t) -> trim t = t.
Proof.
  intros A B. unfold trim. rewrite (trimStart_fixed t A).
  rewrite (trimStart_fixed _ B). apply rev_involutive.
Qed.

Lemma trim_trimmed (s : jsstring) : trimmed s (trim s).
Proof.
  unfold trimmed, trim.
  destruct (trimStart_split s) as (w1 & E1 & W1 & N1).
  destruct (trimStart_split (rev (trimStart s))) as (w2 & E2 & W2 & N2).
  set (u := trimStart s) in *. set (x := trimStart (rev u)) in *.
  assert (U : u = rev x ++ rev w2).
  { rewrite <- rev_app_distr, <- E2. symmetry. apply rev_involutive. }
  exists w1, (rev w2). split; [|split; [|split; [|split]]].
  - rewrite <- U. exact E1.
  - exact W1.
  - apply white_space_rev. exact W2.
  - destruct (rev x) as [|c r] eqn:R; [exact I|].
    rewrite U in N1. exact N1.
  - rewrite rev_involutive. exact N2.
Qed.

Lemma trimmed_trim (s t : jsstring) : trimmed s t -> t = trim s.
Proof.
  intros (w1 & w2 & -> & W1 & W2 & A & B).
  rewrite (trim_padded w1 t w2 W1 W2). symmetry. apply trim_fixed; assumption.
Qed.

Lemma remove_commas_without (s : jsstring) :
  without_commas s (remove_commas s).
Proof.
  unfold remove_commas. induction s as [|c s IH]; cbn [filter].
  - constructor.
  - destruct (c =? 44)%N eqn:E; cbn [negb].
    + apply N.eqb_eq in E. subst c. constructor. exact IH.
    + apply N.eqb_neq in E. constructor; assumption.
Qed.

Lemma without_commas_remove (s t : jsstring) :
  without_commas s t -> t = remove_commas s.
Proof.
  unfold remove_commas. induction 1 as [|s t H IH|c s t C H IH]; cbn [filter].
  - reflexivity.
  - exact IH.
  - apply N.eqb_neq in C. rewrite C. cbn [negb]. rewrite <- IH. reflexivity.
Qed.

Lemma each_row_reads (st : dataset * bool) (cols : list jsstring)
    (label text amount : jsstring) :
  candidate cols = true ->
  trimmed (nth 1 cols []) label -> trimmed (nth 7 cols []) text ->
  without_commas text amount ->
  each_row normalize_NFD st cols
  = if is_NaN (parseFloat amount) then st
    else (set (fst st) (removeAccents normalize_NFD label) (parseFloat amount),
          true).
Proof.
  intros C L T A. apply trimmed_trim in L. apply trimmed_trim in T.
  apply without_commas_remove in A. subst label text amount.
  unfold each_row. unfold candidate in C. rewrite C.
  destruct (is_NaN (parseFloat (remove_commas (trim (nth 7 cols [])))));
    reflexivity.
Qed.

Lemma yields_amount_reads (cols : list jsstring) :
  yields_amount cols = true <->
  (8 <= length cols)%nat
  /\ exists text amount,
       trimmed (nth 7 cols []) text /\ without_commas text amount
       /\ is_NaN (parseFloat amount) = false.
Proof.
  unfold yields_amount, candidate, row_amount.
  rewrite andb_true_iff, negb_true_iff, Nat.leb_le. split.
  - intros [C N]. split; [exact C|].
    exists (trim (nth 7 cols [])), (remove_commas (trim (nth 7 cols []))).
    split; [apply trim_trimmed|]. split; [apply remove_commas_without|].
    exact N.
  - intros [C (text & amount & T & A & N)]. split; [exact C|].
    apply trimmed_trim in T. apply without_commas_remove in A.
    subst text amount. exact N.
Qed.

(** C6.  On a page with a data table: a row counts when it has at least
    eight cells; its label is the text of cell 1 without the white space at
    its ends, and its amount is what [parseFloat] reads in the text of cell
    7 without the white space at its ends and without its commas; a row
    that is no candidate or whose amount does not parse changes nothing and
    raises nothing; and the parser throws the no-numeric-data error exactly
    when no row yields an amount, as when no row has eight cells. *)
Theorem C6_table_parser :
  forall (url : jsstring) (rows : table),
    axios_get url = Returned (Some rows) ->
    (forall cols, candidate cols = true <-> (8 <= length cols)%nat)
    /\ (forall s,
          (exists t, trimmed s t /\ forall t', trimmed s t' -> t' = t)
          /\ (exists t, without_commas s t
                        /\ forall t', without_commas s t' -> t' = t))
    /\ (forall st cols label text amount,
          (8 <= length cols)%nat ->
          trimmed (nth 1 cols []) label ->
          trimmed (nth 7 cols []) text ->
          without_commas text amount ->
          (is_NaN (parseFloat amount) = false ->
           each_row normalize_NFD st cols
           = (set (fst st) (removeAccents normalize_NFD label)
                  (parseFloat amount),
              true))
          /\ (is_NaN (parseFloat amount) = true ->
              each_row normalize_NFD st cols = st))
    /\ (forall st cols,
          (length cols < 8)%nat -> each_row normalize_NFD st cols = st)
    /\ (forall cols,
          yields_amount cols = true <->
          (8 <= length cols)%nat
          /\ exists text amount,
               trimmed (nth 7 cols []) text /\ without_commas text amount
               /\ is_NaN (parseFloat amount) = false)
    /\ (scrapeMefData normalize_NFD axios_get url = Thrown (Error msg_no_numeric)
        <-> forall cols, In cols rows -> yields_amount cols = false)
    /\ ((exists cols, In cols rows /\ yields_amount cols = true) ->
        scrapeMefData normalize_NFD axios_get url
        = Returned (store (entries normalize_NFD rows) []))
    /\ ((forall cols, In cols rows -> (length cols < 8)%nat) ->
        scrapeMefData normalize_NFD axios_get url
        = Thrown (Error msg_no_numeric)).
Proof.
  intros url rows H.
  pose proof (scrape_table url rows H) as S.
  pose proof (no_row_yields rows) as N.
  split; [intros cols; unfold candidate; apply Nat.leb_le|].
  split.
  { intros s. split.
    - exists (trim s). split; [apply trim_trimmed|].
      intros t' T. apply trimmed_trim. exact T.
    - exists (remove_commas s). split; [apply remove_commas_without|].
      intros t' T. apply without_commas_remove. exact T. }
  split.
  { intros st cols label text amount C L T A.
    assert (C' : candidate cols = true) by (apply Nat.leb_le; exact C).
    rewrite (each_row_reads st cols label text amount C' L T A).
    split; intros ->; reflexivity. }
  split.
  { intros st cols C. apply each_row_skips.
    unfold yields_amount, candidate. apply Nat.leb_gt in C. now rewrite C. }
  split; [exact yields_amount_reads|].
  split; [| split].
  - rewrite <- N, S. destruct (existsb yields_amount rows); split;
      congruence.
  - intros (cols & Hc & Y). rewrite S.
    replace (existsb yields_amount rows) with true; [reflexivity|].
    symmetry. apply existsb_exists. eauto.
  - intros A. apply (scrape_no_numeric url rows H).
    intros cols Hc. unfold yields_amount, candidate.
    specialize (A cols Hc). apply Nat.leb_gt in A. now rewrite A.
Qed.

(** C9.  The [catch] block rethrows an error as it is unless the error
    carries [response] or [request]; an error made by [new Error] carries
    neither, so the two errors [scrapeMefData] throws itself reach the
    caller with their message. *)
Theorem C9_own_errors_unchanged :
  forall url : jsstring,
    (forall e, scrape_catch e <> e ->
               response e <> None \/ request e = true)
    /\ (forall msg, response (Error msg) = None /\ request (Error msg) = false)
    /\ (forall msg, scrape_catch (Error msg) = Error msg)
    /\ (axios_get url = Returned None ->
        scrapeMefData normalize_NFD axios_get url = Thrown (Error msg_no_table))
    /\ (forall rows,
          axios_get url = Returned (Some rows) ->
          (forall cols, In cols rows -> yields_amount cols = false) ->
          scrapeMefData normalize_NFD axios_get url
          = Thrown (Error msg_no_numeric)).
Proof.
  intros url. split; [| split; [| split; [| split]]].
  - intros e H. unfold scrape_catch in H.
    destruct (response e); [left; discriminate|].
    destruct (request e); [now right | simpl in H; congruence].
  - intros msg. now split.
  - exact scrape_catch_Error.
  - intros H. unfold scrapeMefData, scrape_try. now rewrite H.
  - exact (scrape_no_numeric url).
Qed.

End ScraperFacts.

Lemma C6_table_parser_witness :
  let url := js "https://portal/?y=2024" in
  let rows := [ sample_row " Educación " " 7,500,000.75 ";
                [js "Total"];
                sample_row "Salud" "n.d.";
                sample_row "Educacion" "8,000,000 (p)" ] in
  sample_portal url = Returned (Some rows)
  /\ each_row nfd_latin1 ([], false) (sample_row " Educación " " 7,500,000.75 ")
     = ([(js "Educacion", 7500000.75%float)], true)
  /\ each_row nfd_latin1 ([], false) (sample_row "Salud" "n.d.") = ([], false)
  /\ scrapeMefData nfd_latin1 sample_portal url
     = Returned [(js "Educacion", 8000000%float)]
  /\ (scrapeMefData nfd_latin1 sample_portal url = Thrown (Error msg_no_numeric)
      <-> forall cols, In cols rows -> yields_amount cols = false).
Proof.
  intros url rows.
  assert (H : sample_portal url = Returned (Some rows)) by reflexivity.
  split; [exact H|].
  destruct (C6_table_parser nfd_latin1 sample_portal url rows H)
    as (_ & _ & Hrow & _ & _ & Hnone & Hsome & _).
  split.
  { assert (L : trimmed (nth 1 (sample_row " Educación " " 7,500,000.75 ") [])
                        (js "Educación")).
    { exists (js " "), (js " ").
      split; [vm_compute; reflexivity|]. repeat split. }
    assert (T : trimmed (nth 7 (sample_row " Educación " " 7,500,000.75 ") [])
                        (js "7,500,000.75")).
    { exists (js " "), (js " ").
      split; [vm_compute; reflexivity|]. repeat split. }
    assert (A : without_commas (js "7,500,000.75") (js "7500000.75")).
    { vm_compute. repeat (first [ apply Commas_nil | apply Commas_drop
                                | apply Commas_keep; [discriminate|] ]). }
    destruct (Hrow ([], false) (sample_row " Educación " " 7,500,000.75 ")
                _ _ _ (le_n 8) L T A) as [R _].
    rewrite R by (vm_compute; reflexivity). vm_compute. reflexivity. }
  split.
  { assert (L : trimmed (nth 1 (sample_row "Salud" "n.d.") []) (js "Salud")).
    { exists [], []. split; [vm_compute; reflexivity|]. repeat split. }
    assert (T : trimmed (nth 7 (sample_row "Salud" "n.d.") []) (js "n.d.")).
    { exists [], []. split; [vm_compute; reflexivity|]. repeat split. }
    assert (A : without_commas (js "n.d.") (js "n.d.")).
    { vm_compute. repeat (first [ apply Commas_nil | apply Commas_drop
                                | apply Commas_keep; [discriminate|] ]). }
    destruct (Hrow ([], false) (sample_row "Salud" "n.d.")
                _ _ _ (le_n 8) L T A) as [_ R].
    apply R. vm_compute. reflexivity. }
  split; [| exact Hnone].
  rewrite Hsome.
  - vm_compute. reflexivity.
  - exists (sample_row "Educacion" "8,000,000 (p)").
    split; [simpl; tauto | reflexivity].
Defined.

(** Where labels collapse: two rows whose labels normalise to the same
    text other than [__proto__] leave one key, holding the later amount. *)
Lemma equal_labels_collapse
    (normalize_NFD : jsstring -> jsstring) (rows : table) (k : jsstring) :
  k <> str_proto ->
  is_object (store (entries normalize_NFD rows) [])
  /\ own_get (store (entries normalize_NFD rows) []) k
     = last_amount k (entries normalize_NFD rows).
Proof.
  intros Hk. split.
  - apply store_is_object. split; [constructor | intros []].
  - rewrite store_last_amount by assumption.
    now destruct (last_amount k (entries normalize_NFD rows)).
Qed.

(** C8, at the label [__proto__].  Two rows carry the same label and both
    amounts parse, yet the dataset holds no key for them: the assignment
    [data["__proto__"] = monto] reaches the setter of [Object.prototype] and
    creates no property, while [hasData] is set. *)
Theorem C8_proto_label_dropped :
  let rows := [ sample_row "__proto__" "1,000,000";
                sample_row "__proto__" "2,000,000" ] in
  let portal := fun _ : jsstring => Returned (Some rows) in
  map fst (entries nfd_latin1 rows) = [js "__proto__"; js "__proto__"]
  /\ last_amount (js "__proto__") (entries nfd_latin1 rows) = Some 2000000%float
  /\ scrapeMefData nfd_latin1 portal (js "https://portal/?y=2024") = Returned []
  /\ own_get [] (js "__proto__") = None.
Proof.
  intros rows portal. repeat split.
Qed.

(** ** [parseFloat] and numeric prefixes *)

Arguments is_digit : simpl never.
Arguments is_sign : simpl never.
Arguments is_exponent_char : simpl never.
Arguments is_white_space : simpl never.

Lemma span_digits_spec (s : jsstring) :
  s = fst (span_digits s) ++ snd (span_digits s)
  /\ all_digits (fst (span_digits s))
  /\ no_digit_ahead (snd (span_digits s)).
Proof.
  unfold all_digits. induction s as [|c s IH]; simpl.
  - repeat split.
  - destruct (is_digit c) eqn:D.
    + destruct (span_digits s) as [ds tl]. simpl in *.
      destruct IH as (E & A & Hn).
      split; [congruence|]. split; [| exact Hn].
      apply andb_true_intro. now split.
    + simpl. repeat split. exact D.
Qed.

Lemma span_digits_app (ds tl : jsstring) :
  all_digits ds -> no_digit_ahead tl -> span_digits (ds ++ tl) = (ds, tl).
Proof.
  unfold all_digits. intros A N. induction ds as [|d ds IH]; simpl.
  - destruct tl as [|c tl]; [reflexivity|]. simpl in *. now rewrite N.
  - simpl in A. apply andb_prop in A as [D A]. rewrite D, (IH A). reflexivity.
Qed.

Lemma span_digits_head (d : N) (s : jsstring) :
  is_digit d = true -> fst (span_digits (d :: s)) <> [].
Proof.
  intros D. simpl. rewrite D. destruct (span_digits s). discriminate.
Qed.

Lemma digit_not_sign (c : N) : is_digit c = true -> is_sign c = false.
Proof.
  unfold is_digit, is_sign. intros H. apply andb_prop in H as [H1 H2].
  apply N.leb_le in H1. apply orb_false_intro; apply N.eqb_neq; lia.
Qed.

Lemma digit_not_minus (c : N) : is_digit c = true -> (c =? 45)%N = false.
Proof.
  intros H. apply digit_not_sign in H. unfold is_sign in H.
  now apply orb_false_elim in H.
Qed.

Lemma digit_not_space (c : N) : is_digit c = true -> is_white_space c = false.
Proof.
  unfold is_digit, is_white_space. intros H. apply andb_prop in H as [H1 H2].
  apply N.leb_le in H1. apply N.leb_le in H2.
  repeat (apply orb_false_intro);
    try (apply N.eqb_neq; lia);
    apply andb_false_iff; (left; apply N.leb_gt; lia) || (right; apply N.leb_gt; lia).
Qed.

Lemma digit_not_I (c : N) : is_digit c = true -> (73 =? c)%N = false.
Proof.
  unfold is_digit. intros H. apply andb_prop in H as [H1 H2].
  apply N.leb_le in H2. apply N.eqb_neq. lia.
Qed.

Lemma str_Infinity_head : str_Infinity = 73%N :: js "nfinity".
Proof. reflexivity. Qed.

Lemma starts_with_app (p s : jsstring) :
  starts_with p s = true -> exists rest, s = p ++ rest.
Proof.
  revert s. induction p as [|a p IH]; intros s H; simpl in *.
  - now exists s.
  - destruct s as [|b s]; [discriminate|].
    apply andb_prop in H as [E H]. apply N.eqb_eq in E. subst b.
    destruct (IH s H) as (rest & ->). now exists rest.
Qed.

Lemma starts_with_prefix (p rest : jsstring) : starts_with p (p ++ rest) = true.
Proof.
  induction p as [|a p IH]; simpl; [reflexivity|]. now rewrite N.eqb_refl.
Qed.

Lemma is_NaN_false (x : float) : Prim2SF x <> S754_nan -> is_NaN x = false.
Proof.
  intros H. destruct (is_NaN x) eqn:E; [| reflexivity].
  apply is_NaN_spec in E. contradiction.
Qed.

Lemma is_NaN_opp (x : float) : is_NaN (- x) = is_NaN x.
Proof.
  destruct (is_NaN x) eqn:E.
  - apply is_NaN_spec in E. apply is_NaN_spec. now rewrite opp_spec, E.
  - apply is_NaN_false. rewrite opp_spec.
    destruct (Prim2SF x) eqn:P; try discriminate.
    apply is_NaN_spec in P. congruence.
Qed.

Lemma float_of_decimal_not_NaN (m : positive) (e : Z) :
  is_NaN (float_of_decimal m e) = false.
Proof.
  unfold float_of_decimal, float_of_ratio.
  destruct (0 <=? e); apply is_NaN_false, SF2Prim_not_nan.
  - apply binary_normalize_not_nan.
  - apply SFdiv_finite_not_nan.
Qed.

(** [parse_unsigned] fails exactly when the text starts neither with
    [Infinity] nor with a digit or a point followed by a digit. *)
Lemma parse_unsigned_NaN (s : jsstring) :
  is_NaN (parse_unsigned s) = true
  <-> starts_with str_Infinity s = false /\ scan_unsigned s = None.
Proof.
  unfold parse_unsigned. split.
  - destruct (starts_with str_Infinity s); [discriminate|].
    destruct (scan_unsigned s) as [[[|m|m] e]|]; try discriminate; try tauto.
    now rewrite float_of_decimal_not_NaN.
  - intros [-> ->]. reflexivity.
Qed.

Lemma scan_unsigned_None (s : jsstring) :
  scan_unsigned s = None
  <-> fst (span_digits s) = []
      /\ fst (scan_fraction (snd (span_digits s))) = [].
Proof.
  unfold scan_unsigned.
  destruct (span_digits s) as [ds tl]. simpl.
  destruct (scan_fraction tl) as [fs tl']. simpl.
  destruct (ds ++ fs) eqn:E.
  - apply app_eq_nil in E. tauto.
  - split; [discriminate|]. intros [-> ->]. discriminate.
Qed.

Lemma exponent_char_props (c : N) :
  is_exponent_char c = true -> is_digit c = false /\ (c =? 46)%N = false.
Proof.
  unfold is_exponent_char. intros H.
  apply orb_prop in H as [H | H]; apply N.eqb_eq in H; subst; now split.
Qed.

(** An unsigned literal at the head of a text is read. *)
Lemma unsigned_literal_read (u rest : jsstring) :
  StrUnsignedDecimalLiteral u -> is_NaN (parse_unsigned (u ++ rest)) = false.
Proof.
  intros L. destruct (is_NaN (parse_unsigned (u ++ rest))) eqn:E; [| reflexivity].
  exfalso. apply parse_unsigned_NaN in E as [I S].
  apply scan_unsigned_None in S as [S1 S2].
  destruct L as [| ds ex Hne A X | ds fs ex Hne A F X].
  - now rewrite starts_with_prefix in I.
  - destruct ds as [|d ds]; [congruence|].
    unfold all_digits in A. simpl in A. apply andb_prop in A as [D _].
    simpl app in S1. now apply span_digits_head in S1.
  - destruct ds as [|d ds].
    + destruct fs as [|f fs]; [now simpl in Hne|].
      unfold all_digits in F. simpl in F. apply andb_prop in F as [D _].
      simpl app in S2. cbn [span_digits] in S2.
      change (is_digit 46) with false in S2. cbn [snd scan_fraction] in S2.
      rewrite N.eqb_refl in S2. now apply span_digits_head in S2.
    + unfold all_digits in A. simpl in A. apply andb_prop in A as [D _].
      simpl app in S1. now apply span_digits_head in S1.
Qed.

(** A text that is read starts with an unsigned literal. *)
Lemma unsigned_prefix (s : jsstring) :
  is_NaN (parse_unsigned s) = false ->
  exists u rest, s = u ++ rest /\ StrUnsignedDecimalLiteral u.
Proof.
  intros H.
  destruct (starts_with str_Infinity s) eqn:I.
  - apply starts_with_app in I as (rest & ->).
    exists str_Infinity, rest. split; [reflexivity | constructor].
  - destruct (scan_unsigned s) eqn:S.
    2:{ assert (N : is_NaN (parse_unsigned s) = true)
          by (apply parse_unsigned_NaN; now split).
        congruence. }
    assert (S' : scan_unsigned s <> None) by congruence.
    rewrite scan_unsigned_None in S'.
    destruct (span_digits_spec s) as (Es & As & _).
    destruct (span_digits s) as [ds tl]. simpl in *.
    destruct ds as [|d ds].
    + destruct tl as [|c tl]; [simpl in S'; tauto|].
      simpl in S'. destruct (c =? 46)%N eqn:C; [| simpl in S'; tauto].
      apply N.eqb_eq in C. subst c.
      destruct (span_digits_spec tl) as (Et & At & _).
      destruct (span_digits tl) as [fs tl']. simpl in *.
      exists (([] : jsstring) ++ 46%N :: fs ++ []), tl'. split.
      * simpl. rewrite app_nil_r. now rewrite Es, Et at 1.
      * apply Unsigned_fraction; try assumption; try reflexivity.
        -- simpl. intros X. apply S'. now split.
        -- now left.
    + exists ((d :: ds) ++ []), tl. split.
      * now rewrite app_nil_r.
      * apply Unsigned_integer; [discriminate | assumption | now left].
Qed.

Lemma ends_number_no_digit (tl : jsstring) : ends_number tl -> no_digit_ahead tl.
Proof. destruct tl; simpl; tauto. Qed.

Lemma exponent_then_end (ex tl : jsstring) :
  OptionalExponent ex -> ends_number tl ->
  no_digit_ahead (ex ++ tl)
  /\ scan_fraction (ex ++ tl) = ([], ex ++ tl)
  /\ scan_fraction ex = ([], ex).
Proof.
  intros [-> | X] T.
  - simpl. split; [now apply ends_number_no_digit|].
    split; [| reflexivity].
    destruct tl as [|c tl]; [reflexivity|].
    simpl in *. destruct T as (_ & -> & _). reflexivity.
  - destruct X as [c ds C _ _ | c sg ds C _ _ _];
      destruct (exponent_char_props c C) as [D P]; simpl; now rewrite P.
Qed.

Lemma signed_digits_end (ds tl : jsstring) :
  ds <> [] -> all_digits ds -> ends_number tl ->
  fst (signed_digits (ds ++ tl)) = ds /\ fst (signed_digits ds) = ds
  /\ exponent_sign (ds ++ tl) = exponent_sign ds.
Proof.
  intros Hne A T.
  pose proof (span_digits_app ds tl A (ends_number_no_digit tl T)) as S1.
  pose proof (span_digits_app ds [] A I) as S2. rewrite app_nil_r in S2.
  destruct ds as [|d ds]; [congruence|].
  unfold all_digits in A. simpl in A. apply andb_prop in A as [D _].
  unfold signed_digits, exponent_sign. cbn [app] in *.
  rewrite (digit_not_sign d D), S1, S2. now repeat split.
Qed.

Lemma scan_exponent_end (ex tl : jsstring) :
  OptionalExponent ex -> ends_number tl ->
  scan_exponent (ex ++ tl) = scan_exponent ex.
Proof.
  intros [-> | X] T.
  - destruct tl as [|c tl]; [reflexivity|].
    simpl in *. destruct T as (_ & _ & ->). reflexivity.
  - destruct X as [c ds C Hne A | c sg ds C G Hne A]; simpl; rewrite C.
    + destruct (signed_digits_end ds tl Hne A T) as (-> & -> & ->). reflexivity.
    + unfold signed_digits. rewrite G.
      rewrite (span_digits_app ds tl A (ends_number_no_digit tl T)).
      pose proof (span_digits_app ds [] A I) as S. rewrite app_nil_r in S.
      now rewrite S.
Qed.

Lemma scan_unsigned_end (u tl : jsstring) :
  StrUnsignedDecimalLiteral u -> ends_number tl ->
  starts_with str_Infinity u = false ->
  scan_unsigned (u ++ tl) = scan_unsigned u.
Proof.
  intros L T I.
  destruct L as [| ds ex Hne A X | ds fs ex Hne A F X].
  - vm_compute in I. discriminate I.
  - destruct (exponent_then_end ex tl X T) as (N1 & F1 & F2).
    assert (N2 : no_digit_ahead ex).
    { destruct X as [-> | [c ? C _ _ | c ? ? C _ _ _]]; simpl; try exact I0;
        try apply (exponent_char_props c C). exact Logic.I. }
    unfold scan_unsigned. rewrite <- app_assoc.
    rewrite (span_digits_app ds (ex ++ tl) A N1), (span_digits_app ds ex A N2).
    rewrite F1, F2. now rewrite (scan_exponent_end ex tl X T).
  - destruct (exponent_then_end ex tl X T) as (N1 & _ & _).
    assert (N2 : no_digit_ahead ex).
    { destruct X as [-> | [c ? C _ _ | c ? ? C _ _ _]]; simpl;
        try apply (exponent_char_props c C). exact Logic.I. }
    unfold scan_unsigned.
    replace ((ds ++ 46%N :: fs ++ ex) ++ tl)
      with (ds ++ 46%N :: fs ++ ex ++ tl)
      by (rewrite <- !app_assoc; simpl; now rewrite <- app_assoc).
    rewrite (span_digits_app ds (46%N :: fs ++ ex ++ tl) A eq_refl).
    rewrite (span_digits_app ds (46%N :: fs ++ ex) A eq_refl).
    cbn [scan_fraction]. rewrite N.eqb_refl.
    rewrite (span_digits_app fs (ex ++ tl) F N1), (span_digits_app fs ex F N2).
    now rewrite (scan_exponent_end ex tl X T).
Qed.

(** What follows a literal and does not extend it does not change the
    value read. *)
Lemma parse_unsigned_end (u tl : jsstring) :
  StrUnsignedDecimalLiteral u -> ends_number tl ->
  parse_unsigned (u ++ tl) = parse_unsigned u.
Proof.
  intros L T. unfold parse_unsigned.
  destruct (starts_with str_Infinity u) eqn:I.
  - apply starts_with_app in I as (r & ->).
    now rewrite <- app_assoc, starts_with_prefix.
  - rewrite (scan_unsigned_end u tl L T I).
    replace (starts_with str_Infinity (u ++ tl)) with false; [reflexivity|].
    symmetry. rewrite str_Infinity_head.
    destruct L as [| ds ex Hne A X | ds fs ex Hne A F X].
    + vm_compute in I. discriminate I.
    + destruct ds as [|d ds]; [congruence|].
      unfold all_digits in A. simpl in A. apply andb_prop in A as [D _].
      cbn [app starts_with]. now rewrite (digit_not_I d D).
    + destruct ds as [|d ds]; [reflexivity|].
      unfold all_digits in A. simpl in A. apply andb_prop in A as [D _].
      cbn [app starts_with]. now rewrite (digit_not_I d D).
Qed.

Lemma sign_cases (sg : N) : is_sign sg = true -> sg = 43%N \/ sg = 45%N.
Proof.
  unfold is_sign. intros H.
  apply orb_prop in H as [H | H]; apply N.eqb_eq in H; tauto.
Qed.

(** The first character of an unsigned literal is no white space and no
    sign. *)
Lemma unsigned_literal_head (u : jsstring) :
  StrUnsignedDecimalLiteral u ->
  exists c r, u = c :: r /\ is_white_space c = false /\ is_sign c = false.
Proof.
  intros [| ds ex Hne A X | ds fs ex Hne A F X].
  - rewrite str_Infinity_head. eexists _, _. now repeat split.
  - destruct ds as [|d ds]; [congruence|].
    unfold all_digits in A. simpl in A. apply andb_prop in A as [D _].
    exists d, (ds ++ ex). split; [reflexivity|].
    split; [now apply digit_not_space | now apply digit_not_sign].
  - destruct ds as [|d ds].
    + eexists _, _. now repeat split.
    + unfold all_digits in A. simpl in A. apply andb_prop in A as [D _].
      exists d, (ds ++ 46%N :: fs ++ ex). split; [reflexivity|].
      split; [now apply digit_not_space | now apply digit_not_sign].
Qed.

Lemma parseFloat_unsigned (u rest : jsstring) :
  StrUnsignedDecimalLiteral u ->
  parseFloat (u ++ rest) = parse_unsigned (u ++ rest).
Proof.
  intros L. destruct (unsigned_literal_head u L) as (c & r & -> & W & G).
  unfold parseFloat. cbn [app trimStart]. rewrite W.
  unfold is_sign in G. apply orb_false_elim in G as [-> ->]. reflexivity.
Qed.

Lemma parseFloat_signed (sg : N) (s : jsstring) :
  is_sign sg = true ->
  parseFloat (sg :: s)
  = if (sg =? 43)%N then parse_unsigned s else (- parse_unsigned s)%float.
Proof.
  intros G. apply sign_cases in G as [-> | ->]; reflexivity.
Qed.

Lemma parseFloat_trimStart (s : jsstring) :
  parseFloat s = parseFloat (trimStart s).
Proof.
  unfold parseFloat. f_equal.
  induction s as [|c s IH]; [reflexivity|].
  simpl. destruct (is_white_space c) eqn:W; [exact IH|].
  simpl. now rewrite W.
Qed.

(** A literal at the head of a text is read, whatever follows. *)
Lemma literal_read (p rest : jsstring) :
  StrDecimalLiteral p -> is_NaN (parseFloat (p ++ rest)) = false.
Proof.
  intros [u L | sg u G L].
  - rewrite parseFloat_unsigned by assumption. now apply unsigned_literal_read.
  - cbn [app]. rewrite parseFloat_signed by assumption.
    destruct (sg =? 43)%N; rewrite ?is_NaN_opp; now apply unsigned_literal_read.
Qed.

(** A text that is read starts, after white space, with a literal. *)
Lemma read_has_literal (s : jsstring) :
  is_NaN (parseFloat s) = false ->
  exists p rest, trimStart s = p ++ rest /\ StrDecimalLiteral p.
Proof.
  unfold parseFloat. destruct (trimStart s) as [|c t]; [discriminate|].
  destruct (c =? 43)%N eqn:P; [| destruct (c =? 45)%N eqn:M].
  - intros H. apply unsigned_prefix in H as (u & rest & -> & L).
    exists (c :: u), rest. split; [reflexivity|].
    apply Literal_signed; [| exact L]. unfold is_sign. now rewrite P.
  - rewrite is_NaN_opp. intros H. apply unsigned_prefix in H as (u & rest & -> & L).
    exists (c :: u), rest. split; [reflexivity|].
    apply Literal_signed; [| exact L]. unfold is_sign. now rewrite M, orb_true_r.
  - intros H. apply unsigned_prefix in H as (u & rest & E & L).
    exists u, rest. split; [exact E | now apply Literal_unsigned].
Qed.

(** The value read is that of the literal when what follows does not
    extend it. *)
Lemma literal_value (p tl : jsstring) :
  StrDecimalLiteral p -> ends_number tl -> parseFloat (p ++ tl) = parseFloat p.
Proof.
  intros [u L | sg u G L] T.
  - rewrite parseFloat_unsigned by assumption.
    rewrite <- (app_nil_r u) at 2. rewrite parseFloat_unsigned by assumption.
    rewrite app_nil_r. now apply parse_unsigned_end.
  - cbn [app]. rewrite !parseFloat_signed by assumption.
    now rewrite parse_unsigned_end.
Qed.

(** *** What [parseFloat] reads in a literal *)

Lemma is_digit_range (c : N) : is_digit c = true <-> (48 <= c <= 57)%N.
Proof.
  unfold is_digit. rewrite andb_true_iff, !N.leb_le. reflexivity.
Qed.

Lemma digits_value_acc (ds : jsstring) :
  forall acc,
    fold_left (fun acc c => 10 * acc + digit_value c) ds acc
    = acc * 10 ^ Z.of_nat (length ds) + spelled ds.
Proof.
  induction ds as [|c ds IH]; intros acc; cbn [fold_left length spelled].
  - cbn [Z.of_nat]. lia.
  - rewrite IH, Nat2Z.inj_succ, Z.pow_succ_r by lia.
    unfold digit_value. lia.
Qed.

Lemma digits_value_spelled (ds : jsstring) : digits_value ds = spelled ds.
Proof. unfold digits_value. rewrite digits_value_acc. lia. Qed.

Lemma exponent_denotes_optional (ex : jsstring) (x : Z) :
  exponent_denotes ex x -> OptionalExponent ex.
Proof.
  intros [|c ds C N D|c ds C N D|c ds C N D].
  - left. reflexivity.
  - right. apply Exponent_unsigned; assumption.
  - right. apply Exponent_signed; [assumption | reflexivity | assumption ..].
  - right. apply Exponent_signed; [assumption | reflexivity | assumption ..].
Qed.

Lemma span_digits_all (ds : jsstring) :
  all_digits ds -> span_digits ds = (ds, []).
Proof.
  intros D. pose proof (span_digits_app ds [] D I) as S.
  rewrite app_nil_r in S. exact S.
Qed.

Lemma scan_exponent_denotes (ex : jsstring) (x : Z) :
  exponent_denotes ex x -> scan_exponent ex = x.
Proof.
  intros [|c ds C N D|c ds C N D|c ds C N D]; cbn [scan_exponent].
  - reflexivity.
  - rewrite C. destruct ds as [|d ds]; [contradiction|].
    assert (Dd : is_digit d = true).
    { unfold all_digits in D. cbn [forallb] in D.
      apply andb_true_iff in D. apply D. }
    unfold signed_digits, exponent_sign.
    rewrite (digit_not_sign d Dd), (digit_not_minus d Dd).
    rewrite (span_digits_all _ D). cbn [fst].
    rewrite digits_value_spelled. lia.
  - rewrite C. unfold signed_digits, exponent_sign.
    change (is_sign 43) with true. change (43 =? 45)%N with false.
    rewrite (span_digits_all _ D). cbn [fst].
    rewrite digits_value_spelled. lia.
  - rewrite C. unfold signed_digits, exponent_sign.
    change (is_sign 45) with true. change (45 =? 45)%N with true.
    rewrite (span_digits_all _ D). cbn [fst].
    rewrite digits_value_spelled. lia.
Qed.

Lemma exponent_no_digit (ex : jsstring) :
  OptionalExponent ex ->
  no_digit_ahead ex /\ scan_fraction ex = ([], ex).
Proof.
  intros X. destruct (exponent_then_end ex [] X I) as (A & _ & B).
  rewrite app_nil_r in A. split; assumption.
Qed.

Lemma scan_unsigned_integer (ds ex : jsstring) :
  ds <> [] -> all_digits ds -> OptionalExponent ex ->
  scan_unsigned (ds ++ ex) = Some (digits_value ds, scan_exponent ex).
Proof.
  intros N D X. destruct (exponent_no_digit ex X) as [A F].
  unfold scan_unsigned. rewrite (span_digits_app ds ex D A), F.
  rewrite app_nil_r. destruct ds as [|d ds]; [contradiction|].
  cbn [length Z.of_nat]. rewrite Z.sub_0_r. reflexivity.
Qed.

Lemma scan_unsigned_fraction (ds fs ex : jsstring) :
  ds ++ fs <> [] -> all_digits ds -> all_digits fs -> OptionalExponent ex ->
  scan_unsigned (ds ++ 46%N :: fs ++ ex)
  = Some (digits_value (ds ++ fs), scan_exponent ex - Z.of_nat (length fs)).
Proof.
  intros N D F X. destruct (exponent_no_digit ex X) as [A _].
  unfold scan_unsigned.
  rewrite (span_digits_app ds (46%N :: fs ++ ex) D) by reflexivity.
  cbn [scan_fraction]. rewrite N.eqb_refl.
  rewrite (span_digits_app fs ex F A).
  destruct (ds ++ fs) as [|c r] eqn:E; [contradiction|]. reflexivity.
Qed.

Lemma digits_not_Infinity (ds tl : jsstring) :
  ds <> [] -> all_digits ds -> starts_with str_Infinity (ds ++ tl) = false.
Proof.
  intros N D. destruct ds as [|d ds]; [contradiction|].
  unfold all_digits in D. cbn [forallb] in D. apply andb_true_iff in D.
  destruct D as [D _]. rewrite str_Infinity_head. cbn [app starts_with].
  rewrite (digit_not_I d D). reflexivity.
Qed.

Lemma float_of_decimal_nearest (m : positive) (e : Z) :
  float_of_decimal m e = nearest_decimal (Zpos m) e.
Proof. reflexivity. Qed.

Lemma parse_unsigned_scanned (u : jsstring) (m e : Z) :
  starts_with str_Infinity u = false ->
  scan_unsigned u = Some (m, e) -> 0 <= m ->
  parse_unsigned u = nearest_decimal m e.
Proof.
  intros I S P. unfold parse_unsigned. rewrite I, S.
  destruct m as [|p|p]; [reflexivity | apply float_of_decimal_nearest | lia].
Qed.

Lemma spelled_nonneg (ds : jsstring) : all_digits ds -> 0 <= spelled ds.
Proof.
  unfold all_digits. induction ds as [|c ds IH]; intros D; cbn [spelled].
  - lia.
  - cbn [forallb] in D. apply andb_true_iff in D. destruct D as [Dc D].
    apply is_digit_range in Dc. specialize (IH D).
    assert (0 < 10 ^ Z.of_nat (length ds)) by (apply Z.pow_pos_nonneg; lia).
    nia.
Qed.

Lemma unsigned_denotes_literal (u : jsstring) (d : decimal) :
  unsigned_denotes u d -> StrUnsignedDecimalLiteral u.
Proof.
  intros [|ds ex x N D X|ds fs ex x N D F X].
  - constructor.
  - apply Unsigned_integer; [assumption ..|].
    exact (exponent_denotes_optional _ _ X).
  - apply Unsigned_fraction; [assumption ..|].
    exact (exponent_denotes_optional _ _ X).
Qed.

Lemma parse_unsigned_denotes (u : jsstring) (d : decimal) :
  unsigned_denotes u d -> parse_unsigned u = denoted false d.
Proof.
  intros [|ds ex x N D X|ds fs ex x N D F X]; cbn [denoted].
  - reflexivity.
  - pose proof (exponent_denotes_optional _ _ X) as O.
    apply parse_unsigned_scanned.
    + apply digits_not_Infinity; assumption.
    + rewrite (scan_unsigned_integer ds ex N D O).
      rewrite digits_value_spelled, (scan_exponent_denotes _ _ X). reflexivity.
    + apply spelled_nonneg. exact D.
  - pose proof (exponent_denotes_optional _ _ X) as O.
    apply parse_unsigned_scanned.
    + destruct ds as [|c ds].
      * rewrite str_Infinity_head. reflexivity.
      * apply digits_not_Infinity; [discriminate | exact D].
    + rewrite (scan_unsigned_fraction ds fs ex N D F O).
      rewrite digits_value_spelled, (scan_exponent_denotes _ _ X). reflexivity.
    + apply spelled_nonneg. unfold all_digits. rewrite forallb_app.
      apply andb_true_iff. split; assumption.
Qed.

Lemma literal_denotes_literal (p : jsstring) (negative : bool) (d : decimal) :
  literal_denotes p negative d -> StrDecimalLiteral p.
Proof.
  intros [u d' U|u d' U|u d' U].
  - apply Literal_unsigned. exact (unsigned_denotes_literal _ _ U).
  - apply Literal_signed; [reflexivity|]. exact (unsigned_denotes_literal _ _ U).
  - apply Literal_signed; [reflexivity|]. exact (unsigned_denotes_literal _ _ U).
Qed.

Lemma parseFloat_denotes (p : jsstring) (negative : bool) (d : decimal) :
  literal_denotes p negative d -> parseFloat p = denoted negative d.
Proof.
  intros [u d' U|u d' U|u d' U].
  - pose proof (parseFloat_unsigned u [] (unsigned_denotes_literal _ _ U)) as P.
    rewrite app_nil_r in P. rewrite P. apply parse_unsigned_denotes. exact U.
  - rewrite parseFloat_signed by reflexivity. change (43 =? 43)%N with true.
    cbv iota. apply parse_unsigned_denotes. exact U.
  - rewrite parseFloat_signed by reflexivity. change (45 =? 43)%N with false.
    cbv iota. rewrite (parse_unsigned_denotes _ _ U). reflexivity.
Qed.

Lemma literal_denotes_something (p : jsstring) :
  StrDecimalLiteral p -> exists negative d, literal_denotes p negative d.
Proof.
  assert (E : forall ex, OptionalExponent ex -> exists x, exponent_denotes ex x).
  { intros ex [->|[c ds C N D|c sg ds C G N D]].
    - eexists. constructor.
    - eexists. apply Denotes_exponent; assumption.
    - destruct (sign_cases sg G) as [->| ->]; eexists.
      + apply Denotes_exponent_plus; assumption.
      + apply Denotes_exponent_minus; assumption. }
  assert (U : forall u, StrUnsignedDecimalLiteral u ->
                        exists d, unsigned_denotes u d).
  { intros u [|ds ex N D X|ds fs ex N D F X].
    - eexists. constructor.
    - destruct (E ex X) as [x Hx]. eexists.
      apply Denotes_integer; eassumption.
    - destruct (E ex X) as [x Hx]. eexists.
      apply Denotes_fraction; eassumption. }
  intros [u L|sg u G L].
  - destruct (U u L) as [d Hd]. exists false, d. constructor. exact Hd.
  - destruct (U u L) as [d Hd].
    destruct (sign_cases sg G) as [->| ->].
    + exists false, d. apply Denotes_plus. exact Hd.
    + exists true, d. apply Denotes_minus. exact Hd.
Qed.

(** C10.  When the text of the amount, without the white space at its ends
    and without its commas, starts with a decimal literal, the row is
    stored whatever follows the literal, and the amount is the number the
    literal denotes when what follows does not extend it; a text fails to
    parse exactly when, after white space, it starts with no literal. *)
Theorem C10_numeric_prefix :
  forall (normalize_NFD : jsstring -> jsstring) (p rest : jsstring),
    StrDecimalLiteral p ->
    is_NaN (parseFloat (p ++ rest)) = false
    /\ (ends_number rest -> parseFloat (p ++ rest) = parseFloat p)
    /\ (exists negative d, literal_denotes p negative d)
    /\ (forall negative d,
          literal_denotes p negative d -> ends_number rest ->
          parseFloat (p ++ rest) = denoted negative d)
    /\ (forall st cols label text,
          (8 <= length cols)%nat ->
          trimmed (nth 1 cols []) label ->
          trimmed (nth 7 cols []) text ->
          without_commas text (p ++ rest) ->
          each_row normalize_NFD st cols
          = (set (fst st) (removeAccents normalize_NFD label)
                 (parseFloat (p ++ rest)),
             true))
    /\ (forall s,
          is_NaN (parseFloat s) = true <->
          ~ exists q tl, trimStart s = q ++ tl /\ StrDecimalLiteral q).
Proof.
  intros normalize_NFD p rest L.
  split; [now apply literal_read|].
  split; [now apply literal_value|].
  split; [now apply literal_denotes_something|].
  split.
  { intros negative d D T. rewrite (literal_value p rest L T).
    apply parseFloat_denotes. exact D. }
  split.
  - intros st cols label text C Hl Ht Ha.
    assert (C' : candidate cols = true) by (apply Nat.leb_le; exact C).
    rewrite (each_row_reads normalize_NFD st cols label text (p ++ rest)
               C' Hl Ht Ha).
    rewrite (literal_read p rest L). reflexivity.
  - intros s. split.
    + intros H (q & tl & E & Q).
      rewrite parseFloat_trimStart, E, literal_read in H by assumption.
      discriminate.
    + intros H. destruct (is_NaN (parseFloat s)) eqn:E; [reflexivity|].
      exfalso. apply H. now apply read_has_literal.
Qed.

Lemma C10_numeric_prefix_witness :
  let p := js "-7.5e3" in
  let rest := js " (p)" in
  let cols := sample_row " Obras " " -7.5e3 (p) " in
  StrDecimalLiteral p
  /\ literal_denotes p true (Dec_number 75 2)
  /\ parseFloat (p ++ rest) = denoted true (Dec_number 75 2)
  /\ parseFloat (p ++ rest) = (-7500)%float
  /\ each_row nfd_latin1 ([], false) cols
     = ([(js "Obras", (-7500)%float)], true)
  /\ parseFloat (js "1e3 x") = 1000%float
  /\ parseFloat (js "0.1") = 0x1.999999999999ap-4%float
  /\ parseFloat (js "8,000") = 8%float
  /\ is_NaN (parseFloat (js "n.d.")) = true.
Proof.
  intros p rest cols.
  assert (D : literal_denotes p true (Dec_number 75 2)).
  { change p with (45%N :: (js "7" ++ 46%N :: js "5" ++ js "e3")).
    apply Denotes_minus.
    change (Dec_number 75 2)
      with (Dec_number (spelled (js "7" ++ js "5"))
                       (spelled (js "3") - Z.of_nat (length (js "5")))).
    apply Denotes_fraction;
      [discriminate | reflexivity | reflexivity |].
    apply (Denotes_exponent 101%N (js "3"));
      [reflexivity | discriminate | reflexivity]. }
  assert (L : StrDecimalLiteral p) by exact (literal_denotes_literal _ _ _ D).
  assert (T : ends_number rest) by (repeat split).
  destruct (C10_numeric_prefix nfd_latin1 p rest L) as (_ & _ & _ & V & R & _).
  split; [exact L|]. split; [exact D|].
  split; [exact (V true _ D T)|].
  split; [rewrite (V true _ D T); vm_compute; reflexivity|].
  split.
  { assert (Hl : trimmed (nth 1 cols []) (js "Obras")).
    { exists (js " "), (js " ").
      split; [vm_compute; reflexivity|]. repeat split. }
    assert (Ht : trimmed (nth 7 cols []) (p ++ rest)).
    { exists (js " "), (js " ").
      split; [vm_compute; reflexivity|]. repeat split. }
    assert (Ha : without_commas (p ++ rest) (p ++ rest)).
    { vm_compute. repeat (first [ apply Commas_nil
                                | apply Commas_keep; [discriminate|] ]). }
    rewrite (R ([], false) cols (js "Obras") (p ++ rest) (le_n 8) Hl Ht Ha).
    vm_compute. reflexivity. }
  repeat split; vm_compute; reflexivity.
Defined.

(** ** The year in the URL *)

Lemma year_here_spec (s ds rest : jsstring) :
  year_here s = Some (ds, rest) <-> year_at s [] ds rest.
Proof.
  unfold year_at, all_digits. simpl. split.
  - unfold year_here.
    destruct s as [|y [|eq [|d1 [|d2 [|d3 [|d4 r]]]]]]; try discriminate.
    destruct ((y =? 121)%N && (eq =? 61)%N && is_digit d1 && is_digit d2
              && is_digit d3 && is_digit d4) eqn:E; [| discriminate].
    intros H. injection H as <- <-.
    repeat (apply andb_prop in E as [E ?]).
    apply N.eqb_eq in E. apply N.eqb_eq in H3. subst.
    split; [reflexivity|]. split; [reflexivity|].
    simpl. now rewrite H2, H1, H0, H.
  - intros (-> & L & A).
    destruct ds as [|d1 [|d2 [|d3 [|d4 [|]]]]]; try discriminate L.
    simpl in A. repeat (apply andb_prop in A as [? A]).
    unfold year_here. simpl. now rewrite H, H0, H1, H2.
Qed.

Lemma exec_year_unfold (c : N) (s : jsstring) :
  exec_year (c :: s)
  = match year_here (c :: s) with
    | Some (ds, rest) => Some ([], ds, rest)
    | None =>
        match exec_year s with
        | Some (before, ds, rest) => Some (c :: before, ds, rest)
        | None => None
        end
    end.
Proof. reflexivity. Qed.

Lemma exec_year_sound (s : jsstring) :
  forall before ds rest,
    exec_year s = Some (before, ds, rest) -> leftmost_year s before ds rest.
Proof.
  induction s as [|c s IH]; intros before ds rest H.
  - discriminate H.
  - rewrite exec_year_unfold in H.
    destruct (year_here (c :: s)) as [[ds0 rest0]|] eqn:Y.
    + injection H as <- <- <-. apply year_here_spec in Y.
      split; [exact Y|]. intros. simpl. lia.
    + destruct (exec_year s) as [[[b0 ds0] rest0]|] eqn:E; [| discriminate].
      injection H as <- <- <-.
      destruct (IH b0 ds0 rest0 eq_refl) as [(Es & L & A) Hmin].
      split.
      * split; [| now split]. simpl. now rewrite <- Es.
      * intros b' ds' rest' Y'. destruct b' as [|c' b'].
        -- apply year_here_spec in Y'. congruence.
        -- simpl. apply le_n_S. apply (Hmin b' ds' rest').
           destruct Y' as (E' & L' & A'). split; [| now split].
           simpl in E'. now injection E'.
Qed.

Lemma exec_year_complete (s : jsstring) :
  has_year s -> exec_year s <> None.
Proof.
  intros (before & ds & rest & Y). revert s Y.
  induction before as [|c b IH]; intros s Y.
  - apply year_here_spec in Y. destruct s as [|c s]; [discriminate Y|].
    rewrite exec_year_unfold, Y. discriminate.
  - destruct Y as (-> & L & A). simpl app. rewrite exec_year_unfold.
    destruct (year_here _) as [[? ?]|]; [discriminate|].
    assert (N : exec_year (b ++ 121%N :: 61%N :: ds ++ rest) <> None)
      by (apply IH; now repeat split).
    destruct (exec_year _) as [[[? ?] ?]|]; [discriminate | congruence].
Qed.

Section HandlerFacts.

Variable normalize_NFD : jsstring -> jsstring.
Variable axios_get : jsstring -> outcome (option table).

Lemma resolve_year_exec (url before ds rest : jsstring) :
  exec_year url = Some (before, ds, rest) ->
  resolve_year url
  = Some (digits_value ds, digits_value ds - 1,
          before ++ js "y=" ++ integer_to_string (digits_value ds - 1) ++ rest).
Proof.
  intros H. unfold resolve_year, match_year, replace_year. rewrite H.
  now rewrite <- app_assoc.
Qed.

Lemma resolve_year_None (url : jsstring) :
  exec_year url = None -> resolve_year url = None.
Proof. intros H. unfold resolve_year, match_year. now rewrite H. Qed.

(** C7.  A URL with [y=] and four digits gives [yearActual] from the
    digits of the first occurrence, [yearAnterior] one less, and
    [urlAnterior] with that occurrence replaced; both URLs are requested.
    A URL without the token, and a missing [url], give status 400 with a
    message and no request. *)
Theorem C7_year_resolution :
  forall (first : pipeline) (url : jsstring),
    (has_year url ->
     exists before ds rest,
       leftmost_year url before ds rest
       /\ let yearActual := digits_value ds in
          let yearAnterior := yearActual - 1 in
          let urlAnterior :=
            before ++ js "y=" ++ integer_to_string yearAnterior ++ rest in
          resolve_year url = Some (yearActual, yearAnterior, urlAnterior)
          /\ comparar_handler normalize_NFD axios_get first (UrlString url)
             = (respond first yearActual yearAnterior
                  (scrapeMefData normalize_NFD axios_get url)
                  (scrapeMefData normalize_NFD axios_get urlAnterior),
                [url; urlAnterior]))
    /\ (~ has_year url ->
        comparar_handler normalize_NFD axios_get first (UrlString url)
        = (ErrorResponse 400
             (match url with [] => msg_url_required | _ => msg_no_year end),
           []))
    /\ comparar_handler normalize_NFD axios_get first UrlMissing
       = (ErrorResponse 400 msg_url_required, []).
Proof.
  intros first url. split; [| split; [| reflexivity]].
  - intros H. pose proof (exec_year_complete url H) as N.
    destruct (exec_year url) as [[[before ds] rest]|] eqn:E; [| congruence].
    exists before, ds, rest.
    split; [now apply exec_year_sound|].
    pose proof (resolve_year_exec url before ds rest E) as R.
    split; [exact R|].
    destruct url as [|c url]; [discriminate E|].
    unfold comparar_handler. now rewrite R.
  - intros H. destruct url as [|c url]; [reflexivity|].
    unfold comparar_handler. rewrite resolve_year_None; [reflexivity|].
    destruct (exec_year (c :: url)) as [[[before ds] rest]|] eqn:E; [| reflexivity].
    exfalso. apply H. exists before, ds, rest.
    now apply (exec_year_sound (c :: url)).
Qed.

End HandlerFacts.

Lemma C7_year_resolution_witness :
  let url := js "https://portal/?ap=y=20&y=2024&y=1999" in
  let urlAnterior := js "https://portal/?ap=y=20&y=2023&y=1999" in
  has_year url
  /\ resolve_year url = Some (2024, 2023, urlAnterior)
  /\ snd (comparar_handler nfd_latin1 sample_portal Actual (UrlString url))
     = [url; urlAnterior]
  /\ comparar_handler nfd_latin1 sample_portal Actual
       (UrlString (js "https://portal/?ap=Proyecto"))
     = (ErrorResponse 400 msg_no_year, []).
Proof.
  intros url urlAnterior.
  assert (H : has_year url).
  { exists (js "https://portal/?ap=y=20&"), (js "2024"), (js "&y=1999").
    split; [vm_compute; reflexivity | split; reflexivity]. }
  split; [exact H|].
  destruct (C7_year_resolution nfd_latin1 sample_portal Actual url)
    as (Hyes & _ & _).
  destruct (C7_year_resolution nfd_latin1 sample_portal Actual
              (js "https://portal/?ap=Proyecto")) as (_ & Hno & _).
  destruct (Hyes H) as (before & ds & rest & _ & Hr & Hh).
  assert (R : resolve_year url = Some (2024, 2023, urlAnterior))
    by (vm_compute; reflexivity).
  split; [exact R|].
  split.
  - rewrite Hh. cbn [snd]. rewrite R in Hr. injection Hr as _ _ Hu.
    do 2 f_equal. symmetry. exact Hu.
  - rewrite Hno; [reflexivity|].
    intros Y. apply exec_year_complete in Y. apply Y. vm_compute. reflexivity.
Defined.

(** ** The join of the two pipelines *)

Lemma msg_year_head (year : Z) (msg : jsstring) :
  msg_year year msg
  = 69%N :: js "rror en datos de " ++ integer_to_string year ++ js ": " ++ msg.
Proof. reflexivity. Qed.

(** The wrapped message is never empty, so it is the one reported. *)
Lemma message_or_internal_year (year : Z) (msg : jsstring) :
  message_or_internal (Error (msg_year year msg)) = msg_year year msg.
Proof.
  unfold message_or_internal, Error. cbn [message].
  now rewrite msg_year_head.
Qed.

Section JoinFacts.

Variable normalize_NFD : jsstring -> jsstring.
Variable axios_get : jsstring -> outcome (option table).

(** C5.  When a pipeline fails, the reply has status 500 and its message
    is the text "Error en datos de ", the year of that pipeline, ": " and
    the message of the failure; when both fail, the pipeline that fails
    first decides; the outcome of the other pipeline is not looked at.
    When both succeed, the reply has status 200 and carries the
    comparison. *)
Theorem C5_fail_fast :
  forall (first : pipeline) (url urlAnterior : jsstring)
         (yearActual yearAnterior : Z),
    resolve_year url = Some (yearActual, yearAnterior, urlAnterior) ->
    let actual := scrapeMefData normalize_NFD axios_get url in
    let anterior := scrapeMefData normalize_NFD axios_get urlAnterior in
    let reply :=
      fst (comparar_handler normalize_NFD axios_get first (UrlString url)) in
    (forall e d,
       actual = Thrown e -> anterior = Returned d ->
       reply = ErrorResponse 500
                 (js "Error en datos de " ++ integer_to_string yearActual
                  ++ js ": " ++ message e))
    /\ (forall d e,
          actual = Returned d -> anterior = Thrown e ->
          reply = ErrorResponse 500
                    (js "Error en datos de " ++ integer_to_string yearAnterior
                     ++ js ": " ++ message e))
    /\ (forall e e',
          actual = Thrown e -> anterior = Thrown e' ->
          reply = ErrorResponse 500
                    (match first with
                     | Actual =>
                         js "Error en datos de "
                         ++ integer_to_string yearActual
                         ++ js ": " ++ message e
                     | Anterior =>
                         js "Error en datos de "
                         ++ integer_to_string yearAnterior
                         ++ js ": " ++ message e'
                     end))
    /\ (forall d d',
          actual = Returned d -> anterior = Returned d' ->
          reply = ComparisonResult yearActual yearAnterior (comparar d d')
          /\ status_of reply = 200).
Proof.
  intros first url urlAnterior yearActual yearAnterior R actual anterior reply.
  assert (E : reply = respond first yearActual yearAnterior actual anterior).
  { subst reply. destruct url as [|c url]; [discriminate R|].
    unfold comparar_handler. now rewrite R. }
  rewrite E. unfold respond. split; [| split; [| split]].
  - intros e d -> ->. cbn [catch_with_year Promise_all].
    rewrite message_or_internal_year. reflexivity.
  - intros d e -> ->. cbn [catch_with_year Promise_all].
    rewrite message_or_internal_year. reflexivity.
  - intros e e' -> ->. cbn [catch_with_year Promise_all].
    destruct first; rewrite message_or_internal_year; reflexivity.
  - intros d d' -> ->. now split.
Qed.

End JoinFacts.

Lemma C5_fail_fast_witness :
  let url := js "https://portal/?y=2022&ap=Proyecto" in
  let urlAnterior := js "https://portal/?y=2021&ap=Proyecto" in
  resolve_year url = Some (2022, 2021, urlAnterior)
  /\ (scrapeMefData nfd_latin1 sample_portal url
      = Thrown (Error (js "No se encontró la tabla de datos en la URL proporcionada. Verifique que el enlace sea de Consulta Amigable."))
      /\ scrapeMefData nfd_latin1 sample_portal urlAnterior
         = Thrown (Error (js "Error al acceder a la URL: El servidor respondió con estado 404.")))
  /\ fst (comparar_handler nfd_latin1 sample_portal Anterior (UrlString url))
     = ErrorResponse 500
         (js "Error en datos de 2021: Error al acceder a la URL: El servidor respondió con estado 404.")
  /\ fst (comparar_handler nfd_latin1 sample_portal Actual (UrlString url))
     = ErrorResponse 500
         (js "Error en datos de 2022: No se encontró la tabla de datos en la URL proporcionada. Verifique que el enlace sea de Consulta Amigable.").
Proof.
  intros url urlAnterior.
  assert (R : resolve_year url = Some (2022, 2021, urlAnterior))
    by (vm_compute; reflexivity).
  assert (A : scrapeMefData nfd_latin1 sample_portal url
              = Thrown (Error (js "No se encontró la tabla de datos en la URL proporcionada. Verifique que el enlace sea de Consulta Amigable.")))
    by (vm_compute; reflexivity).
  assert (B : scrapeMefData nfd_latin1 sample_portal urlAnterior
              = Thrown (Error (js "Error al acceder a la URL: El servidor respondió con estado 404.")))
    by (vm_compute; reflexivity).
  split; [exact R|].
  split; [split; [exact A | exact B]|].
  split.
  - destruct (C5_fail_fast nfd_latin1 sample_portal Anterior url urlAnterior
                2022 2021 R) as (_ & _ & H & _).
    rewrite (H _ _ A B). vm_compute. reflexivity.
  - destruct (C5_fail_fast nfd_latin1 sample_portal Actual url urlAnterior
                2022 2021 R) as (_ & _ & H & _).
    rewrite (H _ _ A B). vm_compute. reflexivity.
Defined.

(** * Further properties

    Properties of the scraper, the handler and the comparison beyond the
    statements above, and properties of the client. *)

(** ** What the scraper returns and throws *)

Lemma store_In (entries : list (jsstring * float)) :
  forall (data : dataset) (k : jsstring) (v : float),
    own_get (store entries data) k = Some v ->
    In (k, v) entries \/ own_get data k = Some v.
Proof.
  induction entries as [|[k' v'] entries IH] using rev_ind; intros data k v H.
  - right. exact H.
  - rewrite store_snoc in H. cbn [fst snd] in H. unfold set in H.
    destruct (jsstring_eqb k' str_proto) eqn:P.
    + destruct (IH _ _ _ H) as [I|I]; [left; apply in_or_app; left; exact I|].
      right. exact I.
    + rewrite own_get_own_set in H.
      destruct (jsstring_eqb k' k) eqn:E.
      * apply jsstring_eqb_eq in E. subst k'. injection H as ->.
        left. apply in_or_app. right. left. reflexivity.
      * destruct (IH _ _ _ H) as [I|I]; [left; apply in_or_app; left; exact I|].
        right. exact I.
Qed.

Section ScraperResults.

Variable normalize_NFD : jsstring -> jsstring.
Variable axios_get : jsstring -> outcome (option table).

Lemma scrape_Returned (url : jsstring) (data : dataset) :
  scrapeMefData normalize_NFD axios_get url = Returned data ->
  exists rows,
    axios_get url = Returned (Some rows)
    /\ existsb yields_amount rows = true
    /\ data = store (entries normalize_NFD rows) [].
Proof.
  intros H. destruct (axios_get url) as [[rows|]|e] eqn:A.
  - rewrite (scrape_table _ _ _ _ A) in H.
    destruct (existsb yields_amount rows) eqn:Y; [|discriminate H].
    injection H as <-. exists rows. repeat split. exact Y.
  - unfold scrapeMefData, scrape_try in H. rewrite A in H. discriminate H.
  - unfold scrapeMefData, scrape_try in H. rewrite A in H. discriminate H.
Qed.

Lemma scrape_Thrown (url : jsstring) (e : jserror) :
  scrapeMefData normalize_NFD axios_get url = Thrown e ->
  exists e0,
    e = scrape_catch e0
    /\ (axios_get url = Thrown e0
        \/ e0 = Error msg_no_table \/ e0 = Error msg_no_numeric).
Proof.
  unfold scrapeMefData, scrape_try.
  destruct (axios_get url) as [[rows|]|e0] eqn:A.
  - destruct (fold_left (each_row normalize_NFD) rows ([], false))
      as [data hasData].
    destruct hasData; [discriminate|].
    intros H. injection H as <-. exists (Error msg_no_numeric).
    split; [reflexivity | right; right; reflexivity].
  - intros H. injection H as <-. exists (Error msg_no_table).
    split; [reflexivity | right; left; reflexivity].
  - intros H. injection H as <-. exists e0.
    split; [reflexivity | left; reflexivity].
Qed.

Lemma scrape_catch_fixed (e0 : jserror) :
  response (scrape_catch e0) = None
  /\ (request (scrape_catch e0) = true ->
      includes (message (scrape_catch e0)) (js "No se encontró") = true)
  /\ scrape_catch (scrape_catch e0) = scrape_catch e0.
Proof.
  assert (C : (exists msg, scrape_catch e0 = Error msg)
              \/ (scrape_catch e0 = e0 /\ response e0 = None
                  /\ (request e0 = true ->
                      includes (message e0) (js "No se encontró") = true))).
  { unfold scrape_catch. destruct (response e0) as [status|] eqn:R.
    - left. eexists. reflexivity.
    - destruct (request e0
                && negb (includes (message e0) (js "No se encontró"))) eqn:Q.
      + left. eexists. reflexivity.
      + right. split; [reflexivity|]. split; [reflexivity|].
        intros F. rewrite F in Q. cbn [andb] in Q.
        apply negb_false_iff in Q. exact Q. }
  destruct C as [[msg ->]|(-> & R & Q)].
  - split; [reflexivity|]. split; [intros F; discriminate F|].
    apply scrape_catch_Error.
  - split; [exact R|]. split; [exact Q|].
    unfold scrape_catch. rewrite R.
    destruct (request e0) eqn:F; [|reflexivity].
    rewrite (Q eq_refl). reflexivity.
Qed.

(** X1: whatever [scrapeMefData] throws carries no [response], carries a
    [request] only when its message contains "No se encontró", and would
    pass through the [catch] block again unchanged.  When the request
    itself failed, an error with a [response] gives the message with its
    status; one without a [response] but with a [request] gives the
    network message, unless its message contains "No se encontró", in which
    case it is rethrown as it is; one with neither is rethrown as it is. *)
Theorem X1_scrape_errors_classified :
  forall (url : jsstring) (e : jserror),
    scrapeMefData normalize_NFD axios_get url = Thrown e ->
    response e = None
    /\ (request e = true -> includes (message e) (js "No se encontró") = true)
    /\ scrape_catch e = e
    /\ (forall e0,
          axios_get url = Thrown e0 ->
          (forall status,
              response e0 = Some status -> e = Error (msg_status status))
          /\ (response e0 = None -> request e0 = true ->
              includes (message e0) (js "No se encontró") = false ->
              e = Error msg_network)
          /\ (response e0 = None -> request e0 = true ->
              includes (message e0) (js "No se encontró") = true ->
              e = e0)
          /\ (response e0 = None -> request e0 = false -> e = e0)).
Proof.
  intros url e H.
  destruct (scrape_Thrown _ _ H) as (e1 & E & _).
  destruct (scrape_catch_fixed e1) as (R & Q & I). rewrite <- E in R, Q, I.
  split; [exact R|]. split; [exact Q|]. split; [exact I|].
  intros e0 A. unfold scrapeMefData, scrape_try in H. rewrite A in H.
  injection H as <-. unfold scrape_catch.
  split; [|split; [|split]].
  - intros status ->. reflexivity.
  - intros -> -> ->. reflexivity.
  - intros -> -> ->. reflexivity.
  - intros -> ->. reflexivity.
Qed.

Lemma filter_none (A : Type) (f : A -> bool) (l : list A) :
  (forall x, In x l -> f x = false) -> filter f l = [].
Proof.
  induction l as [|x l IH]; intros H; cbn [filter]; [reflexivity|].
  rewrite (H x (or_introl eq_refl)). apply IH.
  intros y I. apply H. right. exact I.
Qed.

Lemma filter_twice (A : Type) (f : A -> bool) (l : list A) :
  filter f (filter f l) = filter f l.
Proof.
  induction l as [|x l IH]; cbn [filter]; [reflexivity|].
  destruct (f x) eqn:E; cbn [filter]; [rewrite E, IH; reflexivity | exact IH].
Qed.

(** The keys that are no array index are listed in creation order. *)
Lemma Object_keys_others (o : dataset) :
  filter (fun k => negb (is_array_index k)) (Object_keys o)
  = filter (fun k => negb (is_array_index k)) (map fst o).
Proof.
  unfold Object_keys. rewrite filter_app, filter_twice.
  rewrite filter_none; [reflexivity|].
  intros k I. apply negb_false_iff.
  apply (Permutation_in _ (index_keys_perm (map fst o))) in I.
  apply filter_In in I. apply I.
Qed.

(** X2: the keys that [Object.keys] lists for the dataset [scrapeMefData]
    returns are the normalised labels of the rows that yield an amount,
    [__proto__] left out, each once.  Those that are no array index are
    listed in the order of their first rows; when no key is an array
    index, that is the order of all the keys. *)
Theorem X2_scraped_labels :
  forall (url : jsstring) (data : dataset),
    scrapeMefData normalize_NFD axios_get url = Returned data ->
    exists rows,
      axios_get url = Returned (Some rows)
      /\ NoDup (Object_keys data)
      /\ ~ In str_proto (Object_keys data)
      /\ (forall k,
             In k (Object_keys data) <->
             k <> str_proto
             /\ exists cols,
                  In cols rows /\ yields_amount cols = true
                  /\ removeAccents normalize_NFD (row_label cols) = k)
      /\ filter (fun k => negb (is_array_index k)) (Object_keys data)
         = filter (fun k => negb (is_array_index k))
                  (Set_from (filter (fun k => negb (jsstring_eqb k str_proto))
                                    (map fst (entries normalize_NFD rows))))
      /\ ((forall k, In k (Object_keys data) -> is_array_index k = false) ->
          Object_keys data
          = Set_from (filter (fun k => negb (jsstring_eqb k str_proto))
                             (map fst (entries normalize_NFD rows)))).
Proof.
  intros url data H.
  destruct (scrape_is_object _ _ _ _ H) as [N P].
  destruct (scrape_Returned _ _ H) as (rows & A & _ & ->).
  exists rows. split; [exact A|].
  assert (K : map fst (store (entries normalize_NFD rows) [])
              = Set_from (filter (fun k => negb (jsstring_eqb k str_proto))
                                 (map fst (entries normalize_NFD rows)))).
  { rewrite store_keys. reflexivity. }
  split; [apply Object_keys_NoDup; exact N|].
  split; [rewrite Object_keys_In; exact P|].
  split.
  { intros k. rewrite Object_keys_In, K. unfold Set_from.
    rewrite fold_Set_add_In.
    rewrite filter_In, negb_true_iff, jsstring_eqb_neq.
    unfold entries. rewrite map_map. cbn [fst]. rewrite in_map_iff.
    split.
    - intros [[]|[(cols & E & I) Q]]. split; [exact Q|].
      apply filter_In in I. destruct I as [I Y]. exists cols. auto.
    - intros [Q (cols & I & Y & E)]. right. split; [|exact Q].
      exists cols. split; [exact E|]. apply filter_In. auto. }
  split; [rewrite Object_keys_others, K; reflexivity|].
  intros I. rewrite <- K. apply Object_keys_creation_order.
  intros k Hk. apply I. apply Object_keys_In. exact Hk.
Qed.

(** X3: in the dataset [scrapeMefData] returns, a label other than
    [__proto__] holds the amount of the last row that yields an amount
    under that label, and every amount held is a number read off such a
    row, never [NaN]. *)
Theorem X3_scraped_amounts :
  forall (url : jsstring) (data : dataset),
    scrapeMefData normalize_NFD axios_get url = Returned data ->
    exists rows,
      axios_get url = Returned (Some rows)
      /\ (forall k,
             k <> str_proto ->
             own_get data k = last_amount k (entries normalize_NFD rows))
      /\ (forall k v,
             own_get data k = Some v ->
             is_NaN v = false
             /\ exists cols,
                  In cols rows /\ yields_amount cols = true
                  /\ removeAccents normalize_NFD (row_label cols) = k
                  /\ row_amount cols = v).
Proof.
  intros url data H.
  destruct (scrape_Returned _ _ H) as (rows & A & _ & ->).
  exists rows. split; [exact A|]. split.
  - intros k Q. rewrite (store_last_amount _ _ _ Q).
    destruct (last_amount k (entries normalize_NFD rows)); reflexivity.
  - intros k v G. apply store_In in G. destruct G as [G|G]; [|discriminate G].
    unfold entries in G. apply in_map_iff in G.
    destruct G as (cols & E & I). injection E as E1 E2.
    apply filter_In in I. destruct I as [I Y].
    assert (Y' := Y). unfold yields_amount in Y'.
    apply andb_true_iff in Y'. destruct Y' as [_ Y'].
    apply negb_true_iff in Y'. rewrite E2 in Y'.
    split; [exact Y'|]. exists cols. auto.
Qed.

End ScraperResults.


Lemma X1_scrape_errors_classified_witness :
  let url := js "https://portal/?y=2021" in
  let e := Error (msg_status 404) in
  scrapeMefData nfd_latin1 sample_portal url = Thrown e
  /\ response e = None
  /\ scrape_catch e = e.
Proof.
  intros url e.
  assert (H : scrapeMefData nfd_latin1 sample_portal url = Thrown e)
    by (vm_compute; reflexivity).
  destruct (X1_scrape_errors_classified nfd_latin1 sample_portal url e H)
    as (A & _ & C & _).
  split; [exact H|]. split; [exact A | exact C].
Defined.


Lemma X2_scraped_labels_witness :
  let url := js "https://portal/?y=2023" in
  let data := [(js "Salud", 3000000%float); (js "Educacion", 6000000%float)] in
  let rows := [ sample_row "B" "1"; sample_row "7" "2"; sample_row "2024" "3";
                sample_row "A" "4"; sample_row "2023" "5" ] in
  let indexed :=
    [(js "B", 1%float); (js "7", 2%float); (js "2024", 3%float);
     (js "A", 4%float); (js "2023", 5%float)] in
  scrapeMefData nfd_latin1 sample_portal url = Returned data
  /\ NoDup (Object_keys data)
  /\ ~ In str_proto (Object_keys data)
  /\ Object_keys data = [js "Salud"; js "Educacion"]
  /\ scrapeMefData nfd_latin1 (fun _ => Returned (Some rows)) url
     = Returned indexed
  /\ Object_keys indexed = [js "7"; js "2023"; js "2024"; js "B"; js "A"].
Proof.
  intros url data rows indexed.
  assert (H : scrapeMefData nfd_latin1 sample_portal url = Returned data)
    by (vm_compute; reflexivity).
  destruct (X2_scraped_labels nfd_latin1 sample_portal url data H)
    as (rows' & _ & N & P & _).
  split; [exact H|]. split; [exact N|]. split; [exact P|].
  repeat split; vm_compute; reflexivity.
Defined.

Lemma X3_scraped_amounts_witness :
  let url := js "https://portal/?y=2023" in
  let data := [(js "Salud", 3000000%float); (js "Educacion", 6000000%float)] in
  scrapeMefData nfd_latin1 sample_portal url = Returned data
  /\ own_get data (js "Salud") = Some 3000000%float
  /\ is_NaN 3000000%float = false.
Proof.
  intros url data.
  assert (H : scrapeMefData nfd_latin1 sample_portal url = Returned data)
    by (vm_compute; reflexivity).
  assert (G : own_get data (js "Salud") = Some 3000000%float)
    by (vm_compute; reflexivity).
  destruct (X3_scraped_amounts nfd_latin1 sample_portal url data H)
    as (rows & _ & _ & V).
  destruct (V (js "Salud") 3000000%float G) as [N _].
  split; [exact H|]. split; [exact G | exact N].
Defined.

(** ** Cells with white space around them *)

(** X4: white space around the text of the label cell and of the amount
    cell changes nothing: the row gives the same label, the same amount
    and the same update of the dataset. *)
Theorem X4_padded_cells :
  forall (normalize_NFD : jsstring -> jsstring) (st : dataset * bool)
         (cols cols' : list jsstring) (w1 w2 w3 w4 : jsstring),
    white_space w1 -> white_space w2 -> white_space w3 -> white_space w4 ->
    length cols' = length cols ->
    nth 1 cols' [] = w1 ++ nth 1 cols [] ++ w2 ->
    nth 7 cols' [] = w3 ++ nth 7 cols [] ++ w4 ->
    row_label cols' = row_label cols
    /\ row_amount cols' = row_amount cols
    /\ each_row normalize_NFD st cols' = each_row normalize_NFD st cols.
Proof.
  intros normalize_NFD st cols cols' w1 w2 w3 w4 W1 W2 W3 W4 L E1 E7.
  unfold row_label, row_amount, each_row.
  rewrite L, E1, E7, !trim_padded by assumption.
  repeat split.
Qed.


Lemma X4_padded_cells_witness :
  let cols := sample_row "Salud" "3,000,000" in
  let cols' := sample_row "  Salud " " 3,000,000  " in
  let st := (@nil (jsstring * float), false) in
  (white_space (js "  ") /\ white_space (js " "))
  /\ row_label cols' = row_label cols
  /\ each_row nfd_latin1 st cols' = each_row nfd_latin1 st cols.
Proof.
  intros cols cols' st.
  assert (W2 : white_space (js "  ")) by (vm_compute; reflexivity).
  assert (W1 : white_space (js " ")) by (vm_compute; reflexivity).
  assert (L : length cols' = length cols) by reflexivity.
  assert (E1 : nth 1 cols' [] = js "  " ++ nth 1 cols [] ++ js " ")
    by (vm_compute; reflexivity).
  assert (E7 : nth 7 cols' [] = js " " ++ nth 7 cols [] ++ js "  ")
    by (vm_compute; reflexivity).
  destruct (X4_padded_cells nfd_latin1 st cols cols' _ _ _ _
              W2 W1 W1 W2 L E1 E7) as (A & _ & C).
  split; [split; [exact W2 | exact W1]|]. split; [exact A | exact C].
Defined.

(** ** Amounts written with separators *)

Lemma remove_commas_digits (ds : jsstring) :
  all_digits ds -> remove_commas ds = ds.
Proof.
  unfold all_digits, remove_commas. induction ds as [|c ds IH]; intros H.
  - reflexivity.
  - cbn [forallb] in H. apply andb_true_iff in H. destruct H as [D H].
    cbn [filter]. rewrite (IH H).
    apply is_digit_range in D.
    destruct (c =? 44)%N eqn:E; [apply N.eqb_eq in E; lia | reflexivity].
Qed.

Lemma digits_literal (ds : jsstring) :
  ds <> [] -> all_digits ds -> StrUnsignedDecimalLiteral ds.
Proof.
  intros N D. rewrite <- (app_nil_r ds).
  apply Unsigned_integer; [exact N | exact D | left; reflexivity].
Qed.

Lemma parseFloat_digits (ds : jsstring) :
  ds <> [] -> all_digits ds ->
  parseFloat ds = nearest_integer (digits_value ds).
Proof.
  intros N D.
  pose proof (parseFloat_unsigned ds [] (digits_literal ds N D)) as P.
  rewrite app_nil_r in P. rewrite P. unfold parse_unsigned.
  destruct ds as [|c r]; [contradiction|].
  assert (Dc : is_digit c = true).
  { unfold all_digits in D. cbn [forallb] in D.
    apply andb_true_iff in D. apply D. }
  assert (I : starts_with str_Infinity (c :: r) = false).
  { rewrite str_Infinity_head. cbn [starts_with].
    rewrite (digit_not_I c Dc). reflexivity. }
  rewrite I. unfold scan_unsigned.
  clear I. assert (I : no_digit_ahead []) by exact Logic.I.
  pose proof (span_digits_app (c :: r) [] D I) as S.
  rewrite app_nil_r in S. rewrite S. cbn [scan_fraction app].
  rewrite app_nil_r. cbn [scan_exponent length Z.of_nat Z.sub Z.opp Z.add].
  unfold nearest_integer, float_of_decimal.
  destruct (digits_value (c :: r)) as [|m|m]; try reflexivity.
  change (0 <=? 0) with true. cbv iota.
  change (10 ^ 0) with 1. rewrite Z.mul_1_r. reflexivity.
Qed.

Lemma digits_and_commas_removed (s : jsstring) :
  digits_and_commas s -> all_digits (remove_commas s).
Proof.
  unfold digits_and_commas, all_digits, remove_commas.
  induction s as [|c s IH]; intros H; [reflexivity|].
  cbn [forallb] in H. apply andb_true_iff in H. destruct H as [C H].
  cbn [filter]. destruct (c =? 44)%N eqn:E; cbn [negb].
  - exact (IH H).
  - cbn [forallb]. rewrite orb_false_r in C. rewrite C. exact (IH H).
Qed.

(** X5: an amount written as digits with commas between them reads as
    the number nearest to the integer its digits spell; had the commas
    been left in, the reading would stop at the first one. *)
Theorem X5_separators_removed :
  forall a b : jsstring,
    a <> [] -> all_digits a -> digits_and_commas b ->
    parseFloat (remove_commas (a ++ 44%N :: b))
    = nearest_integer (digits_value (a ++ remove_commas b))
    /\ parseFloat (a ++ 44%N :: b) = nearest_integer (digits_value a).
Proof.
  intros a b Ne D C.
  assert (R : remove_commas (a ++ 44%N :: b) = a ++ remove_commas b).
  { unfold remove_commas at 1. rewrite filter_app. cbn [filter].
    change (filter (fun c : BinNums.N => negb (c =? 44)%N) a) with (remove_commas a).
    rewrite (remove_commas_digits a D). reflexivity. }
  split.
  - rewrite R. apply parseFloat_digits.
    + destruct a; [contradiction | discriminate].
    + unfold all_digits. rewrite forallb_app. apply andb_true_iff. split.
      * exact D.
      * apply digits_and_commas_removed. exact C.
  - rewrite (literal_value a (44%N :: b)).
    + apply parseFloat_digits; assumption.
    + apply Literal_unsigned, digits_literal; assumption.
    + repeat split.
Qed.


Lemma X5_separators_removed_witness :
  let a := js "7" in
  let b := js "500,000" in
  (all_digits a /\ digits_and_commas b)
  /\ parseFloat (remove_commas (a ++ 44%N :: b))
     = nearest_integer (digits_value (a ++ remove_commas b))
  /\ parseFloat (a ++ 44%N :: b) = nearest_integer (digits_value a).
Proof.
  intros a b.
  assert (Ne : a <> []) by (intros F; vm_compute in F; discriminate F).
  assert (D : all_digits a) by (vm_compute; reflexivity).
  assert (C : digits_and_commas b) by (vm_compute; reflexivity).
  destruct (X5_separators_removed a b Ne D C) as [A B].
  split; [split; [exact D | exact C]|]. split; [exact A | exact B].
Defined.

(** ** Replies of the handler *)

Lemma message_or_internal_nonempty (e : jserror) : message_or_internal e <> [].
Proof.
  unfold message_or_internal. destruct (message e); discriminate.
Qed.

Lemma catch_with_year_Returned (year : Z) (p : outcome dataset) (d : dataset) :
  catch_with_year year p = Returned d <-> p = Returned d.
Proof.
  destruct p as [d'|e]; cbn [catch_with_year]; split; intros H;
    try discriminate H; exact H.
Qed.

Lemma respond_cases (first : pipeline) (yearActual yearAnterior : Z)
    (actual anterior : outcome dataset) :
  (exists dataActual dataAnterior,
      actual = Returned dataActual /\ anterior = Returned dataAnterior
      /\ respond first yearActual yearAnterior actual anterior
         = ComparisonResult yearActual yearAnterior
             (comparar dataActual dataAnterior))
  \/ (exists e,
         (actual = Thrown e \/ anterior = Thrown e)
         /\ (respond first yearActual yearAnterior actual anterior
             = ErrorResponse 500 (msg_year yearActual (message e))
             \/ respond first yearActual yearAnterior actual anterior
                = ErrorResponse 500 (msg_year yearAnterior (message e)))).
Proof.
  unfold respond.
  destruct actual as [da|ea], anterior as [db|eb];
    cbn [catch_with_year Promise_all].
  - left. exists da, db. repeat split.
  - right. exists eb. split; [right; reflexivity|].
    right. rewrite message_or_internal_year. reflexivity.
  - right. exists ea. split; [left; reflexivity|].
    left. rewrite message_or_internal_year. reflexivity.
  - destruct first.
    + right. exists ea. split; [left; reflexivity|].
      left. rewrite message_or_internal_year. reflexivity.
    + right. exists eb. split; [right; reflexivity|].
      right. rewrite message_or_internal_year. reflexivity.
Qed.

Lemma msg_year_nonempty (year : Z) (msg : jsstring) : msg_year year msg <> [].
Proof. rewrite msg_year_head. discriminate. Qed.

Section HandlerReplies.

Variable normalize_NFD : jsstring -> jsstring.
Variable axios_get : jsstring -> outcome (option table).

(** X6: the handler answers with status 200, 400 or 500.  It requests
    nothing or exactly two pages; nothing when it answers 400, and nothing
    otherwise only when the [url] of the body is a truthy value that is no
    string.  An error reply never has an empty message.  A reply with
    status 200 means that the URL had a year, that both pages were scraped,
    and it carries the comparison of the two datasets. *)
Theorem X6_handler_replies :
  forall (first : pipeline) (url : body_url),
    let reply := fst (comparar_handler normalize_NFD axios_get first url) in
    let requests := snd (comparar_handler normalize_NFD axios_get first url) in
    (status_of reply = 200 \/ status_of reply = 400 \/ status_of reply = 500)
    /\ (requests = [] \/ length requests = 2%nat)
    /\ (status_of reply = 400 -> requests = [])
    /\ (requests = [] -> status_of reply = 400 \/ url = UrlTruthy)
    /\ (forall status msg, reply = ErrorResponse status msg -> msg <> [])
    /\ (forall yearActual yearAnterior data,
          reply = ComparisonResult yearActual yearAnterior data ->
          exists u urlAnterior dataActual dataAnterior,
            url = UrlString u
            /\ requests = [u; urlAnterior]
            /\ resolve_year u = Some (yearActual, yearAnterior, urlAnterior)
            /\ scrapeMefData normalize_NFD axios_get u = Returned dataActual
            /\ scrapeMefData normalize_NFD axios_get urlAnterior
               = Returned dataAnterior
            /\ data = comparar dataActual dataAnterior).
Proof.
  intros first url.
  assert (E4 : forall msg,
             msg <> [] ->
             let reply := ErrorResponse 400 msg in
             let requests := @nil jsstring in
             (status_of reply = 200 \/ status_of reply = 400
              \/ status_of reply = 500)
             /\ (requests = [] \/ length requests = 2%nat)
             /\ (status_of reply = 400 -> requests = [])
             /\ (requests = [] -> status_of reply = 400 \/ url = UrlTruthy)
             /\ (forall status m, reply = ErrorResponse status m -> m <> [])
             /\ (forall yearActual yearAnterior data,
                   reply = ComparisonResult yearActual yearAnterior data ->
                   exists u urlAnterior dataActual dataAnterior,
                     url = UrlString u
                     /\ requests = [u; urlAnterior]
                     /\ resolve_year u
                        = Some (yearActual, yearAnterior, urlAnterior)
                     /\ scrapeMefData normalize_NFD axios_get u
                        = Returned dataActual
                     /\ scrapeMefData normalize_NFD axios_get urlAnterior
                        = Returned dataAnterior
                     /\ data = comparar dataActual dataAnterior)).
  { intros msg N. cbv zeta. cbn [status_of].
    split; [right; left; reflexivity|]. split; [left; reflexivity|].
    split; [reflexivity|]. split; [left; reflexivity|]. split.
    - intros status m H. injection H as _ <-. exact N.
    - intros yA yB data H. discriminate H. }
  destruct url as [|[|c u]| |]; cbn [comparar_handler fst snd].
  - apply E4. discriminate.
  - apply E4. discriminate.
  - destruct (resolve_year (c :: u)) as [[[yA yB] uA]|] eqn:R;
      cbn [fst snd].
    + destruct (respond_cases first yA yB
                  (scrapeMefData normalize_NFD axios_get (c :: u))
                  (scrapeMefData normalize_NFD axios_get uA))
        as [(da & db & A & B & ->)|(e & _ & [-> | ->])]; cbn [status_of].
      * split; [left; reflexivity|]. split; [right; reflexivity|].
        split; [intros F; discriminate F|].
        split; [intros F; discriminate F|]. split.
        -- intros status m H. discriminate H.
        -- intros yA' yB' data H. injection H as <- <- <-.
           exists (c :: u), uA, da, db. repeat split; assumption.
      * split; [right; right; reflexivity|]. split; [right; reflexivity|].
        split; [intros F; discriminate F|].
        split; [intros F; discriminate F|]. split.
        -- intros status m H. injection H as _ <-. apply msg_year_nonempty.
        -- intros yA' yB' data H. discriminate H.
      * split; [right; right; reflexivity|]. split; [right; reflexivity|].
        split; [intros F; discriminate F|].
        split; [intros F; discriminate F|]. split.
        -- intros status m H. injection H as _ <-. apply msg_year_nonempty.
        -- intros yA' yB' data H. discriminate H.
    + apply E4. discriminate.
  - apply E4. discriminate.
  - cbn [status_of].
    split; [right; right; reflexivity|]. split; [left; reflexivity|].
    split; [intros F; discriminate F|].
    split; [right; reflexivity|]. split.
    + intros status m H. injection H as _ <-. discriminate.
    + intros yA' yB' data H. discriminate H.
Qed.

End HandlerReplies.

(** ** Years of four digits *)

Lemma four_digits_range (ds : jsstring) :
  length ds = 4%nat -> all_digits ds -> 0 <= digits_value ds <= 9999.
Proof.
  destruct ds as [|a [|b [|c [|d [|e ds]]]]]; try discriminate. intros _.
  unfold all_digits. cbn [forallb]. rewrite !andb_true_iff, !is_digit_range.
  unfold digits_value, digit_value. cbn [fold_left]. lia.
Qed.

(** The text of an integer that is not negative: its digits, which read
    back as the integer, with no zero in front. *)
Lemma js_uint (d : Decimal.uint) :
  js (NilEmpty.string_of_uint d) = uint_codes d.
Proof.
  induction d; cbn [NilEmpty.string_of_uint uint_codes];
    try rewrite <- IHd; reflexivity.
Qed.

Lemma integer_to_string_pos (p : positive) :
  integer_to_string (Zpos p) = uint_codes (Pos.to_uint p).
Proof.
  unfold integer_to_string. cbn [Z.to_int NilZero.string_of_int].
  rewrite <- js_uint. unfold NilZero.string_of_uint.
  pose proof (DecimalPos.Unsigned.to_uint_nonnil p) as N.
  destruct (Pos.to_uint p); [contradiction | reflexivity ..].
Qed.

Lemma uint_codes_digits (d : Decimal.uint) : all_digits (uint_codes d).
Proof.
  unfold all_digits.
  induction d; cbn [uint_codes forallb]; try rewrite IHd; reflexivity.
Qed.

Lemma uint_codes_acc (d : Decimal.uint) :
  forall acc : positive,
    fold_left (fun acc c => 10 * acc + digit_value c) (uint_codes d) (Zpos acc)
    = Zpos (Pos.of_uint_acc d acc).
Proof.
  induction d; intros acc; cbn [uint_codes fold_left Pos.of_uint_acc];
    [reflexivity | rewrite <- IHd; f_equal; unfold digit_value; lia ..].
Qed.

Lemma uint_codes_value (d : Decimal.uint) :
  digits_value (uint_codes d) = Z.of_N (Pos.of_uint d).
Proof.
  unfold digits_value.
  induction d; cbn [uint_codes fold_left Pos.of_uint Z.of_N];
    [reflexivity | exact IHd | rewrite <- uint_codes_acc; reflexivity ..].
Qed.

Lemma digits_fold_bounds (ds : jsstring) :
  forall acc,
    all_digits ds -> 0 <= acc ->
    acc * 10 ^ Z.of_nat (length ds)
    <= fold_left (fun acc c => 10 * acc + digit_value c) ds acc
    < (acc + 1) * 10 ^ Z.of_nat (length ds).
Proof.
  unfold all_digits. induction ds as [|c ds IH]; intros acc D A.
  - cbn [fold_left length Z.of_nat]. lia.
  - cbn [forallb] in D. apply andb_true_iff in D. destruct D as [Dc D].
    apply is_digit_range in Dc. cbn [fold_left length].
    rewrite Nat2Z.inj_succ, Z.pow_succ_r by lia.
    assert (V : 0 <= digit_value c <= 9) by (unfold digit_value; lia).
    specialize (IH (10 * acc + digit_value c) D ltac:(lia)).
    assert (P : 0 < 10 ^ Z.of_nat (length ds)) by (apply Z.pow_pos_nonneg; lia).
    nia.
Qed.

Lemma to_uint_leading (p : positive) :
  exists c r,
    uint_codes (Pos.to_uint p) = c :: r /\ (49 <= c <= 57)%N.
Proof.
  pose proof (DecimalPos.Unsigned.to_of (Pos.to_uint p)) as U.
  rewrite DecimalPos.Unsigned.of_to in U. cbn [N.to_uint] in U.
  pose proof (DecimalPos.Unsigned.to_uint_nonnil p) as N.
  pose proof (DecimalPos.Unsigned.to_uint_nonzero p) as Z0.
  destruct (Pos.to_uint p) as [|d|d|d|d|d|d|d|d|d|d];
    [contradiction | | eexists; eexists; (split; [reflexivity | lia]) ..].
  exfalso. unfold Decimal.unorm in U. rewrite DecimalFacts.nzhead_D0 in U.
  destruct (Decimal.nzhead d) eqn:E;
    try (symmetry in U; rewrite <- E in U;
         exact (DecimalFacts.nzhead_nonzero _ _ U)).
  injection U as U. subst d. apply Z0. reflexivity.
Qed.

Lemma year_string (n : Z) :
  0 <= n <= 9999 ->
  all_digits (integer_to_string n)
  /\ digits_value (integer_to_string n) = n
  /\ (length (integer_to_string n) <= 4)%nat
  /\ (1000 <= n -> length (integer_to_string n) = 4%nat).
Proof.
  intros H. destruct n as [|p|p]; [| |lia].
  - repeat split; [cbn; lia | lia].
  - rewrite integer_to_string_pos.
    pose proof (uint_codes_digits (Pos.to_uint p)) as D.
    pose proof (uint_codes_value (Pos.to_uint p)) as V.
    rewrite DecimalPos.Unsigned.of_to in V. cbn [Z.of_N] in V.
    destruct (to_uint_leading p) as (c & r & E & C).
    rewrite E in *.
    assert (Dr : all_digits r).
    { unfold all_digits in *. cbn [forallb] in D.
      apply andb_true_iff in D. apply D. }
    pose proof (digits_fold_bounds (c :: r) 0 D ltac:(lia)) as B.
    fold (digits_value (c :: r)) in B. rewrite V in B.
    pose proof (digits_fold_bounds r (10 * 0 + digit_value c) Dr
                  ltac:(unfold digit_value; lia)) as B'.
    change (fold_left (fun acc c => 10 * acc + digit_value c) r
              (10 * 0 + digit_value c)) with (digits_value (c :: r)) in B'.
    rewrite V in B'. cbn [length] in *.
    assert (P : 0 < 10 ^ Z.of_nat (length r)) by (apply Z.pow_pos_nonneg; lia).
    assert (L : (length r < 4)%nat).
    { assert (Q : 10 ^ Z.of_nat (length r) < 10 ^ 4).
      { unfold digit_value in B'. change (10 ^ 4) with 10000. nia. }
      apply Z.pow_lt_mono_r_iff in Q; lia. }
    split; [exact D|]. split; [exact V|]. split; [lia|].
    intros G.
    assert (Q : 10 ^ 3 < 10 ^ Z.of_nat (S (length r))).
    { change (10 ^ 3) with 1000. lia. }
    apply Z.pow_lt_mono_r_iff in Q; lia.
Qed.

Lemma year_here_unmoved (c : N) (b ds ds' rest : jsstring) :
  length ds' = 4%nat ->
  year_here (c :: b ++ 121%N :: 61%N :: ds ++ rest) = None ->
  year_here (c :: b ++ 121%N :: 61%N :: ds' ++ rest) = None.
Proof.
  destruct ds' as [|d1 [|d2 [|d3 [|d4 [|d5 ds']]]]]; try discriminate.
  intros _.
  destruct b as [|c1 [|c2 [|c3 [|c4 [|c5 b]]]]]; cbn [app]; intros H.
  - cbn [app year_here]. destruct (c =? 121)%N; reflexivity.
  - cbn [app year_here]. destruct (c =? 121)%N, (c1 =? 61)%N; reflexivity.
  - cbn [app year_here].
    destruct (c =? 121)%N, (c1 =? 61)%N, (is_digit c2); reflexivity.
  - cbn [app year_here].
    destruct (c =? 121)%N, (c1 =? 61)%N, (is_digit c2), (is_digit c3);
      reflexivity.
  - cbn [app year_here].
    destruct (c =? 121)%N, (c1 =? 61)%N, (is_digit c2), (is_digit c3),
      (is_digit c4); reflexivity.
  - cbn [app year_here] in *.
    destruct ((c =? 121)%N && (c1 =? 61)%N && is_digit c2 && is_digit c3
              && is_digit c4 && is_digit c5); [discriminate H | reflexivity].
Qed.

Lemma exec_year_replace (ds ds' rest : jsstring) :
  length ds' = 4%nat -> all_digits ds' ->
  forall before url,
    exec_year url = Some (before, ds, rest) ->
    exec_year (before ++ 121%N :: 61%N :: ds' ++ rest) = Some (before, ds', rest).
Proof.
  intros L D. induction before as [|c b IH]; intros url H.
  - cbn [app]. rewrite exec_year_unfold.
    assert (Y : year_here (121%N :: 61%N :: ds' ++ rest) = Some (ds', rest)).
    { apply year_here_spec. repeat split; assumption. }
    rewrite Y. reflexivity.
  - pose proof (exec_year_sound _ _ _ _ H) as [[E _] _].
    subst url. cbn [app] in *. rewrite exec_year_unfold in H |- *.
    destruct (year_here (c :: b ++ 121%N :: 61%N :: ds ++ rest))
      as [[ds0 rest0]|] eqn:Y; [discriminate H|].
    rewrite (year_here_unmoved _ _ _ ds' _ L Y).
    destruct (exec_year (b ++ 121%N :: 61%N :: ds ++ rest))
      as [[[b0 ds0] rest0]|] eqn:X; [|discriminate H].
    injection H as -> -> ->.
    rewrite (IH _ X). reflexivity.
Qed.

Lemma resolve_year_inv (url : jsstring) (yearActual yearAnterior : Z)
    (urlAnterior : jsstring) :
  resolve_year url = Some (yearActual, yearAnterior, urlAnterior) ->
  exists before ds rest,
    exec_year url = Some (before, ds, rest)
    /\ yearActual = digits_value ds
    /\ yearAnterior = yearActual - 1
    /\ urlAnterior
       = before ++ 121%N :: 61%N :: integer_to_string yearAnterior ++ rest.
Proof.
  unfold resolve_year, match_year, replace_year.
  destruct (exec_year url) as [[[before ds] rest]|] eqn:E; [|discriminate].
  intros H. injection H as <- <- <-.
  exists before, ds, rest. repeat split.
Qed.

Lemma minus_one_string : integer_to_string (-1) = [45%N; 49%N].
Proof. reflexivity. Qed.

(** X7: when the handler resolves a year, [yearActual] is between 0 and
    9999 and [yearAnterior] is one less; the prior URL differs from the URL
    of the request, is never longer, and has the same length when
    [yearAnterior] is at least 1000. *)
Theorem X7_prior_url_bounds :
  forall (url urlAnterior : jsstring) (yearActual yearAnterior : Z),
    resolve_year url = Some (yearActual, yearAnterior, urlAnterior) ->
    0 <= yearActual <= 9999
    /\ yearAnterior = yearActual - 1
    /\ urlAnterior <> url
    /\ (length urlAnterior <= length url)%nat
    /\ (1000 <= yearAnterior -> length urlAnterior = length url).
Proof.
  intros url urlAnterior yearActual yearAnterior H.
  destruct (resolve_year_inv _ _ _ _ H) as (before & ds & rest & E & A & B & U).
  destruct (exec_year_sound _ _ _ _ E) as [(Eu & L & D) _].
  pose proof (four_digits_range ds L D) as R. rewrite <- A in R.
  assert (S : (length (integer_to_string yearAnterior) <= 4)%nat
              /\ integer_to_string yearAnterior <> ds
              /\ (1000 <= yearAnterior ->
                  length (integer_to_string yearAnterior) = 4%nat)).
  { destruct (Z.eq_dec yearActual 0) as [Z0|Z0].
    - replace yearAnterior with (-1) by lia. rewrite minus_one_string.
      repeat split.
      + simpl. lia.
      + intros F. rewrite <- F in L. discriminate L.
      + lia.
    - destruct (year_string yearAnterior) as (_ & V & Le & Len); [lia|].
      repeat split; try assumption.
      intros F. rewrite F in V. lia. }
  destruct S as (Le & Ne & Len).
  split; [exact R|]. split; [exact B|]. subst url urlAnterior.
  rewrite !length_app. cbn [length]. rewrite !length_app, L.
  repeat split.
  - intros F. apply app_inv_head in F. injection F as F.
    apply app_inv_tail in F. contradiction.
  - lia.
  - intros G. rewrite (Len G). reflexivity.
Qed.


Lemma X7_prior_url_bounds_witness :
  let url := js "https://portal/?y=2024&ap=Proyecto" in
  let urlAnterior := js "https://portal/?y=2023&ap=Proyecto" in
  resolve_year url = Some (2024, 2023, urlAnterior)
  /\ 0 <= 2024 <= 9999
  /\ urlAnterior <> url
  /\ length urlAnterior = length url.
Proof.
  intros url urlAnterior.
  assert (H : resolve_year url = Some (2024, 2023, urlAnterior))
    by (vm_compute; reflexivity).
  destruct (X7_prior_url_bounds url urlAnterior 2024 2023 H)
    as (A & _ & C & _ & E).
  assert (G : 1000 <= 2023) by lia.
  split; [exact H|]. split; [exact A|]. split; [exact C | exact (E G)].
Defined.

(** X8: when [yearAnterior] is at least 1000, the prior URL has its
    leftmost year where the URL of the request has it, and the handler
    given the prior URL would resolve [yearAnterior] and the year before
    it. *)
Theorem X8_prior_url_resolves :
  forall (url urlAnterior : jsstring) (yearActual yearAnterior : Z),
    resolve_year url = Some (yearActual, yearAnterior, urlAnterior) ->
    1000 <= yearAnterior ->
    exists before ds rest,
      leftmost_year url before ds rest
      /\ leftmost_year urlAnterior before (integer_to_string yearAnterior) rest
      /\ exists url', resolve_year urlAnterior
                      = Some (yearAnterior, yearAnterior - 1, url').
Proof.
  intros url urlAnterior yearActual yearAnterior H G.
  destruct (resolve_year_inv _ _ _ _ H) as (before & ds & rest & E & A & B & U).
  pose proof (exec_year_sound _ _ _ _ E) as LM.
  destruct LM as [(Eu & L & D) Lm].
  pose proof (four_digits_range ds L D) as R. rewrite <- A in R.
  destruct (year_string yearAnterior) as (D' & V & _ & Len); [lia|].
  specialize (Len G).
  pose proof (exec_year_replace ds _ rest Len D' before url E) as E'.
  rewrite <- U in E'.
  exists before, ds, rest. split; [split; [repeat split; assumption | exact Lm]|].
  split; [exact (exec_year_sound _ _ _ _ E')|].
  rewrite (resolve_year_exec _ _ _ _ E'), V. eexists. reflexivity.
Qed.


Lemma X8_prior_url_resolves_witness :
  let url := js "https://portal/?ap=y=20&y=2024&y=1999" in
  let urlAnterior := js "https://portal/?ap=y=20&y=2023&y=1999" in
  resolve_year url = Some (2024, 2023, urlAnterior)
  /\ exists url', resolve_year urlAnterior = Some (2023, 2023 - 1, url').
Proof.
  intros url urlAnterior.
  assert (H : resolve_year url = Some (2024, 2023, urlAnterior))
    by (vm_compute; reflexivity).
  assert (G : 1000 <= 2023) by lia.
  destruct (X8_prior_url_resolves url urlAnterior 2024 2023 H G)
    as (before & ds & rest & _ & _ & R).
  split; [exact H | exact R].
Defined.

(** ** Rows of labels that one year lacks *)

Lemma sub_zero_r (x : float) : (x - 0)%float = x.
Proof.
  apply Prim2SF_inj. rewrite sub_spec. change (Prim2SF 0) with (S754_zero false).
  destruct (Prim2SF x) as [s|s| |s m e]; try reflexivity; destruct s; reflexivity.
Qed.

Lemma zero_sub_l (y : float) :
  (y =? 0)%float = false -> (0 - y)%float = (- y)%float.
Proof.
  intros H. apply Prim2SF_inj. rewrite sub_spec, opp_spec.
  rewrite eqb_spec in H. change (Prim2SF 0) with (S754_zero false) in *.
  destruct (Prim2SF y) as [s|s| |s m e]; try reflexivity.
  destruct s; discriminate H.
Qed.

Lemma percent_of_nothing (y : float) :
  (y =? 0)%float = false -> is_NaN y = false ->
  percent_change 0 y = (-100)%float.
Proof.
  intros Z0 N. unfold percent_change. apply Prim2SF_inj.
  rewrite sub_spec, mul_spec, div_spec.
  rewrite eqb_spec in Z0. change (Prim2SF 0) with (S754_zero false) in *.
  assert (N' : Prim2SF y <> S754_nan).
  { intros F. apply is_NaN_spec in F. congruence. }
  destruct (Prim2SF y) as [s|s| |s m e]; try congruence.
  - destruct s; discriminate Z0.
  - destruct s; reflexivity.
  - destruct s; reflexivity.
Qed.

Lemma scaled_zero : Math_trunc (zero / 1000000) = zero.
Proof. reflexivity. Qed.

Lemma row_of (dataActual dataAnterior : dataset) (row : ComparisonRow) :
  In row (comparar dataActual dataAnterior) ->
  row = compare_concepto dataActual dataAnterior (concepto row).
Proof.
  intros H. apply comparar_In in H. destruct H as (k & _ & ->). reflexivity.
Qed.

(** X9: the row of a label that the prior dataset lacks, and that is no
    property name of [Object.prototype], has [montoAnterior] 0, a
    [variacionS] equal to its [montoActual] and [variacionPorcentaje] 0. *)
Theorem X9_new_label_row :
  forall (dataActual dataAnterior : dataset) (row : ComparisonRow),
    In row (comparar dataActual dataAnterior) ->
    own_get dataAnterior (concepto row) = None ->
    existsb (jsstring_eqb (concepto row)) Object_prototype_names = false ->
    montoAnterior row = zero
    /\ variacionS row = montoActual row
    /\ variacionPorcentaje row = zero.
Proof.
  intros dataActual dataAnterior row H G P.
  rewrite (row_of _ _ _ H). set (k := concepto row) in *.
  unfold compare_concepto. cbn [concepto montoAnterior montoActual variacionS
                                 variacionPorcentaje].
  rewrite (missing_defaults_to_zero _ _ G P). cbn [ToNumber].
  rewrite scaled_zero. split; [reflexivity|]. split.
  - apply sub_zero_r.
  - reflexivity.
Qed.


Lemma X9_new_label_row_witness :
  let dataActual := [(js "Obras", 2999999%float)] in
  let dataAnterior := [(js "Deuda", 5000000%float)] in
  let row := {| concepto := js "Obras"; montoAnterior := 0;
                montoActual := 2; variacionS := 2;
                variacionPorcentaje := 0 |} in
  In row (comparar dataActual dataAnterior)
  /\ montoAnterior row = zero
  /\ variacionS row = montoActual row
  /\ variacionPorcentaje row = zero.
Proof.
  intros dataActual dataAnterior row.
  assert (H : In row (comparar dataActual dataAnterior))
    by (vm_compute; left; reflexivity).
  assert (G : own_get dataAnterior (concepto row) = None)
    by (vm_compute; reflexivity).
  assert (P : existsb (jsstring_eqb (concepto row)) Object_prototype_names
              = false) by (vm_compute; reflexivity).
  split; [exact H|].
  exact (X9_new_label_row dataActual dataAnterior row H G P).
Defined.

(** X10: the row of a label that the current dataset lacks, and that is
    no property name of [Object.prototype], has [montoActual] 0.  When its
    [montoAnterior] is not 0, its [variacionS] is the opposite of
    [montoAnterior] and, [montoAnterior] being a number, its
    [variacionPorcentaje] is -100; when [montoAnterior] is 0 the
    percentage is 0. *)
Theorem X10_dropped_label_row :
  forall (dataActual dataAnterior : dataset) (row : ComparisonRow),
    In row (comparar dataActual dataAnterior) ->
    own_get dataActual (concepto row) = None ->
    existsb (jsstring_eqb (concepto row)) Object_prototype_names = false ->
    montoActual row = zero
    /\ ((montoAnterior row =? 0)%float = true ->
        variacionPorcentaje row = zero)
    /\ ((montoAnterior row =? 0)%float = false ->
        variacionS row = (- montoAnterior row)%float
        /\ (is_NaN (montoAnterior row) = false ->
            variacionPorcentaje row = (-100)%float)).
Proof.
  intros dataActual dataAnterior row H G P.
  rewrite (row_of _ _ _ H). set (k := concepto row) in *.
  unfold compare_concepto. cbn [concepto montoAnterior montoActual variacionS
                                 variacionPorcentaje].
  rewrite (missing_defaults_to_zero _ _ G P). cbn [ToNumber].
  rewrite scaled_zero.
  set (a := Math_trunc (ToNumber (or_zero (get dataAnterior k)) / 1000000)).
  split; [reflexivity|]. split.
  - intros ->. reflexivity.
  - intros Z0. rewrite Z0. cbn [negb]. split.
    + apply zero_sub_l. exact Z0.
    + intros N. fold (percent_change zero a).
      change zero with 0%float. rewrite (percent_of_nothing a Z0 N).
      reflexivity.
Qed.


Lemma X10_dropped_label_row_witness :
  let dataActual := [(js "Obras", 2999999%float)] in
  let dataAnterior := [(js "Deuda", 5000000%float)] in
  let row := {| concepto := js "Deuda"; montoAnterior := 5;
                montoActual := 0; variacionS := -5;
                variacionPorcentaje := -100 |} in
  In row (comparar dataActual dataAnterior)
  /\ montoActual row = zero
  /\ variacionS row = (- montoAnterior row)%float
  /\ variacionPorcentaje row = (-100)%float.
Proof.
  intros dataActual dataAnterior row.
  assert (H : In row (comparar dataActual dataAnterior))
    by (vm_compute; right; left; reflexivity).
  assert (G : own_get dataActual (concepto row) = None)
    by (vm_compute; reflexivity).
  assert (P : existsb (jsstring_eqb (concepto row)) Object_prototype_names
              = false) by (vm_compute; reflexivity).
  assert (Z0 : (montoAnterior row =? 0)%float = false) by reflexivity.
  assert (Nn : is_NaN (montoAnterior row) = false) by reflexivity.
  destruct (X10_dropped_label_row dataActual dataAnterior row H G P)
    as (A & _ & B).
  destruct (B Z0) as [S Pc].
  split; [exact H|]. split; [exact A|]. split; [exact S | exact (Pc Nn)].
Defined.

Lemma fold_Set_add_length (l : list jsstring) :
  forall acc,
    (length (fold_left Set_add l acc) <= length acc + length l)%nat.
Proof.
  induction l as [|k l IH]; intros acc; cbn [fold_left length].
  - lia.
  - specialize (IH (Set_add acc k)). unfold Set_add in *.
    destruct (existsb (jsstring_eqb k) acc).
    + lia.
    + rewrite length_app in IH. cbn [length] in IH. lia.
Qed.

(** X11: the rows of the comparison carry distinct labels, which are
    exactly the keys of the two datasets, so there are never more rows
    than the two datasets have keys. *)
Theorem X11_one_row_per_label :
  forall dataActual dataAnterior : dataset,
    NoDup (map concepto (comparar dataActual dataAnterior))
    /\ (forall k, In k (map concepto (comparar dataActual dataAnterior))
                  <-> In k (map fst dataActual) \/ In k (map fst dataAnterior))
    /\ (length (comparar dataActual dataAnterior)
        <= length dataActual + length dataAnterior)%nat.
Proof.
  intros dataActual dataAnterior.
  assert (P : Permutation (map concepto (comparar dataActual dataAnterior))
                          (conceptos dataActual dataAnterior)).
  { rewrite (Permutation_map concepto (comparar_perm dataActual dataAnterior)).
    unfold comparison_rows. rewrite map_map. cbn [compare_concepto concepto].
    rewrite map_id. reflexivity. }
  destruct (conceptos_union dataActual dataAnterior) as [N U].
  split; [|split].
  - apply (Permutation_NoDup (Permutation_sym P) N).
  - intros k. rewrite <- U. split; apply Permutation_in;
      [exact P | exact (Permutation_sym P)].
  - rewrite comparar_length. unfold conceptos, Set_from.
    pose proof (fold_Set_add_length
                  (Object_keys dataActual ++ Object_keys dataAnterior) []) as L.
    rewrite length_app in L.
    rewrite (Permutation_length (Object_keys_perm dataActual)) in L.
    rewrite (Permutation_length (Object_keys_perm dataAnterior)) in L.
    rewrite !length_map in L. exact L.
Qed.

(** ** The sort under any comparator *)

Section AnySort.

Variable A : Type.
Variable comparefn : A -> A -> float.

Lemma sort_insert_permutation (x : A) (l : list A) :
  Permutation (sort_insert comparefn x l) (x :: l).
Proof.
  induction l as [|y l IH]; cbn [sort_insert].
  - apply Permutation_refl.
  - destruct (sorts_after comparefn x y).
    + apply Permutation_trans with (y :: x :: l).
      * apply perm_skip. exact IH.
      * apply perm_swap.
    + apply Permutation_refl.
Qed.

Lemma Array_sort_permutation (l : list A) :
  Permutation (Array_sort comparefn l) l.
Proof.
  induction l as [|x l IH]; cbn [Array_sort fold_right].
  - apply perm_nil.
  - apply Permutation_trans with (x :: Array_sort comparefn l).
    + apply sort_insert_permutation.
    + apply perm_skip. exact IH.
Qed.

(** A list in which no element sorts after the next one is left as it is. *)
Lemma Array_sort_kept (l : list A) :
  Sorted (fun a b => sorts_after comparefn a b = false) l ->
  Array_sort comparefn l = l.
Proof.
  induction 1 as [|x l S IH H]; [reflexivity|].
  cbn [Array_sort fold_right]. fold (Array_sort comparefn l). rewrite IH.
  destruct H as [|y l H]; cbn [sort_insert]; [reflexivity|].
  rewrite H. reflexivity.
Qed.

Variable R : A -> A -> Prop.
Hypothesis R_kept : forall a b, sorts_after comparefn a b = false -> R a b.
Hypothesis R_moved : forall a b, sorts_after comparefn a b = true -> R b a.

Lemma sort_insert_Sorted (x : A) (l : list A) :
  Sorted R l -> Sorted R (sort_insert comparefn x l).
Proof.
  induction l as [|y l IH]; intros S; cbn [sort_insert].
  - repeat constructor.
  - inversion S as [|y' l' Sl Hd]; subst.
    destruct (sorts_after comparefn x y) eqn:E.
    + constructor; [exact (IH Sl)|].
      destruct l as [|z l]; cbn [sort_insert].
      * constructor. exact (R_moved _ _ E).
      * destruct (sorts_after comparefn x z).
        -- constructor. inversion Hd; assumption.
        -- constructor. exact (R_moved _ _ E).
    + constructor; [exact S|]. constructor. exact (R_kept _ _ E).
Qed.

Lemma Array_sort_Sorted (l : list A) : Sorted R (Array_sort comparefn l).
Proof.
  induction l as [|x l IH]; cbn [Array_sort fold_right].
  - constructor.
  - apply sort_insert_Sorted. exact IH.
Qed.

End AnySort.

(** ** The order of a column *)

Lemma ltb_asym (x y : float) :
  (x <? y)%float = true -> (y <? x)%float = false.
Proof.
  intros H. destruct (y <? x)%float eqn:G; [|reflexivity].
  apply sub_pos_of_lt in H. apply sub_pos_of_lt in G.
  apply sub_pos_antisym in H. congruence.
Qed.

Lemma string_ltb_asym (a : jsstring) :
  forall b, string_ltb a b = true -> string_ltb b a = false.
Proof.
  induction a as [|x a IH]; intros [|y b] H; try reflexivity; try discriminate H.
  cbn [string_ltb] in *.
  apply orb_true_iff in H. apply orb_false_iff.
  destruct H as [H|H].
  - apply N.ltb_lt in H. split.
    + apply N.ltb_ge. lia.
    + apply andb_false_iff. left. apply N.eqb_neq. lia.
  - apply andb_true_iff in H. destruct H as [E H]. apply N.eqb_eq in E.
    subst y. split.
    + apply N.ltb_irrefl.
    + rewrite (IH _ H). apply andb_false_r.
Qed.

Lemma field_ltb_asym (key : column) (a b : ConceptoData) :
  field_ltb key a b = true -> field_ltb key b a = false.
Proof.
  destruct key; cbn [field_ltb];
    first [apply string_ltb_asym | apply ltb_asym].
Qed.

Lemma sorts_after_Desc (key : column) (a b : ConceptoData) :
  sorts_after (compare_by (key, Desc)) a b = field_ltb key a b.
Proof.
  unfold sorts_after, compare_by.
  destruct (field_ltb key a b); [reflexivity|].
  destruct (field_ltb key b a); reflexivity.
Qed.

Lemma sorts_after_Asc (key : column) (a b : ConceptoData) :
  sorts_after (compare_by (key, Asc)) a b
  = negb (field_ltb key a b) && field_ltb key b a.
Proof.
  unfold sorts_after, compare_by.
  destruct (field_ltb key a b); [reflexivity|].
  destruct (field_ltb key b a); reflexivity.
Qed.

Lemma compare_by_kept (config : column * direction) (a b : ConceptoData) :
  sorts_after (compare_by config) a b = false -> in_order config a b.
Proof.
  destruct config as [key [|]]; unfold in_order.
  - rewrite sorts_after_Asc. intros H.
    destruct (field_ltb key a b) eqn:L.
    + apply field_ltb_asym. exact L.
    + exact H.
  - rewrite sorts_after_Desc. intros H. exact H.
Qed.

Lemma compare_by_moved (config : column * direction) (a b : ConceptoData) :
  sorts_after (compare_by config) a b = true -> in_order config b a.
Proof.
  destruct config as [key [|]]; unfold in_order.
  - rewrite sorts_after_Asc. intros H. apply andb_true_iff in H.
    destruct H as [H _]. apply negb_true_iff in H. exact H.
  - rewrite sorts_after_Desc. apply field_ltb_asym.
Qed.

Lemma filter_matches_nil (toLowerCase : jsstring -> jsstring)
    (l : list ConceptoData) :
  filter (matches_search toLowerCase []) l = l.
Proof.
  induction l as [|x l IH]; cbn [filter matches_search]; [reflexivity|].
  change (filter (fun _ : ConceptoData => true) l)
    with (filter (matches_search toLowerCase []) l). rewrite IH. reflexivity.
Qed.

Lemma searched_rows (toLowerCase : jsstring -> jsstring) (api : ApiResponse)
    (searchTerm : jsstring) (sortConfig : sort_config) :
  filteredAndSortedData toLowerCase (Some api) searchTerm sortConfig
  = let result := filter (matches_search toLowerCase searchTerm) (api_data api) in
    match sortConfig with
    | Some config => Array_sort (compare_by config) result
    | None => result
    end.
Proof.
  unfold filteredAndSortedData. cbv zeta. destruct searchTerm as [|c s].
  - rewrite filter_matches_nil. reflexivity.
  - reflexivity.
Qed.

(** X12: the table shows exactly the rows of the response that pass the
    search, each as often as the response has it; with a sort
    configuration each row and the next are in the order of the chosen
    column and direction, without one they keep the order of the
    response; with an empty search term no row is left out. *)
Theorem X12_displayed_rows :
  forall (toLowerCase : jsstring -> jsstring) (api : ApiResponse)
         (searchTerm : jsstring) (sortConfig : sort_config),
    let shown :=
      filteredAndSortedData toLowerCase (Some api) searchTerm sortConfig in
    let found := filter (matches_search toLowerCase searchTerm) (api_data api) in
    Permutation shown found
    /\ (forall row,
           In row shown <->
           In row (api_data api) /\ matches_search toLowerCase searchTerm row = true)
    /\ (forall config, sortConfig = Some config -> Sorted (in_order config) shown)
    /\ (sortConfig = None -> shown = found)
    /\ (searchTerm = [] -> length shown = length (api_data api)).
Proof.
  intros toLowerCase api searchTerm sortConfig. cbv zeta.
  rewrite searched_rows. cbv zeta.
  set (found := filter (matches_search toLowerCase searchTerm) (api_data api)).
  assert (P : Permutation
                match sortConfig with
                | Some config => Array_sort (compare_by config) found
                | None => found
                end found).
  { destruct sortConfig as [config|].
    - apply Array_sort_permutation.
    - apply Permutation_refl. }
  split; [exact P|]. split; [|split; [|split]].
  - intros row. unfold found at 2. rewrite <- filter_In. split.
    + apply Permutation_in. exact P.
    + apply Permutation_in. apply Permutation_sym. exact P.
  - intros config ->. apply Array_sort_Sorted.
    + apply compare_by_kept.
    + apply compare_by_moved.
  - intros ->. reflexivity.
  - intros ->. rewrite (Permutation_length P). unfold found.
    rewrite filter_matches_nil. reflexivity.
Qed.

(** X13: with the initial sort configuration and no search term, rows
    that arrive in descending order of [variacionS] ([null] reading as 0)
    are shown in the order in which they arrived. *)
Theorem X13_default_view_keeps_order :
  forall (toLowerCase : jsstring -> jsstring) (api : ApiResponse),
    Sorted (in_order (Col_variacionS, Desc)) (api_data api) ->
    filteredAndSortedData toLowerCase (Some api) [] initial_sortConfig
    = api_data api.
Proof.
  intros toLowerCase api D. rewrite searched_rows. cbv zeta.
  rewrite filter_matches_nil. unfold initial_sortConfig.
  apply Array_sort_kept.
  induction D as [|x l S IH H]; constructor.
  - exact IH.
  - destruct H as [|y l H]; constructor.
    rewrite sorts_after_Desc. exact H.
Qed.

Lemma X13_default_view_keeps_order_witness :
  let dataActual := [(js "Obras", 2000000%float); (js "Salud", 3000000%float)] in
  let dataAnterior := [(js "Salud", 3000000%float); (js "Deuda", 5000000%float)] in
  let api := {| api_yearActual := 2024; api_yearAnterior := 2023;
                api_data := map JSON_row (comparar dataActual dataAnterior) |} in
  map item_concepto (api_data api) = [js "Obras"; js "Salud"; js "Deuda"]
  /\ map item_variacionS (api_data api)
     = [JsonNumber 2 eq_refl; JsonNumber 0 eq_refl; JsonNumber (-5) eq_refl]
  /\ Sorted (in_order (Col_variacionS, Desc)) (api_data api)
  /\ filteredAndSortedData (fun s => s) (Some api) [] initial_sortConfig
     = api_data api.
Proof.
  intros dataActual dataAnterior api.
  assert (L : map item_concepto (api_data api)
              = [js "Obras"; js "Salud"; js "Deuda"])
    by (vm_compute; reflexivity).
  assert (V : map item_variacionS (api_data api)
              = [JsonNumber 2 eq_refl; JsonNumber 0 eq_refl;
                 JsonNumber (-5) eq_refl])
    by (vm_compute; reflexivity).
  assert (D : Sorted (in_order (Col_variacionS, Desc)) (api_data api)).
  { destruct (api_data api) as [|a [|b [|c [|d l]]]]; try discriminate L.
    injection V as Va Vb Vc.
    repeat constructor; unfold in_order, field_ltb; rewrite ?Va, ?Vb, ?Vc;
      reflexivity. }
  split; [exact L|]. split; [exact V|]. split; [exact D|].
  exact (X13_default_view_keeps_order (fun s => s) api D).
Defined.

Lemma column_eqb_eq (a b : column) : column_eqb a b = true <-> a = b.
Proof. destruct a, b; split; intros H; try reflexivity; discriminate H. Qed.

Lemma handleSort_Desc (key : column) :
  handleSort (Some (key, Desc)) key = Some (key, Asc).
Proof.
  unfold handleSort. rewrite (proj2 (column_eqb_eq key key) eq_refl).
  reflexivity.
Qed.

Lemma handleSort_other (sortConfig : sort_config) (key : column) :
  sortConfig <> Some (key, Desc) ->
  handleSort sortConfig key = Some (key, Desc).
Proof.
  intros N. unfold handleSort. destruct sortConfig as [[k [|]]|]; try reflexivity.
  destruct (column_eqb k key) eqn:E; [|reflexivity].
  apply column_eqb_eq in E. subst k. contradiction.
Qed.

Lemma sort_config_dec (sortConfig : sort_config) (key : column) :
  sortConfig = Some (key, Desc) \/ sortConfig <> Some (key, Desc).
Proof.
  destruct sortConfig as [[k [|]]|]; try (right; discriminate).
  destruct (column_eqb k key) eqn:E.
  - apply column_eqb_eq in E. subst k. left. reflexivity.
  - right. intros H. injection H as ->.
    rewrite (proj2 (column_eqb_eq key key) eq_refl) in E. discriminate E.
Qed.

(** X14: [handleSort] always sorts by the column it is given.  The
    direction is ascending exactly when the table was sorted by that
    column in descending order, and descending otherwise; so a second
    call in a row on one column gives ascending exactly when the first
    gave descending, a third gives what the first gave, and a call on a
    column after a call on another one gives descending. *)
Theorem X14_handleSort_toggles :
  forall (sortConfig : sort_config) (key : column),
    (handleSort sortConfig key = Some (key, Asc)
     <-> sortConfig = Some (key, Desc))
    /\ (handleSort sortConfig key = Some (key, Desc)
        <-> sortConfig <> Some (key, Desc))
    /\ (handleSort (handleSort sortConfig key) key = Some (key, Asc)
        <-> sortConfig <> Some (key, Desc))
    /\ handleSort (handleSort (handleSort sortConfig key) key) key
       = handleSort sortConfig key
    /\ (forall other,
          other <> key ->
          handleSort (handleSort sortConfig other) key = Some (key, Desc)).
Proof.
  intros sortConfig key.
  assert (O : forall other,
             other <> key ->
             handleSort (handleSort sortConfig other) key = Some (key, Desc)).
  { intros other N. apply handleSort_other. unfold handleSort.
    intros H. injection H as H _. contradiction. }
  destruct (sort_config_dec sortConfig key) as [->|N].
  - rewrite !handleSort_Desc.
    rewrite (handleSort_other (Some (key, Asc)) key) by discriminate.
    rewrite handleSort_Desc.
    split; [split; reflexivity|]. split; [split; [discriminate | congruence]|].
    split; [split; [discriminate | congruence]|]. split; [reflexivity | exact O].
  - rewrite (handleSort_other _ _ N), handleSort_Desc.
    rewrite (handleSort_other (Some (key, Asc)) key) by discriminate.
    split; [split; [discriminate | contradiction]|].
    split; [split; [intros _; exact N | reflexivity]|].
    split; [split; [intros _; exact N | reflexivity]|].
    split; [reflexivity | exact O].
Qed.

(** ** The client and the handler *)

Lemma msg_no_year_differs :
  msg_no_year <> msg_url_required /\ msg_no_year <> msg_request_failed
  /\ msg_no_year <> [].
Proof.
  repeat split; intros F; vm_compute in F; discriminate F.
Qed.

Lemma msg_year_differs (year : Z) (msg : jsstring) :
  msg_year year msg <> msg_url_required
  /\ msg_year year msg <> msg_request_failed
  /\ msg_year year msg <> [].
Proof.
  unfold msg_year. repeat split; intros F;
    apply (f_equal (firstn 7)) in F; vm_compute in F; discriminate F.
Qed.

Section ClientAndHandler.

Variable normalize_NFD : jsstring -> jsstring.
Variable axios_get : jsstring -> outcome (option table).

Lemma string_url_reply (first : pipeline) (c : N) (u : jsstring)
    (status : Z) (msg : jsstring) :
  fst (comparar_handler normalize_NFD axios_get first (UrlString (c :: u)))
  = ErrorResponse status msg ->
  (status = 400 \/ status = 500)
  /\ msg <> msg_url_required /\ msg <> msg_request_failed /\ msg <> [].
Proof.
  cbn [comparar_handler].
  destruct (resolve_year (c :: u)) as [[[yA yB] uA]|] eqn:R; cbn [fst].
  - destruct (respond_cases first yA yB
                (scrapeMefData normalize_NFD axios_get (c :: u))
                (scrapeMefData normalize_NFD axios_get uA))
      as [(da & db & _ & _ & ->)|(e & _ & [-> | ->])]; intros H.
    + discriminate H.
    + injection H as <- <-. split; [right; reflexivity|].
      apply msg_year_differs.
    + injection H as <- <-. split; [right; reflexivity|].
      apply msg_year_differs.
  - intros H. injection H as <- <-. split; [left; reflexivity|].
    apply msg_no_year_differs.
Qed.

(** X15: [handleEjecutar] in front of the handler.  With an empty input
    it posts nothing and changes nothing.  Otherwise it posts the URL once
    and ends with [loading] off; for an error reply it shows the message
    of the handler as it is, which is neither "La URL es requerida." nor
    the text the client falls back on, and it keeps the data it had; for a
    reply with status 200 it clears the error and holds the parsed
    body. *)
Theorem X15_client_shows_reply :
  forall (first : pipeline) (P : Type) (parsed : http_response -> P)
         (error_field : P -> option jsstring),
    (forall status msg,
        error_field (parsed (ErrorResponse status msg)) = Some msg) ->
    forall (url : jsstring) (st : ui_state P),
      let reply :=
        fst (comparar_handler normalize_NFD axios_get first (UrlString url)) in
      let run :=
        handleEjecutar P error_field
          (post_to_handler normalize_NFD axios_get first P parsed) url st in
      (url = [] -> run = (st, []))
      /\ (url <> [] ->
          snd run = [url]
          /\ ui_loading (fst run) = false
          /\ (forall status msg,
                reply = ErrorResponse status msg ->
                ui_error (fst run) = Some msg
                /\ ui_apiData (fst run) = ui_apiData st
                /\ msg <> msg_url_required
                /\ msg <> msg_request_failed)
          /\ (forall yearActual yearAnterior data,
                reply = ComparisonResult yearActual yearAnterior data ->
                ui_error (fst run) = None
                /\ ui_apiData (fst run) = Some (parsed reply))).
Proof.
  intros first P parsed error_field E url st. cbv zeta.
  split; [intros ->; reflexivity|]. intros N.
  destruct url as [|c u]; [contradiction|].
  unfold handleEjecutar, post_to_handler. cbv zeta.
  destruct (fst (comparar_handler normalize_NFD axios_get first
                   (UrlString (c :: u)))) as [status msg|yA yB data] eqn:R.
  - destruct (string_url_reply _ _ _ _ _ R) as ([S|S] & N1 & N2 & N3);
      subst status; cbn [status_of response_ok fst snd].
    + change (response_ok 400) with false. cbv iota. cbn [fst snd ui_loading].
      split; [reflexivity|]. split; [reflexivity|]. split.
      * intros status' msg' H. injection H as <- <-.
        cbn [ui_error ui_apiData]. unfold error_or_default. rewrite E.
        destruct msg as [|m0 msg]; [contradiction|]. repeat split; assumption.
      * intros yA yB data H. discriminate H.
    + change (response_ok 500) with false. cbv iota. cbn [fst snd ui_loading].
      split; [reflexivity|]. split; [reflexivity|]. split.
      * intros status' msg' H. injection H as <- <-.
        cbn [ui_error ui_apiData]. unfold error_or_default. rewrite E.
        destruct msg as [|m0 msg]; [contradiction|]. repeat split; assumption.
      * intros yA yB data H. discriminate H.
  - cbn [status_of]. change (response_ok 200) with true. cbv iota.
    cbn [fst snd ui_loading ui_error ui_apiData].
    split; [reflexivity|]. split; [reflexivity|]. split.
    + intros status msg H. discriminate H.
    + intros yA' yB' data' H. split; reflexivity.
Qed.


End ClientAndHandler.

Lemma X15_client_shows_reply_witness :
  let url := js "https://portal/?ap=Proyecto" in
  let st := {| ui_loading := false; ui_error := None;
               ui_apiData := @None http_response |} in
  let run :=
    handleEjecutar http_response reply_error
      (post_to_handler nfd_latin1 sample_portal Actual http_response
                       (fun r => r)) url st in
  ui_error (fst run) = Some msg_no_year
  /\ ui_apiData (fst run) = ui_apiData st.
Proof.
  intros url st run.
  pose proof (X15_client_shows_reply nfd_latin1 sample_portal Actual
                http_response (fun r => r) reply_error
                (fun _ _ => eq_refl) url st) as G.
  cbv zeta in G. destruct G as [_ G].
  assert (N : url <> []) by (intros F; vm_compute in F; discriminate F).
  destruct (G N) as (_ & _ & E & _).
  assert (R : fst (comparar_handler nfd_latin1 sample_portal Actual
                     (UrlString url))
              = ErrorResponse 400 msg_no_year) by (vm_compute; reflexivity).
  destruct (E 400 msg_no_year R) as (A & B & _).
  split; [exact A | exact B].
Defined.


(** ** Totals *)

Lemma or_zero_number (x : float) :
  is_NaN (ToNumber (or_zero (JNumber x))) = false.
Proof.
  unfold or_zero, truthy. destruct (is_NaN x) eqn:N.
  - rewrite orb_true_r. reflexivity.
  - rewrite orb_false_r. destruct (x =? 0)%float; cbn [negb ToNumber].
    + reflexivity.
    + exact N.
Qed.

Lemma eqb_zero_spec (x : float) :
  (x =? 0)%float = true <-> exists s, Prim2SF x = S754_zero s.
Proof.
  rewrite eqb_spec. change (Prim2SF 0) with (S754_zero false). split.
  - intros H. destruct (Prim2SF x) as [s|s| |s m e]; try discriminate H.
    + exists s. reflexivity.
    + destruct s; discriminate H.
    + destruct s; discriminate H.
  - intros [s ->]. reflexivity.
Qed.

(** Two sums that are equal, or are both a zero, stay so when the same
    number is added to each. *)
Lemma add_same (x x' y : float) :
  x = x' \/ ((x =? 0)%float = true /\ (x' =? 0)%float = true) ->
  (x + y = x' + y)%float
  \/ ((x + y =? 0)%float = true /\ (x' + y =? 0)%float = true).
Proof.
  intros [->|[Z0 Z0']]; [left; reflexivity|].
  apply eqb_zero_spec in Z0. apply eqb_zero_spec in Z0'.
  destruct Z0 as [s E], Z0' as [s' E'].
  destruct (Prim2SF y) as [sy|sy| |sy my ey] eqn:Y.
  - right. split; apply eqb_zero_spec; rewrite add_spec, Y.
    + rewrite E. destruct s, sy; eexists; reflexivity.
    + rewrite E'. destruct s', sy; eexists; reflexivity.
  - left. apply Prim2SF_inj. rewrite !add_spec, E, E', Y. reflexivity.
  - left. apply Prim2SF_inj. rewrite !add_spec, E, E', Y. reflexivity.
  - left. apply Prim2SF_inj. rewrite !add_spec, E, E', Y. reflexivity.
Qed.

Lemma add_zero_same (x : float) :
  (x + zero)%float = x
  \/ ((x + zero =? 0)%float = true /\ (x =? 0)%float = true).
Proof.
  destruct (Prim2SF x) as [s|s| |s m e] eqn:X.
  - right. split; apply eqb_zero_spec.
    + rewrite add_spec, X. destruct s; eexists; reflexivity.
    + exists s. exact X.
  - left. apply Prim2SF_inj. rewrite add_spec, X. reflexivity.
  - left. apply Prim2SF_inj. rewrite add_spec, X. reflexivity.
  - left. apply Prim2SF_inj. rewrite add_spec, X. reflexivity.
Qed.

Lemma sum_same (field : ConceptoData -> json_number)
    (rows : list ConceptoData) :
  forall acc acc',
    acc = acc' \/ ((acc =? 0)%float = true /\ (acc' =? 0)%float = true) ->
    let sum :=
      fold_left (fun sum item => (sum + json_ToNumber (field item))%float)
                rows in
    sum acc = sum acc'
    \/ ((sum acc =? 0)%float = true /\ (sum acc' =? 0)%float = true).
Proof.
  induction rows as [|r rows IH]; intros acc acc' H; cbn [fold_left].
  - exact H.
  - apply IH. apply add_same. exact H.
Qed.

Lemma or_zero_same (x x' : float) :
  x = x' \/ ((x =? 0)%float = true /\ (x' =? 0)%float = true) ->
  ToNumber (or_zero (JNumber x)) = ToNumber (or_zero (JNumber x')).
Proof.
  intros [->|[Z0 Z0']]; [reflexivity|].
  unfold or_zero, truthy. rewrite Z0, Z0'. reflexivity.
Qed.



(** ** The sign of a variation *)

Lemma opp_sign (x : float) :
  (0 <? x)%float = true ->
  (- x <? 0)%float = true /\ (0 <? - x)%float = false
  /\ abs (- x) = abs x.
Proof.
  intros H. rewrite !ltb_spec, !opp_spec in *.
  change (Prim2SF 0) with (S754_zero false) in *.
  split; [|split].
  - destruct (Prim2SF x) as [s|s| |s m e]; try discriminate H;
      destruct s; try discriminate H; reflexivity.
  - destruct (Prim2SF x) as [s|s| |s m e]; try discriminate H;
      destruct s; try discriminate H; reflexivity.
  - apply Prim2SF_inj. rewrite !abs_spec, opp_spec.
    destruct (Prim2SF x) as [s|s| |s m e]; reflexivity.
Qed.

Lemma no_sign (x : float) :
  is_NaN x = true \/ (x =? 0)%float = true ->
  (0 <? x)%float = false /\ (x <? 0)%float = false.
Proof.
  rewrite is_NaN_spec, eqb_spec, !ltb_spec.
  change (Prim2SF 0) with (S754_zero false).
  intros [H|H].
  - rewrite H. split; reflexivity.
  - destruct (Prim2SF x) as [s|s| |s m e]; try (split; reflexivity);
      destruct s; discriminate H.
Qed.

Lemma abs_not_negative (x : float) : (abs x <? 0)%float = false.
Proof.
  rewrite ltb_spec, abs_spec. change (Prim2SF 0) with (S754_zero false).
  destruct (Prim2SF x) as [s|s| |s m e]; reflexivity.
Qed.

(** X17: [formatVariacion] shows a positive number with [+] before the
    formatted magnitude and its opposite with [-] before the same text; it
    shows 0, -0 and [NaN] as "0"; and [formatNumber] is never given a
    negative number. *)
Theorem X17_formatVariacion_sign :
  forall (formatNumber : float -> jsstring) (num : float),
    ((0 <? num)%float = true ->
     formatVariacion formatNumber num = 43%N :: formatNumber (abs num)
     /\ formatVariacion formatNumber (- num) = 45%N :: formatNumber (abs num))
    /\ (is_NaN num = true \/ (num =? 0)%float = true ->
        formatVariacion formatNumber num = js "0")
    /\ (abs num <? 0)%float = false.
Proof.
  intros formatNumber num. split; [|split].
  - intros H. destruct (opp_sign num H) as (A & B & C).
    unfold formatVariacion. cbv zeta. rewrite H, A, B, C. split; reflexivity.
  - intros H. destruct (no_sign num H) as (A & B).
    unfold formatVariacion. cbv zeta. rewrite A, B. reflexivity.
  - apply abs_not_negative.
Qed.

